(** * SkyDictionary: the sky-location marginalization engine of cogwheel

    A shallow embedding of
    [cogwheel/likelihood/marginalization/skydict.py] and the properties of
    its delay index, dense lookup arrays, query engine, conditional
    delay-prior builder and timeseries resampler.

    Conventions of the embedding.
    - Python [int] is [Z]; sample indices and heap locations are [nat].
    - numpy [float64] values are idealised as exact rationals [Q]; the one
      operation that leaves the rationals, the square root inside
      [np.linalg.norm], is a parameter [sqrtQ] of the construction.
      Likewise [astype(int)] is the identity on the rounded value: the
      rounding error of the float product and the overflow of the int64
      cast are not modelled, so nothing below is a statement about the
      accuracy of the rounding itself.
    - A 2-D numpy array is the list of its rows.  All arrays the program
      builds are rectangular; the shape predicates below say so where a
      theorem needs it.
    - An n-dimensional numpy array is its shape, its fill value and a
      finite map from (normalised) multi-indices to the cells written so
      far.
    - Python exceptions are values of [exn]; a computation that may raise
      has type [result A].
    - The quasi-random sampler ([scipy.stats.qmc.Halton]) and the
      detector-geometry provider ([cogwheel.gw_utils]) are external: the
      constructor receives the arrays they return as part of its input. *)

From Stdlib Require Import ZArith QArith Qround Qabs Lia Lqa String.
From stdpp Require Import base option list gmap strings.

Local Open Scope Z_scope.

(** ** Exceptions and fallible computations *)

Inductive exn : Type :=
  | ValueError (msg : string)
  | IndexError
  | ZeroDivisionError.

Inductive result (A : Type) : Type :=
  | Ok (a : A)
  | Raise (e : exn).
Arguments Ok {A} a.
Arguments Raise {A} e.

#[export] Instance result_ret : MRet result := fun A a => Ok a.
#[export] Instance result_bind : MBind result := fun A B f m =>
  match m with
  | Ok a => f a
  | Raise e => Raise e
  end.

(** [for x in xs: acc = f(acc, x)] with a body that may raise. *)
Fixpoint foldM {A B} (f : A → B → result A) (a : A) (xs : list B) : result A :=
  match xs with
  | [] => Ok a
  | x :: xs' => a' ← f a x; foldM f a' xs'
  end.

(** [[f(x) for x in xs]] with a body that may raise. *)
Fixpoint mapR {A B} (f : A → result B) (xs : list A) : result (list B) :=
  match xs with
  | [] => Ok []
  | x :: xs' => y ← f x; ys ← mapR f xs'; Ok (y :: ys)
  end.

(** ** Python and numpy primitives *)

(** Python's [zip] applied to the unpacked rows: the tuples of the i-th
    entries of all rows, as long as every row has an i-th entry; no tuple
    at all when there is no row. *)
Fixpoint zip_star {A} (rows : list (list A)) : list (list A) :=
  match rows with
  | [] => []
  | [r] => map (λ x, [x]) r
  | r :: rows' => zip_with cons r (zip_star rows')
  end.

(** [enumerate(xs)] *)
Definition enumerate {A} (xs : list A) : list (nat * A) :=
  imap (λ i x, (i, x)) xs.

(** [np.rint] on the rationals: round to nearest, ties to even. *)
Definition rint (x : Q) : Z :=
  let fl := Qfloor x in
  match Qcompare (x - inject_Z fl) (1 # 2) with
  | Lt => fl
  | Gt => fl + 1
  | Eq => if Z.even fl then fl else fl + 1
  end.

(** [a[mask]] for a boolean mask over the axis of [a]. *)
Fixpoint mask_select {A} (mask : list bool) (a : list A) : list A :=
  match mask, a with
  | b :: mask', x :: a' =>
      if b then x :: mask_select mask' a' else mask_select mask' a'
  | _, _ => []
  end.

(** [mask[mask] *= sub]: the True entries of [mask] are multiplied, in
    order, by the entries of [sub]. *)
Fixpoint mask_refine (mask sub : list bool) : list bool :=
  match mask with
  | [] => []
  | false :: mask' => false :: mask_refine mask' sub
  | true :: mask' =>
      match sub with
      | s :: sub' => (true && s) :: mask_refine mask' sub'
      | [] => true :: mask_refine mask' []
      end
  end.

(** [np.min(a, axis=0)] and [np.max(a, axis=0)] of a 2-D integer array;
    numpy raises [ValueError] on a zero-size array. *)
Definition np_min_axis0 (a : list (list Z)) : result (list Z) :=
  match a with
  | [] => Raise (ValueError "zero-size array to reduction operation minimum which has no identity")
  | r :: a' => Ok (foldl (zip_with Z.min) r a')
  end.

Definition np_max_axis0 (a : list (list Z)) : result (list Z) :=
  match a with
  | [] => Raise (ValueError "zero-size array to reduction operation maximum which has no identity")
  | r :: a' => Ok (foldl (zip_with Z.max) r a')
  end.

(** [row.min()] and [row.max()] of a 1-D integer array. *)
Definition np_min (row : list Z) : result Z :=
  match row with
  | [] => Raise (ValueError "zero-size array to reduction operation minimum which has no identity")
  | x :: row' => Ok (foldl Z.min x row')
  end.

Definition np_max (row : list Z) : result Z :=
  match row with
  | [] => Raise (ValueError "zero-size array to reduction operation maximum which has no identity")
  | x :: row' => Ok (foldl Z.max x row')
  end.

(** *** n-dimensional arrays *)

Record ndarray (A : Type) : Type := NdArray {
  nd_shape : list Z;
  nd_fill : A;
  nd_cells : gmap (list Z) A
}.
Arguments NdArray {A} _ _ _.
Arguments nd_shape {A} _.
Arguments nd_fill {A} _.
Arguments nd_cells {A} _.

(** [np.full(shape, v)]; [np.zeros(shape)] is [np_full shape 0]. *)
Definition np_full {A} (shape : list Z) (v : A) : ndarray A :=
  NdArray shape v ∅.

(** numpy's rule for one integer index [k] along an axis of length
    [size]: [0 <= k < size] addresses cell [k], [-size <= k < 0] addresses
    cell [k + size], anything else raises [IndexError]. *)
Definition normalize_index (size k : Z) : result Z :=
  if bool_decide (0 ≤ k < size) then Ok k
  else if bool_decide (- size ≤ k < 0) then Ok (k + size)
  else Raise IndexError.

(** The cell addressed by a full integer index tuple.  (Every index tuple
    of this program has exactly one component per axis; tuples of another
    length are reported as [IndexError].) *)
Fixpoint nd_cell (shape key : list Z) : result (list Z) :=
  match shape, key with
  | [], [] => Ok []
  | s :: shape', k :: key' =>
      c ← normalize_index s k; cs ← nd_cell shape' key'; Ok (c :: cs)
  | _, _ => Raise IndexError
  end.

(** [a[key]] *)
Definition nd_get {A} (a : ndarray A) (key : list Z) : result A :=
  c ← nd_cell (nd_shape a) key;
  Ok (default (nd_fill a) (nd_cells a !! c)).

(** [a[key] = v] *)
Definition nd_set {A} (a : ndarray A) (key : list Z) (v : A) : result (ndarray A) :=
  c ← nd_cell (nd_shape a) key;
  Ok (NdArray (nd_shape a) (nd_fill a) (<[c := v]> (nd_cells a))).

(** [a[tuple(index_arrays)]]: integer-array indexing with one index array
    per axis; entry [i] of the result is [a[i0[i], i1[i], ...]]. *)
Definition nd_take {A} (a : ndarray A) (index_arrays : list (list Z)) : result (list A) :=
  mapR (nd_get a) (zip_star index_arrays).

(** *** Insertion-ordered dictionaries *)

(** A Python [dict] keeps its items in insertion order: an association
    list without duplicate keys. *)
Abbreviation pydict K V := (list (K * V)).

Fixpoint dict_get {K V} `{EqDecision K} (d : pydict K V) (key : K) : option V :=
  match d with
  | [] => None
  | (k, v) :: d' => if decide (k = key) then Some v else dict_get d' key
  end.

(** Position of [key] among the items. *)
Fixpoint dict_index {K V} `{EqDecision K} (d : pydict K V) (key : K) : option nat :=
  match d with
  | [] => None
  | (k, _) :: d' => if decide (k = key) then Some O else S <$> dict_index d' key
  end.

(** [d[key] = v] *)
Fixpoint dict_set {K V} `{EqDecision K} (d : pydict K V) (key : K) (v : V) : pydict K V :=
  match d with
  | [] => [(key, v)]
  | (k, v') :: d' =>
      if decide (k = key) then (k, v) :: d' else (k, v') :: dict_set d' key v
  end.

(** [d[key].append(i)] on a [collections.defaultdict(list)]. *)
Fixpoint defaultdict_append {K A} `{EqDecision K}
    (d : pydict K (list A)) (key : K) (i : A) : pydict K (list A) :=
  match d with
  | [] => [(key, [i])]
  | (k, v) :: d' =>
      if decide (k = key) then (k, v ++ [i]) :: d'
      else (k, v) :: defaultdict_append d' key i
  end.

(** *** Iterators

    The cells of [_ind_generators] hold references to iterator objects.
    The heap is the list of those objects; a reference is a position in
    it. *)

Inductive iterator : Type :=
  | EmptyIter                                  (* iter(()) *)
  | Cycle (items : list nat) (pos : nat).      (* itertools.cycle(items) *)

(** [next(it)]: the value and the advanced iterator, or [None] for
    [StopIteration]. *)
Definition next (it : iterator) : option (nat * iterator) :=
  match it with
  | EmptyIter => None
  | Cycle items pos =>
      x ← items !! pos;
      Some (x, Cycle items (S pos mod length items)%nat)
  end.

Abbreviation heap := (list iterator).

(** [next] on the object a reference points to. *)
Definition heap_next (h : heap) (loc : nat) : option (nat * heap) :=
  it ← h !! loc;
  '(x, it') ← next it;
  Some (x, <[loc := it']> h).

(** [np.fromiter(map(next, generators), int)]: the references are advanced
    in order; a [StopIteration] coming out of [next] ends the [map]
    iterator, which [np.fromiter] takes for the end of the data.  The
    boolean tells whether that happened. *)
Fixpoint fromiter_map_next (h : heap) (generators : list nat) : list nat * heap * bool :=
  match generators with
  | [] => ([], h, false)
  | g :: generators' =>
      match heap_next h g with
      | None => ([], h, true)
      | Some (x, h') =>
          let '(xs, h'', stopped) := fromiter_map_next h' generators' in
          (x :: xs, h'', stopped)
      end
  end.

(** *** Histograms *)

(** The bin of [np.histogramdd] that the coordinate [x] falls in: bin [j]
    is [edges[j] <= x < edges[j+1]], the last bin also holds its right
    edge; [None] outside the edges. *)
Definition bin_of (edges : list Q) (x : Q) : option Z :=
  let c := length (filter (λ e, Qle_bool e x = true) edges) in
  if decide (c = O) then None
  else if decide (c = length edges) then
    match last edges with
    | Some e => if Qeq_bool e x then Some (Z.of_nat c - 2) else None
    | None => None
    end
  else Some (Z.of_nat c - 1).

Fixpoint bins_of (bins : list (list Q)) (x : list Z) : option (list Z) :=
  match bins, x with
  | [], [] => Some []
  | edges :: bins', xi :: x' =>
      c ← bin_of edges (inject_Z xi); cs ← bins_of bins' x'; Some (c :: cs)
  | _, _ => None
  end.

(** [np.histogramdd(sample, weights=weights, bins=bins)[0]] for integer
    samples: every sample adds its weight to the cell of its bins. *)
Definition histogramdd (sample : list (list Z)) (weights : list Q)
    (bins : list (list Q)) : ndarray Q :=
  foldl (λ hist xw,
           match bins_of bins xw.1 with
           | Some cell =>
               NdArray (nd_shape hist) (nd_fill hist)
                 (<[cell := (default (nd_fill hist) (nd_cells hist !! cell) + xw.2)%Q]>
                    (nd_cells hist))
           | None => hist
           end)
        (np_full (map (λ edges, Z.of_nat (length edges) - 1) bins) 0%Q)
        (zip sample weights).

(** [itertools.permutations(pool, r)] for a pool of distinct elements. *)
Fixpoint permutations (pool : list nat) (r : nat) : list (list nat) :=
  match r with
  | O => [[]]
  | S r' =>
      flat_map (λ x, map (cons x)
                         (permutations (filter (λ y, y ≠ x) pool) r')) pool
  end.

(** ** The class [SkyDictionary] *)

Record SkyDictionary : Type := {
  detector_names : list string;
  nsky : Z;
  f_sampling : Z;
  seed : Z;
  sky_samples : list Q * list Q;                      (* 'lat', 'lon' *)
  fplus_fcross_0 : list (list (list Q));              (* (nsky, n_det, 2) *)
  geocenter_delay_first_det : list Q;                 (* (nsky,) *)
  delays : list (list Q);                             (* (n_det - 1, nsky) *)
  delays2inds_map : pydict (list Z) (list nat);
  _min_delay : list Z;
  _max_delay : list Z;
  delays_bounds : pydict (list nat) (Z * Z);
  delays_prior : pydict (list nat) (ndarray Q);
  _ind_generators : ndarray nat;                      (* references into the heap *)
  _sky_prior : ndarray Q
}.

(** Arguments of the constructor. *)
Record init_args : Type := {
  arg_detector_names : list string;
  arg_f_sampling : Z;
  arg_nsky : Z;
  arg_seed : Z
}.

(** What the external collaborators return to the constructor:
    [_create_sky_samples()] (a Halton sequence mapped to the sphere),
    [gw_utils.get_fplus_fcross_0] and [gw_utils.get_geocenter_delays]. *)
Record externals : Type := {
  ext_sky_samples : list Q * list Q;
  ext_fplus_fcross_0 : list (list (list Q));          (* (nsky, n_det, 2) *)
  ext_geocenter_delays : list (list Q)                (* (n_det, nsky) *)
}.

(** *** [_discretize] *)

Definition _discretize (fs : Z) (dl : list (list Q)) : list (list Z) :=
  map (map (λ x, rint (x * inject_Z fs))) dl.

(** *** [_create_delays2inds_map] *)

(** The loop [for i_sample, delays_key in enumerate(delays_keys)]. *)
Definition build_index (delays_keys : list (list Z)) : pydict (list Z) (list nat) :=
  foldl (λ d ik, defaultdict_append d ik.2 ik.1) [] (enumerate delays_keys).

Definition _create_delays2inds_map (fs : Z) (dl : list (list Q))
    : pydict (list Z) (list nat) :=
  let delays_keys := zip_star (_discretize fs dl) in
  build_index delays_keys.

(** *** The constructor

    [__init__] assigns attributes one after the other and may raise in
    between.  The monad threads the log of the attributes assigned so far,
    which is what is left of the object when the constructor raises. *)

Definition Init (A : Type) : Type := list string → list string * result A.

#[export] Instance Init_ret : MRet Init := λ A a log, (log, Ok a).
#[export] Instance Init_bind : MBind Init := λ A B f m log,
  match m log with
  | (log', Ok a) => f a log'
  | (log', Raise e) => (log', Raise e)
  end.

Definition assign (attr : string) : Init unit := λ log, (log ++ [attr], Ok tt).
Definition lift {A} (r : result A) : Init A := λ log, (log, r).

(** [a[j]] on the first axis of a 2-D array, for [j >= 0]. *)
Definition row_get {A} (a : list (list A)) (j : nat) : result (list A) :=
  match a !! j with
  | Some r => Ok r
  | None => Raise IndexError
  end.

(** [rows - row]: the row is subtracted from every row. *)
Definition rows_minus (rows : list (list Q)) (row : list Q) : list (list Q) :=
  map (λ r, zip_with Qminus r row) rows.

(** The value written into [_sky_prior] for a bucket of [k] samples:
    [f_sampling ** (n_det - 1) * k / nsky]. *)
Definition prior_value (fs : Z) (n_det : nat) (n_sky : Z) (k : nat) : result Q :=
  if decide (n_sky = 0) then Raise ZeroDivisionError
  else Ok (inject_Z (fs ^ (Z.of_nat n_det - 1) * Z.of_nat k) / inject_Z n_sky)%Q.

(** The two loops over [delays2inds_map.items()] that fill the dense
    arrays. *)
Definition fill_ind_generators (shape : list Z) (d2i : pydict (list Z) (list nat))
    : result (ndarray nat * heap) :=
  foldM (λ st item,
           a ← nd_set st.1 item.1 (length st.2);
           Ok (a, st.2 ++ [Cycle item.2 O]))
        (np_full shape O, [EmptyIter]) d2i.

Definition fill_sky_prior (fs : Z) (n_det : nat) (n_sky : Z) (shape : list Z)
    (d2i : pydict (list Z) (list nat)) : result (ndarray Q) :=
  foldM (λ a item,
           v ← prior_value fs n_det n_sky (length item.2);
           nd_set a item.1 v)
        (np_full shape 0%Q) d2i.

Section Construction.

(** The square root of [np.linalg.norm]. *)
Variable sqrtQ : Q → Q.

(** [np.linalg.norm(a, axis=(1, 2))]: the Frobenius norm of every
    [a[i]]. *)
Definition norm_axis12 (a : list (list (list Q))) : list Q :=
  map (λ m, sqrtQ (foldr Qplus 0%Q (map (λ x, x * x)%Q (concat m)))) a.

(** [weights], computed once before the loop over the permutations. *)
Definition antenna_weights (fpfc : list (list (list Q))) : list Q :=
  map (λ x, x ^ 3)%Q (norm_axis12 fpfc).

(** The orders the double loop runs through. *)
Definition detector_orders (n_det : nat) : list (list nat) :=
  flat_map (permutations (seq 0 n_det)) (seq 2 (n_det - 1)).

(** [pairwise_delays] of one permutation. *)
Definition pairwise_delays_of (fs : Z) (g : list (list Q)) (order : list nat)
    : result (list (list Z)) :=
  rows ← mapR (row_get g) (drop 1 order);
  r0 ← row_get g (default O (head order));
  Ok (_discretize fs (rows_minus rows r0)).

(** [bins] of one permutation: edges at the half-integers from
    [min - 1/2] to [max + 1/2] along every axis. *)
Definition half_integer_bins (pairwise : list (list Z)) : result (list (list Q)) :=
  los ← mapR np_min pairwise;
  his ← mapR np_max pairwise;
  Ok (zip_with (λ lo hi, map (λ z, inject_Z z + (1 # 2))%Q
                             (seqZ (lo - 1) ((hi + 1) - (lo - 1))))
               los his).

(** One turn of the loop over the permutations. *)
Definition delays_prior_step (fs : Z) (g : list (list Q)) (weights : list Q)
    (st : pydict (list nat) (Z * Z) * pydict (list nat) (ndarray Q))
    (order : list nat)
    : result (pydict (list nat) (Z * Z) * pydict (list nat) (ndarray Q)) :=
  pairwise ← pairwise_delays_of fs g order;
  bins ← half_integer_bins pairwise;
  let prior := dict_set st.2 order (histogramdd (zip_star pairwise) weights bins) in
  if decide (length order = 2%nat) then
    lo ← np_min (concat pairwise);
    hi ← np_max (concat pairwise);
    Ok (dict_set st.1 order (lo, hi), prior)
  else Ok (st.1, prior).

Definition init (a : init_args) (e : externals) : Init (SkyDictionary * heap) :=
  let names := arg_detector_names a in
  let fs := arg_f_sampling a in
  let n_det := length names in
  _ ← assign "detector_names";
  _ ← assign "nsky";
  _ ← assign "f_sampling";
  _ ← assign "seed";
  _ ← assign "_rng";
  _ ← assign "sky_samples";
  let fpfc := ext_fplus_fcross_0 e in
  _ ← assign "fplus_fcross_0";
  let geocenter_delays := ext_geocenter_delays e in
  g0 ← lift (row_get geocenter_delays 0);
  _ ← assign "geocenter_delay_first_det";
  let dl := rows_minus (drop 1 geocenter_delays) g0 in
  _ ← assign "delays";
  let d2i := _create_delays2inds_map fs dl in
  _ ← assign "delays2inds_map";
  let discrete_delays := map fst d2i in
  mn ← lift (np_min_axis0 discrete_delays);
  _ ← assign "_min_delay";
  mx ← lift (np_max_axis0 discrete_delays);
  _ ← assign "_max_delay";
  _ ← assign "delays_bounds";
  _ ← assign "delays_prior";
  let weights := antenna_weights fpfc in
  tables ← lift (foldM (delays_prior_step fs geocenter_delays weights)
                       ([], []) (detector_orders n_det));
  let shape := zip_with (λ M m, M - m + 1) mx mn in
  _ ← assign "_ind_generators";
  gens ← lift (fill_ind_generators shape d2i);
  _ ← assign "_sky_prior";
  prior ← lift (fill_sky_prior fs n_det (arg_nsky a) shape d2i);
  mret ({| detector_names := names;
           nsky := arg_nsky a;
           f_sampling := fs;
           seed := arg_seed a;
           sky_samples := ext_sky_samples e;
           fplus_fcross_0 := fpfc;
           geocenter_delay_first_det := g0;
           delays := dl;
           delays2inds_map := d2i;
           _min_delay := mn;
           _max_delay := mx;
           delays_bounds := tables.1;
           delays_prior := tables.2;
           _ind_generators := gens.1;
           _sky_prior := prior |}, gens.2).

(** Running the constructor on a fresh object. *)
Definition construct (a : init_args) (e : externals)
    : list string * result (SkyDictionary * heap) :=
  init a e [].

End Construction.

(** *** [get_sky_inds_and_prior] *)

(** Everything one call computes: the three returned arrays, the
    references handed to [next], whether a [StopIteration] ended the
    collection, and the heap after the call. *)
Record query_run : Type := {
  run_sky_inds : list nat;
  run_sky_prior : list Q;
  run_physical_mask : list bool;
  run_generators : list nat;
  run_stopped : bool;
  run_heap : heap
}.

Definition positive (x : Q) : bool := bool_decide (0 < Qnum x).

Definition get_sky_inds_and_prior_run (s : SkyDictionary) (h : heap)
    (dl : list (list Z)) : result query_run :=
  let dT := zip_star dl in
  (* First mask: are individual delays plausible? *)
  let physical_mask :=
    map (λ q, forallb id
                (zip_with andb
                   (zip_with (λ x m, bool_decide (m ≤ x)) q (_min_delay s))
                   (zip_with (λ x M, bool_decide (x ≤ M)) q (_max_delay s)))) dT in
  (* Submask: are there sky samples with the correct delays? *)
  sky_prior ← nd_take (_sky_prior s) (map (mask_select physical_mask) dl);
  let submask := map positive sky_prior in
  let physical_mask := mask_refine physical_mask submask in
  let sky_prior := mask_select submask sky_prior in
  (* Generate sky samples for the physical delays *)
  generators ← nd_take (_ind_generators s) (map (mask_select physical_mask) dl);
  let '(sky_inds, h', stopped) := fromiter_map_next h generators in
  Ok {| run_sky_inds := sky_inds;
        run_sky_prior := sky_prior;
        run_physical_mask := physical_mask;
        run_generators := generators;
        run_stopped := stopped;
        run_heap := h' |}.

(** The method itself: the returned triple and the heap it leaves. *)
Definition get_sky_inds_and_prior (s : SkyDictionary) (h : heap)
    (dl : list (list Z)) : result ((list nat * list Q * list bool) * heap) :=
  r ← get_sky_inds_and_prior_run s h dl;
  Ok ((run_sky_inds r, run_sky_prior r, run_physical_mask r), run_heap r).

(** A sequence of calls on one object: the heap left by a call is the heap
    the next call starts from. *)
Fixpoint run_calls (s : SkyDictionary) (h : heap) (calls : list (list (list Z)))
    : result (list (list nat * list Q * list bool) * heap) :=
  match calls with
  | [] => Ok ([], h)
  | dl :: calls' =>
      r ← get_sky_inds_and_prior s h dl;
      rs ← run_calls s r.2 calls';
      Ok (r.1 :: rs.1, rs.2)
  end.

(** The heaps an object can be in: the one its constructor left, and the
    one any call leaves from a reachable one. *)
Inductive reachable (s : SkyDictionary) (h0 : heap) : heap → Prop :=
  | reachable_init : reachable s h0 h0
  | reachable_call h dl out h' :
      reachable s h0 h →
      get_sky_inds_and_prior s h dl = Ok (out, h') →
      reachable s h0 h'.

(** *** [resample_timeseries]

    The data array, the window specification, [scipy.signal.get_window]
    and [scipy.signal.resample] are external; the sample positions
    [times] and the control flow are the method's own. *)

(** [np.isclose(a, b)] with numpy's default tolerances
    [|a - b| <= atol + rtol * |b|], [rtol = 1e-5], [atol = 1e-8]. *)
Definition isclose (a b : Q) : bool :=
  Qle_bool (Qabs (a - b)) ((1 # 100000000) + (1 # 100000) * Qabs b)%Q.

(** [int(x)]: truncation towards zero. *)
Definition int_of_Q (x : Q) : Z := Z.quot (Qnum x) (Z.pos (Qden x)).

(** [xs[j]] for a constant [j >= 0]. *)
Definition item {A} (xs : list A) (j : nat) : result A :=
  match xs !! j with
  | Some x => Ok x
  | None => Raise IndexError
  end.

Definition incommensurate : exn :=
  ValueError "`times` is incommensurate with `f_sampling`.".

Section Resampling.

Variable timeseries_t : Type.
Variable window_t : Type.
(** [timeseries.shape] *)
Variable ts_shape : timeseries_t → list nat.
(** [scipy.signal.get_window(window, n)] *)
Variable get_window : window_t → nat → result (list Q).
(** [timeseries * w.reshape(shape)], the window laid along [axis] *)
Variable times_window : timeseries_t → Z → list Q → timeseries_t.
(** [scipy.signal.resample(timeseries, num, times, axis=axis)] *)
Variable resample : timeseries_t → Z → list Q → Z → result (timeseries_t * list Q).

(** The [if window:] block; [None] stands for a false [window]. *)
Definition apply_window (timeseries : timeseries_t) (axis : Z)
    (window : option window_t) : result timeseries_t :=
  match window with
  | None => Ok timeseries
  | Some w =>
      let shape := ts_shape timeseries in
      ax ← normalize_index (Z.of_nat (length shape)) axis;
      n ← item shape (Z.to_nat ax);
      win ← get_window w n;
      Ok (times_window timeseries ax win)
  end.

Definition resample_timeseries (fs : Z) (timeseries : timeseries_t)
    (times : list Q) (axis : Z) (window : option window_t)
    : result (timeseries_t * list Q) :=
  timeseries ← apply_window timeseries axis window;
  t1 ← item times 1;
  t0 ← item times 0;
  let fs_ratio := (inject_Z fs * (t1 - t0))%Q in
  if Qeq_bool fs_ratio 1 then Ok (timeseries, times)
  else
    r ← resample timeseries
          (int_of_Q (inject_Z (Z.of_nat (length times)) * fs_ratio)) times axis;
    period ← (if decide (fs = 0) then Raise ZeroDivisionError
              else Ok (1 / inject_Z fs)%Q);
    t1' ← item r.2 1;
    t0' ← item r.2 0;
    if isclose period (t1' - t0')%Q then Ok r
    else Raise incommensurate.

End Resampling.

Arguments apply_window {timeseries_t window_t} _ _ _ _ _ _.
Arguments resample_timeseries {timeseries_t window_t} _ _ _ _ _ _ _ _ _.

(** ** Notions the properties are stated with *)

(** The delay vector of query (or sample) [j] of an array with one row per
    delay dimension. *)
Definition column {A} (d : A) (rows : list (list A)) (j : nat) : list A :=
  map (λ r, nth j r d) rows.

(** Every component of [key] lies in the elementwise range [[mn, mx]]. *)
Definition within (mn mx key : list Z) : Prop :=
  Forall2 Z.le mn key ∧ Forall2 Z.le key mx.

(** The (boolean) range test of the first mask. *)
Definition in_range (mn mx q : list Z) : bool :=
  forallb id
    (zip_with andb
       (zip_with (λ x m, bool_decide (m ≤ x)) q mn)
       (zip_with (λ x M, bool_decide (x ≤ M)) q mx)).

(** The shape of the dense arrays. *)
Definition dense_shape (mn mx : list Z) : list Z :=
  zip_with (λ M m, M - m + 1) mx mn.

(** A Delay Range whose keys are valid numpy indices of the dense arrays:
    no minimum above 0, no maximum below -1. *)
Definition indexable (mn mx : list Z) : Prop :=
  Forall (λ m, m ≤ 0) mn ∧ Forall (λ M, -1 ≤ M) mx.

(** The discretized relative delay vectors of the samples, in sample
    order. *)
Definition sample_keys (s : SkyDictionary) : list (list Z) :=
  zip_star (_discretize (f_sampling s) (delays s)).

(** The density of a bucket of [k] samples. *)
Definition bucket_density (fs : Z) (n_det : nat) (n_sky : Z) (k : nat) : Q :=
  (inject_Z (fs ^ (Z.of_nat n_det - 1) * Z.of_nat k) / inject_Z n_sky)%Q.

Definition count_true (mask : list bool) : nat :=
  length (filter (λ b, b = true) mask).

(** [n] queries that all carry [key]. *)
Definition same_key_queries (key : list Z) (n : nat) : list (list Z) :=
  map (replicate n) key.

(** The shape the external arrays have for [n_det] detectors and [nsky]
    samples. *)
Definition externals_shaped (a : init_args) (e : externals) : Prop :=
  length (ext_geocenter_delays e) = length (arg_detector_names a) ∧
  Forall (λ row, Z.of_nat (length row) = arg_nsky a) (ext_geocenter_delays e).

(** The weight a sample would get from the coefficients of the detectors
    of one permutation alone. *)
Definition subset_weights (sqrtQ : Q → Q) (fpfc : list (list (list Q)))
    (order : list nat) : list Q :=
  antenna_weights sqrtQ
    (map (λ m, omap (λ j, m !! j) order) fpfc).

(** ** Small networks used as examples *)

(** A square root that is exact on perfect squares. *)
Definition isqrtQ (q : Q) : Q := inject_Z (Z.sqrt (Qfloor q)).

Module Examples.

(** Two detectors, four samples with discretized delays -1, 0, 0, 1. *)
Definition args_HL : init_args :=
  {| arg_detector_names := ["H"; "L"]%string;
     arg_f_sampling := 1; arg_nsky := 4; arg_seed := 0 |}.

Definition ext_HL : externals :=
  {| ext_sky_samples := ([0; 0; 0; 0], [0; 0; 0; 0])%Q;
     ext_fplus_fcross_0 :=
       [ [[1; 0]; [0; 0]]; [[1; 0]; [0; 0]]; [[1; 0]; [0; 0]]; [[1; 0]; [0; 0]] ]%Q;
     ext_geocenter_delays := [ [0; 0; 0; 0]; [-1 # 1; 0; 0; 1] ]%Q |}.

(** The object and heap a construction returned (an empty object if it
    raised). *)
Definition built (r : list string * result (SkyDictionary * heap))
    : SkyDictionary * heap :=
  match r.2 with
  | Ok sh => sh
  | Raise _ =>
      ({| detector_names := []; nsky := 0; f_sampling := 0; seed := 0;
          sky_samples := ([], []); fplus_fcross_0 := [];
          geocenter_delay_first_det := []; delays := [];
          delays2inds_map := []; _min_delay := []; _max_delay := [];
          delays_bounds := []; delays_prior := [];
          _ind_generators := np_full [] O; _sky_prior := np_full [] 0%Q |}, [])
  end.

Definition built_HL : SkyDictionary * heap :=
  Eval vm_compute in built (construct isqrtQ args_HL ext_HL).

(** Three detectors, one sample; the third detector is the sensitive
    one. *)
Definition args_HLV : init_args :=
  {| arg_detector_names := ["H"; "L"; "V"]%string;
     arg_f_sampling := 1; arg_nsky := 1; arg_seed := 0 |}.

Definition ext_HLV : externals :=
  {| ext_sky_samples := ([0], [0])%Q;
     ext_fplus_fcross_0 := [ [[3 # 1; 0]; [0; 0]; [4 # 1; 0]] ]%Q;
     ext_geocenter_delays := [ [0]; [0]; [0] ]%Q |}.

Definition built_HLV : SkyDictionary * heap :=
  Eval vm_compute in built (construct isqrtQ args_HLV ext_HLV).

(** One detector. *)
Definition args_H : init_args :=
  {| arg_detector_names := ["H"]%string;
     arg_f_sampling := 1; arg_nsky := 1; arg_seed := 0 |}.

Definition ext_H : externals :=
  {| ext_sky_samples := ([0], [0])%Q;
     ext_fplus_fcross_0 := [ [[1; 0]] ]%Q;
     ext_geocenter_delays := [ [0] ]%Q |}.

(** Two detectors, no sample. *)
Definition args_HL_empty : init_args :=
  {| arg_detector_names := ["H"; "L"]%string;
     arg_f_sampling := 1; arg_nsky := 0; arg_seed := 0 |}.

Definition ext_HL_empty : externals :=
  {| ext_sky_samples := ([], []);
     ext_fplus_fcross_0 := [];
     ext_geocenter_delays := [ []; [] ] |}.

End Examples.

(** The samples whose key is [key], in sample order. *)
Definition positions (key : list Z) (keys : list (list Z)) : list nat :=
  filter (λ i, keys !! i = Some key) (seq 0 (length keys)).

(** The sizes of the buckets of a delay index, in item order. *)
Definition bucket_sizes (d : pydict (list Z) (list nat)) : list nat :=
  map (λ item, length item.2) d.

(** A loop of writes [for key, v in items: a[key] = v]. *)
Definition writes {V} (a : ndarray V) (items : pydict (list Z) V)
    : result (ndarray V) :=
  foldM (λ a item, nd_set a item.1 item.2) a items.

(** The attributes of a fully constructed object, in assignment order. *)
Definition all_attributes : list string :=
  ["detector_names"; "nsky"; "f_sampling"; "seed"; "_rng"; "sky_samples";
   "fplus_fcross_0"; "geocenter_delay_first_det"; "delays";
   "delays2inds_map"; "_min_delay"; "_max_delay"; "delays_bounds";
   "delays_prior"; "_ind_generators"; "_sky_prior"]%string.

(** What a construction that returns has computed. *)
Record constructed (sqrtQ : Q → Q) (a : init_args) (e : externals)
    (s : SkyDictionary) (h : heap) : Prop := {
  c_names : detector_names s = arg_detector_names a;
  c_nsky : nsky s = arg_nsky a;
  c_fs : f_sampling s = arg_f_sampling a;
  c_fpfc : fplus_fcross_0 s = ext_fplus_fcross_0 e;
  c_g0 : row_get (ext_geocenter_delays e) 0 = Ok (geocenter_delay_first_det s);
  c_delays : delays s = rows_minus (drop 1 (ext_geocenter_delays e))
                                   (geocenter_delay_first_det s);
  c_d2i : delays2inds_map s = _create_delays2inds_map (f_sampling s) (delays s);
  c_min : np_min_axis0 (map fst (delays2inds_map s)) = Ok (_min_delay s);
  c_max : np_max_axis0 (map fst (delays2inds_map s)) = Ok (_max_delay s);
  c_tables :
    foldM (delays_prior_step (f_sampling s) (ext_geocenter_delays e)
             (antenna_weights sqrtQ (fplus_fcross_0 s)))
          ([], []) (detector_orders (length (detector_names s)))
    = Ok (delays_bounds s, delays_prior s);
  c_gens :
    fill_ind_generators (dense_shape (_min_delay s) (_max_delay s))
      (delays2inds_map s) = Ok (_ind_generators s, h);
  c_prior :
    fill_sky_prior (f_sampling s) (length (detector_names s)) (nsky s)
      (dense_shape (_min_delay s) (_max_delay s)) (delays2inds_map s)
    = Ok (_sky_prior s)
}.

(** The value of the Dense Prior Array a key of the range should hold. *)
Definition dense_value (s : SkyDictionary) (key : list Z) : Q :=
  match dict_get (delays2inds_map s) key with
  | Some b => bucket_density (f_sampling s) (length (detector_names s)) (nsky s) (length b)
  | None => 0%Q
  end.

(** The reference the Cyclic Sample Provider array should hold for a key
    of the range: the cursor of the key's bucket, or the shared exhausted
    iterator. *)
Definition dense_generator (s : SkyDictionary) (key : list Z) : nat :=
  match dict_index (delays2inds_map s) key with
  | Some i => S i
  | None => O
  end.

(** The heap of an object: the exhausted iterator, then one cursor per
    bucket, each somewhere in its bucket. *)
Definition heap_ok (s : SkyDictionary) (h : heap) : Prop :=
  ∃ cursors, h = EmptyIter :: cursors ∧
    Forall2 (λ item it, ∃ pos, it = Cycle item.2 pos ∧ (pos < length item.2)%nat)
            (delays2inds_map s) cursors.

(** Whether a query with delay vector [key] survives both filters. *)
Definition survives (s : SkyDictionary) (key : list Z) : bool :=
  in_range (_min_delay s) (_max_delay s) key && positive (dense_value s key).

(** The sum of a list of rationals. *)
Definition Qsum (l : list Q) : Q := foldr Qplus 0%Q l.

(** [bucket_size / nsky] for every populated key. *)
Definition bucket_fractions (s : SkyDictionary) : list Q :=
  map (λ k, inject_Z (Z.of_nat k) / inject_Z (nsky s))%Q
      (bucket_sizes (delays2inds_map s)).

(** The cell numpy addresses for a key that is a valid index: a
    non-negative component is taken as it is, a negative one counts from
    the end of its axis. *)
Definition numpy_cell (shape key : list Z) : list Z :=
  zip_with (λ k size, if decide (0 ≤ k) then k else k + size) key shape.

(** The cell an offset addressing would use: the key minus the recorded
    minimum. *)
Definition offset_cell (mn key : list Z) : list Z :=
  zip_with Z.sub key mn.

(** The histogram the loop stores for one permutation when the samples
    carry the weights [weights]. *)
Definition delays_histogram (fs : Z) (g : list (list Q)) (weights : list Q)
    (order : list nat) : result (ndarray Q) :=
  pairwise ← pairwise_delays_of fs g order;
  bins ← half_integer_bins pairwise;
  Ok (histogramdd (zip_star pairwise) weights bins).

(** The Relative Delay Vectors: the delays of every later detector
    relative to the first, one row per later detector. *)
Definition relative_delays (e : externals) : list (list Q) :=
  match ext_geocenter_delays e with
  | g0 :: rest => rows_minus rest g0
  | [] => []
  end.

(** A row of discretized delays that reaches down to 0 and up to -1: some
    sample has a delay [<= 0] and some sample has a delay [>= -1]. *)
Definition straddles_zero (row : list Z) : Prop :=
  (∃ x, x ∈ row ∧ x ≤ 0) ∧ (∃ x, x ∈ row ∧ -1 ≤ x).

(** The attributes assigned before the Delay Range is computed. *)
Definition attributes_before_range : list string :=
  ["detector_names"; "nsky"; "f_sampling"; "seed"; "_rng"; "sky_samples";
   "fplus_fcross_0"; "geocenter_delay_first_det"; "delays";
   "delays2inds_map"]%string.

(** Stand-ins for the external resampling primitives, used in examples:
    one-dimensional data, a rectangular window, and a resampler that
    picks the nearest earlier sample on the time grid
    [arange(num) * (t[1] - t[0]) * n / num + t[0]]. *)
Module ResampleExamples.

Definition ts_shape (ts : list Q) : list nat := [length ts].

Definition get_window (w : unit) (n : nat) : result (list Q) :=
  Ok (replicate n 1%Q).

Definition times_window (ts : list Q) (ax : Z) (w : list Q) : list Q :=
  zip_with Qmult ts w.

Definition resample (ts : list Q) (num : Z) (t : list Q) (ax : Z)
    : result (list Q * list Q) :=
  if decide (num ≤ 0) then Raise (ValueError "num must be positive")
  else
    match t with
    | t0 :: t1 :: _ =>
        let n := Z.of_nat (length ts) in
        Ok (map (λ i, nth (Z.to_nat (i * n / num)) ts 0%Q) (seqZ 0 num),
            map (λ i, inject_Z i * (t1 - t0) * inject_Z n / inject_Z num + t0)%Q
                (seqZ 0 num))
    | _ => Raise IndexError
    end.

End ResampleExamples.

(** The attributes assigned before the first delay is computed. *)
Definition attributes_before_delays : list string :=
  ["detector_names"; "nsky"; "f_sampling"; "seed"; "_rng"; "sky_samples";
   "fplus_fcross_0"]%string.

(** The attributes assigned when the Cyclic Sample Provider array is being
    filled. *)
Definition attributes_before_prior : list string :=
  ["detector_names"; "nsky"; "f_sampling"; "seed"; "_rng"; "sky_samples";
   "fplus_fcross_0"; "geocenter_delay_first_det"; "delays";
   "delays2inds_map"; "_min_delay"; "_max_delay"; "delays_bounds";
   "delays_prior"; "_ind_generators"]%string.

(** The bounds the loop stores for one pair of detectors. *)
Definition pairwise_bounds (fs : Z) (g : list (list Q)) (order : list nat)
    : result (Z * Z) :=
  pairwise ← pairwise_delays_of fs g order;
  lo ← np_min (concat pairwise);
  hi ← np_max (concat pairwise);
  Ok (lo, hi).

(** The discretized delays from detector [i] to detector [j], one per
    sample. *)
Definition pair_delays (fs : Z) (gi gj : list Q) : list Z :=
  map (λ x, rint (x * inject_Z fs)) (zip_with Qminus gj gi).

(** A three-detector network sampled at 2 Hz whose delays are not
    symmetric about zero: the discretized delays to the first detector
    are (-1, 0), (0, -2) and (2, 0). *)
Module BoundsExamples.

Definition args : init_args :=
  {| arg_detector_names := ["H"; "L"; "V"]%string;
     arg_f_sampling := 2; arg_nsky := 3; arg_seed := 0 |}.

Definition ext : externals :=
  {| ext_sky_samples := ([0; 0; 0], [0; 0; 0])%Q;
     ext_fplus_fcross_0 :=
       [ [[1; 0]; [0; 0]; [0; 0]]; [[0; 0]; [2 # 1; 0]; [0; 0]];
         [[0; 0]; [0; 0]; [3 # 1; 0]] ]%Q;
     ext_geocenter_delays :=
       [ [0; 0; 0]; [-1 # 2; 0; 1]; [1 # 4; -1 # 1; 0] ]%Q |}.

Definition engine : SkyDictionary * heap :=
  Eval vm_compute in Examples.built (construct isqrtQ args ext).

End BoundsExamples.

(** The total weight of the samples whose delay vector is [d]. *)
Definition weight_at (sample : list (list Z)) (weights : list Q) (d : list Z) : Q :=
  Qsum (map snd (filter (λ xw, xw.1 = d) (zip sample weights))).




(** * Properties *)

(** ** Fallible computations *)

Lemma bind_Ok_inv {A B} (m : result A) (f : A → result B) (b : B) :
  m ≫= f = Ok b → ∃ a, m = Ok a ∧ f a = Ok b.
Proof. destruct m as [a|e]; simpl; [eauto | discriminate]. Qed.

Lemma map_fmap {A B} (f : A → B) (l : list A) : map f l = f <$> l.
Proof. induction l as [|x l IH]; [done|]. cbn. by f_equal. Qed.

Lemma mapR_Ok_fmap {A B} (f : A → result B) (g : A → B) (xs : list A) :
  Forall (λ x, f x = Ok (g x)) xs → mapR f xs = Ok (map g xs).
Proof.
  induction 1 as [|x xs Hx _ IH]; simpl; [done|].
  by rewrite Hx, IH.
Qed.

(** ** Columns, masks *)

Lemma zip_with_cons_map_seq {A} (d : A) (r : list A) (f : nat → list A) (n : nat) :
  length r = n →
  zip_with cons r (map f (seq 0 n)) = map (λ j, nth j r d :: f j) (seq 0 n).
Proof.
  revert f n; induction r as [|x r IH]; intros f [|n] Hn; simplify_eq/=; [done|].
  f_equal. rewrite <- !seq_shift, !map_map. by apply IH.
Qed.

Lemma map_singleton_seq {A} (d : A) (r : list A) :
  map (λ x, [x]) r = map (λ j, [nth j r d]) (seq 0 (length r)).
Proof.
  induction r as [|x r IH]; simpl; [done|].
  f_equal. by rewrite <- seq_shift, map_map.
Qed.

(** Unpacked [zip] of a rectangular array with at least one row lists its
    columns. *)
Lemma zip_star_columns {A} (d : A) (rows : list (list A)) (n : nat) :
  rows ≠ [] → Forall (λ r, length r = n) rows →
  zip_star rows = map (column d rows) (seq 0 n).
Proof.
  induction rows as [|r rows IH]; [done|]. intros _ Hall.
  apply Forall_cons in Hall as [Hr Hall].
  destruct rows as [|r' rows'].
  - simpl. subst n. apply map_singleton_seq.
  - change (zip_star (r :: r' :: rows'))
      with (zip_with cons r (zip_star (r' :: rows'))).
    rewrite IH by done. by apply zip_with_cons_map_seq.
Qed.

Lemma zip_star_length {A} (rows : list (list A)) (n : nat) :
  rows ≠ [] → Forall (λ r, length r = n) rows → length (zip_star rows) = n.
Proof.
  intros Hne Hall. destruct rows as [|r rows]; [done|].
  destruct r as [|x r].
  - apply Forall_cons in Hall as [<- _]. destruct rows; done.
  - rewrite (zip_star_columns x _ n) by done. by rewrite length_map, length_seq.
Qed.

(** Every tuple of an unpacked [zip] has one entry per row. *)
Lemma zip_star_tuple_length {A} (rows : list (list A)) (t : list A) :
  t ∈ zip_star rows → length t = length rows.
Proof.
  revert t; induction rows as [|r rows IH]; intros t; [by intros ?%elem_of_nil|].
  destruct rows as [|r' rows'].
  - simpl. rewrite map_fmap. intros (x & -> & _)%list_elem_of_fmap. done.
  - change (zip_star (r :: r' :: rows'))
      with (zip_with cons r (zip_star (r' :: rows'))).
    intros (x & t' & -> & _ & Ht')%elem_of_zip_with.
    simpl. f_equal. by apply IH.
Qed.

Lemma mask_select_map {A B} (f : A → B) (m : list bool) (l : list A) :
  mask_select m (map f l) = map f (mask_select m l).
Proof.
  revert l; induction m as [|b m IH]; intros [|x l]; simpl; try done.
  destruct b; simpl; by rewrite IH.
Qed.

Lemma mask_select_zip_with {A B C} (f : A → B → C) (m : list bool)
    (l1 : list A) (l2 : list B) :
  mask_select m (zip_with f l1 l2)
  = zip_with f (mask_select m l1) (mask_select m l2).
Proof.
  revert l1 l2; induction m as [|b m IH]; intros [|x l1] [|y l2]; simpl; try done.
  all: try (destruct b; simpl; try rewrite IH; try done).
  all: by destruct (mask_select _ _).
Qed.

(** Selecting columns row by row is selecting them in the transposed
    array. *)
Lemma zip_star_mask_select {A} (m : list bool) (rows : list (list A)) :
  zip_star (map (mask_select m) rows) = mask_select m (zip_star rows).
Proof.
  induction rows as [|r rows IH]; simpl.
  - by destruct m.
  - destruct rows as [|r' rows'].
    + simpl. by rewrite mask_select_map.
    + change (zip_star (r' :: rows')) with (zip_star (r' :: rows')) in *.
      simpl map in *. rewrite IH. by rewrite mask_select_zip_with.
Qed.

Lemma mask_select_length {A} (p : A → bool) (l : list A) :
  length (mask_select (map p l) l) = count_true (map p l).
Proof.
  unfold count_true. induction l as [|x l IH]; simpl; [done|].
  rewrite filter_cons. destruct (p x); simpl; [by rewrite IH|done].
Qed.

Lemma mask_refine_spec {A} (p q : A → bool) (l : list A) :
  mask_refine (map p l) (map q (mask_select (map p l) l))
  = map (λ x, p x && q x) l.
Proof.
  induction l as [|x l IH]; simpl; [done|].
  destruct (p x); simpl; by rewrite IH.
Qed.

Lemma mask_select_submask {A B} (p q : A → bool) (v : A → B) (l : list A) :
  mask_select (map q (mask_select (map p l) l))
              (map v (mask_select (map p l) l))
  = map v (mask_select (map (λ x, p x && q x) l) l).
Proof.
  induction l as [|x l IH]; simpl; [done|].
  destruct (p x); simpl; [|done].
  destruct (q x); simpl; by rewrite IH.
Qed.

(** ** Dictionaries *)

Section Dict.
Context {K V : Type} `{EqDecision K}.
Implicit Types (d : pydict K V) (k key : K).

Lemma dict_get_elem_of d key v : dict_get d key = Some v → (key, v) ∈ d.
Proof.
  induction d as [|[k v'] d IH]; simpl; [done|].
  case_decide as Hk; [intros [= <-]; rewrite Hk; left | right; auto].
Qed.

Lemma dict_get_None d key : dict_get d key = None ↔ key ∉ map fst d.
Proof.
  induction d as [|[k v'] d IH]; simpl.
  - split; [intros _ ?%elem_of_nil; done | done].
  - case_decide; subst.
    + split; [done | intros Hn; destruct Hn; left].
    + rewrite IH, not_elem_of_cons. split; [by intros ?; split | by intros [_ ?]].
Qed.

Lemma elem_of_dict_get d key v :
  NoDup (map fst d) → (key, v) ∈ d → dict_get d key = Some v.
Proof.
  induction d as [|[k v'] d IH]; simpl; [by intros _ ?%elem_of_nil|].
  intros [Hk Hd]%NoDup_cons [[= -> ->]|Hin]%elem_of_cons.
  - by rewrite decide_True.
  - case_decide; subst; [|by apply IH].
    destruct Hk. rewrite map_fmap. apply list_elem_of_fmap. by exists (key, v).
Qed.

Lemma dict_index_lookup d key v :
  dict_get d key = Some v →
  ∃ i, dict_index d key = Some i ∧ d !! i = Some (key, v).
Proof.
  induction d as [|[k v'] d IH]; simpl; [done|].
  case_decide; subst.
  - intros [= ->]. by exists O.
  - intros (i & -> & Hi)%IH. by exists (S i).
Qed.

End Dict.

Section DefaultDict.
Context {K A : Type} `{EqDecision K}.
Implicit Types (d : pydict K (list A)) (k key : K).

Lemma dict_get_append d k i key :
  dict_get (defaultdict_append d k i) key
  = if decide (k = key) then Some (default [] (dict_get d k) ++ [i])
    else dict_get d key.
Proof.
  induction d as [|[k' v] d IH]; simpl.
  - repeat case_decide; congruence.
  - destruct (decide (k' = k)) as [->|]; simpl.
    + repeat case_decide; simpl; congruence.
    + rewrite IH. repeat case_decide; congruence.
Qed.

Lemma keys_append d k i :
  map fst (defaultdict_append d k i)
  = if decide (k ∈ map fst d) then map fst d else map fst d ++ [k].
Proof.
  induction d as [|[k' v] d IH].
  - done.
  - cbn [defaultdict_append map fst].
    destruct (decide (k' = k)) as [->|Hne]; cbn [map fst].
    + rewrite decide_True; [done | left].
    + rewrite IH. destruct (decide (k ∈ map fst d)) as [Hin|Hin].
      * rewrite decide_True; [done | by right].
      * rewrite decide_False; [done|]. rewrite not_elem_of_cons. naive_solver.
Qed.

Lemma NoDup_keys_append d k i :
  NoDup (map fst d) → NoDup (map fst (defaultdict_append d k i)).
Proof.
  intros Hd. rewrite keys_append. case_decide; [done|].
  apply NoDup_app. split_and!; [done | | apply NoDup_singleton].
  intros x Hx ->%list_elem_of_singleton. done.
Qed.

Lemma sizes_append d k i :
  sum_list (map (λ item, length item.2) (defaultdict_append d k i))
  = S (sum_list (map (λ item, length item.2) d)).
Proof.
  induction d as [|[k' v] d IH]; simpl; [done|].
  case_decide; simpl; [rewrite length_app; simpl; lia | rewrite IH; lia].
Qed.

Lemma buckets_append_nonempty d k i :
  Forall (λ item, item.2 ≠ []) d →
  Forall (λ item, item.2 ≠ []) (defaultdict_append d k i).
Proof.
  induction 1 as [|[k' v] d Hv Hd IH]; simpl.
  - by repeat constructor.
  - case_decide; constructor; simpl in *; auto.
    by intros [_ ?]%app_eq_nil.
Qed.
End DefaultDict.

(** ** The delay index *)

Lemma enumerate_snoc {A} (l : list A) (x : A) :
  enumerate (l ++ [x]) = enumerate l ++ [(length l, x)].
Proof. unfold enumerate. rewrite imap_app. simpl. by rewrite Nat.add_0_r. Qed.

Lemma filter_ext_elem {A} (P Q : A → Prop) `{∀ x, Decision (P x)}
    `{∀ x, Decision (Q x)} (l : list A) :
  (∀ x, x ∈ l → P x ↔ Q x) → filter P l = filter Q l.
Proof.
  induction l as [|x l IH]; intros HPQ; [done|].
  rewrite !filter_cons.
  rewrite IH by (intros y Hy; apply HPQ; by right).
  destruct (decide (P x)) as [HP|HP], (decide (Q x)) as [HQ|HQ]; try done;
    destruct (HPQ x); try (by left); tauto.
Qed.

Lemma positions_snoc (key k : list Z) (keys : list (list Z)) :
  positions key (keys ++ [k])
  = positions key keys ++ (if decide (k = key) then [length keys] else []).
Proof.
  unfold positions. rewrite length_app. simpl.
  rewrite seq_app, filter_app. simpl. f_equal.
  - apply filter_ext_elem. intros i Hi%elem_of_seq.
    rewrite lookup_app_l by lia. done.
  - rewrite filter_cons, filter_nil.
    rewrite lookup_app_r, Nat.sub_diag by lia. simpl.
    repeat case_decide; congruence.
Qed.

Lemma build_index_snoc keys k :
  build_index (keys ++ [k]) = defaultdict_append (build_index keys) k (length keys).
Proof. unfold build_index. by rewrite enumerate_snoc, foldl_app. Qed.

(** The bucket of a key lists, in increasing order, the samples that have
    this key; keys without samples have no bucket. *)
Lemma build_index_get keys key :
  dict_get (build_index keys) key
  = if decide (positions key keys = []) then None else Some (positions key keys).
Proof.
  induction keys as [|k keys IH] using rev_ind; [done|].
  rewrite build_index_snoc, dict_get_append, positions_snoc.
  destruct (decide (k = key)) as [->|].
  - rewrite IH. rewrite (decide_False (P := _ ++ _ = [])).
    + by case_decide as Hp; [rewrite Hp|].
    + by intros [_ ?]%app_eq_nil.
  - by rewrite IH, app_nil_r.
Qed.

Lemma build_index_NoDup keys : NoDup (map fst (build_index keys)).
Proof.
  induction keys as [|k keys IH] using rev_ind; [constructor|].
  rewrite build_index_snoc. by apply NoDup_keys_append.
Qed.

Lemma build_index_nonempty keys :
  Forall (λ item, item.2 ≠ []) (build_index keys).
Proof.
  induction keys as [|k keys IH] using rev_ind; [constructor|].
  rewrite build_index_snoc. by apply buckets_append_nonempty.
Qed.

Lemma build_index_sizes keys :
  sum_list (bucket_sizes (build_index keys)) = length keys.
Proof.
  unfold bucket_sizes.
  induction keys as [|k keys IH] using rev_ind; [done|].
  rewrite build_index_snoc, sizes_append, IH, length_app. simpl. lia.
Qed.

Lemma elem_of_positions key keys i :
  i ∈ positions key keys ↔ keys !! i = Some key.
Proof.
  unfold positions. rewrite list_elem_of_filter, elem_of_seq.
  split; [by intros [? _]|]. intros Hi. split; [done|].
  apply lookup_lt_Some in Hi. lia.
Qed.

Lemma build_index_keys keys key :
  key ∈ map fst (build_index keys) ↔ key ∈ keys.
Proof.
  destruct (dict_get (build_index keys) key) as [b|] eqn:Hg.
  - split; intros _.
    + rewrite build_index_get in Hg. case_decide as Hp; [done|].
      destruct (positions key keys) as [|i p] eqn:Hpos; [done|].
      assert (i ∈ positions key keys) as Hi by (rewrite Hpos; left).
      apply elem_of_positions in Hi. by eapply list_elem_of_lookup_2.
    + apply dict_get_elem_of in Hg. rewrite map_fmap.
      apply list_elem_of_fmap. by exists (key, b).
  - pose proof Hg as Hn%dict_get_None. split; [done|].
    intros (i & Hi)%list_elem_of_lookup_1.
    rewrite build_index_get in Hg. case_decide as Hp; [|done].
    apply elem_of_positions in Hi. rewrite Hp in Hi. by apply elem_of_nil in Hi.
Qed.

(** ** The Delay Range *)

Section FoldExtremum.
Variable op : Z → Z → Z.
Variable R : Z → Z → Prop.
Hypothesis op_choice : ∀ a b, op a b = a ∨ op a b = b.
Hypothesis op_l : ∀ a b, R (op a b) a.
Hypothesis op_r : ∀ a b, R (op a b) b.
Hypothesis R_trans : ∀ a b c, R a b → R b c → R a c.
Hypothesis R_refl : ∀ a, R a a.

Lemma fold_extremum_length (rows : list (list Z)) (acc : list Z) :
  Forall (λ r, length r = length acc) rows →
  length (foldl (zip_with op) acc rows) = length acc.
Proof.
  revert acc; induction rows as [|r rows IH]; intros acc Hall; simpl; [done|].
  apply Forall_cons in Hall as [Hr Hall].
  rewrite IH.
  - rewrite length_zip_with; lia.
  - eapply Forall_impl; [exact Hall|]. simpl. intros.
    rewrite length_zip_with; lia.
Qed.

Lemma fold_extremum_bound (rows : list (list Z)) (acc : list Z) :
  Forall (λ r, length r = length acc) rows →
  ∀ row, row ∈ acc :: rows → Forall2 R (foldl (zip_with op) acc rows) row.
Proof.
  revert acc; induction rows as [|r rows IH]; intros acc Hall row Hrow; simpl.
  - apply list_elem_of_singleton in Hrow as ->. by apply Forall2_same_length_lookup_2;
      [|intros i x y ? ?; simplify_eq].
  - apply Forall_cons in Hall as [Hr Hall].
    assert (Forall (λ r0, length r0 = length (zip_with op acc r)) rows) as Hall'.
    { eapply Forall_impl; [exact Hall|]. simpl. intros.
      rewrite length_zip_with; lia. }
    assert (Forall2 R (zip_with op acc r) acc ∧ Forall2 R (zip_with op acc r) r)
      as [Hacc Hrr].
    { split; apply Forall2_same_length_lookup_2;
        try (rewrite length_zip_with; lia);
        intros i x y [a [b (-> & Ha & Hb)]]%lookup_zip_with_Some ?; simplify_eq; auto. }
    assert (∀ l1 l2 l3, Forall2 R l1 l2 → Forall2 R l2 l3 → Forall2 R l1 l3) as Htr.
    { intros l1 l2 l3 H12; revert l3; induction H12; intros l3 H23;
        inversion H23; subst; constructor; eauto. }
    apply elem_of_cons in Hrow as [->|[->|Hrow]%elem_of_cons].
    + eapply Htr; [|exact Hacc]. apply IH; [done | left].
    + eapply Htr; [|exact Hrr]. apply IH; [done | left].
    + apply IH; [done | by right].
Qed.

Lemma fold_extremum_attained (rows : list (list Z)) (acc : list Z) (j : nat) (x : Z) :
  Forall (λ r, length r = length acc) rows →
  foldl (zip_with op) acc rows !! j = Some x →
  ∃ row, row ∈ acc :: rows ∧ row !! j = Some x.
Proof.
  revert acc; induction rows as [|r rows IH]; intros acc Hall Hx; simpl in *.
  - exists acc. split; [left | done].
  - apply Forall_cons in Hall as [Hr Hall].
    destruct (IH (zip_with op acc r)) as (row & Hrow & Hj); [|done|].
    { eapply Forall_impl; [exact Hall|]. simpl. intros.
      rewrite length_zip_with; lia. }
    apply elem_of_cons in Hrow as [->|Hrow].
    + apply lookup_zip_with_Some in Hj as (a & b & -> & Ha & Hb).
      destruct (op_choice a b) as [->| ->].
      * exists acc. split; [left | done].
      * exists r. split; [right; left | done].
    + exists row. split; [by do 2 right | done].
Qed.
End FoldExtremum.

Lemma np_min_axis0_spec (keys : list (list Z)) (d : nat) (mn : list Z) :
  Forall (λ k, length k = d) keys →
  np_min_axis0 keys = Ok mn →
  length mn = d ∧
  (∀ key, key ∈ keys → Forall2 Z.le mn key) ∧
  (∀ j x, mn !! j = Some x → ∃ key, key ∈ keys ∧ key !! j = Some x).
Proof.
  destruct keys as [|r keys]; [done|]. simpl. intros Hall [= <-].
  apply Forall_cons in Hall as [Hr Hall].
  assert (Forall (λ k, length k = length r) keys) as Hall'.
  { eapply Forall_impl; [exact Hall|]. simpl. intros; lia. }
  split_and!.
  - rewrite fold_extremum_length; done.
  - intros key Hkey.
    apply (fold_extremum_bound Z.min Z.le); try done; intros; lia.
  - intros j x Hx.
    apply (fold_extremum_attained Z.min) in Hx; try done; intros; lia.
Qed.

Lemma np_max_axis0_spec (keys : list (list Z)) (d : nat) (mx : list Z) :
  Forall (λ k, length k = d) keys →
  np_max_axis0 keys = Ok mx →
  length mx = d ∧
  (∀ key, key ∈ keys → Forall2 Z.le key mx) ∧
  (∀ j x, mx !! j = Some x → ∃ key, key ∈ keys ∧ key !! j = Some x).
Proof.
  destruct keys as [|r keys]; [done|]. simpl. intros Hall [= <-].
  apply Forall_cons in Hall as [Hr Hall].
  assert (Forall (λ k, length k = length r) keys) as Hall'.
  { eapply Forall_impl; [exact Hall|]. simpl. intros; lia. }
  split_and!.
  - rewrite fold_extremum_length; done.
  - intros key Hkey. apply Forall2_flip.
    apply (fold_extremum_bound Z.max (λ a b, b ≤ a)); try done; intros; lia.
  - intros j x Hx.
    apply (fold_extremum_attained Z.max) in Hx; try done; intros; lia.
Qed.

(** ** Addressing the dense arrays *)

Lemma normalize_index_Ok (s k c : Z) :
  normalize_index s k = Ok c ↔
  (0 ≤ k < s ∧ c = k) ∨ (- s ≤ k < 0 ∧ c = k + s).
Proof.
  unfold normalize_index. repeat case_bool_decide; split;
    try (intros [= <-]); try (intros [[? ->]|[? ->]]); try done; try lia;
    try (f_equal; lia); auto.
Qed.

Lemma in_range_within (mn mx q : list Z) :
  length q = length mn → length mn = length mx →
  in_range mn mx q = true ↔ within mn mx q.
Proof.
  unfold in_range, within.
  revert mn mx; induction q as [|x q IH]; intros [|m mn] [|M mx] ??; simplify_eq/=.
  - split; [by split; constructor | done].
  - rewrite !Forall2_cons, andb_true_iff, IH by lia.
    unfold id. rewrite andb_true_iff, !bool_decide_eq_true. tauto.
Qed.

(** In an indexable range every key addresses a cell. *)
Lemma nd_cell_within (mn mx key : list Z) :
  within mn mx key → indexable mn mx →
  ∃ c, nd_cell (dense_shape mn mx) key = Ok c.
Proof.
  intros [H1 H2] [I1 I2]. revert mx H2 I1 I2.
  induction H1 as [|m k mn key Hmk H1 IH]; intros mx H2 I1 I2.
  - apply Forall2_nil_inv_l in H2 as ->. by exists [].
  - apply Forall2_cons_inv_l in H2 as (M & mx' & HkM & H2 & ->).
    apply Forall_cons in I1 as [Hm I1]. apply Forall_cons in I2 as [HM I2].
    destruct (IH mx' H2 I1 I2) as [c Hc].
    unfold dense_shape in *. simpl. rewrite Hc.
    destruct (decide (0 ≤ k)).
    + exists (k :: c).
      by rewrite (proj2 (normalize_index_Ok _ k k)) by (left; lia).
    + exists (k + (M - m + 1) :: c).
      by rewrite (proj2 (normalize_index_Ok _ k (k + (M - m + 1)))) by (right; lia).
Qed.

(** Two keys of the range that address the same cell are the same key. *)
Lemma nd_cell_inj (mn mx k1 k2 c : list Z) :
  within mn mx k1 → within mn mx k2 →
  nd_cell (dense_shape mn mx) k1 = Ok c →
  nd_cell (dense_shape mn mx) k2 = Ok c →
  k1 = k2.
Proof.
  intros [H1 H1'] [H2 H2']. revert mx k2 c H1' H2 H2'.
  induction H1 as [|m x1 mn k1 Hm1 H1 IH]; intros mx k2 c H1' H2 H2' Hc1 Hc2.
  - by apply Forall2_nil_inv_l in H2 as ->.
  - apply Forall2_cons_inv_l in H1' as (M & mx' & HM1 & H1' & ->).
    apply Forall2_cons_inv_l in H2 as (x2 & k2' & Hm2 & H2 & ->).
    apply Forall2_cons in H2' as [HM2 H2'].
    unfold dense_shape in *. simpl in Hc1, Hc2.
    apply bind_Ok_inv in Hc1 as (c1 & Hn1 & Hc1).
    apply bind_Ok_inv in Hc1 as (cs1 & Hcs1 & [= <-]).
    apply bind_Ok_inv in Hc2 as (c2 & Hn2 & Hc2).
    apply bind_Ok_inv in Hc2 as (cs2 & Hcs2 & [= -> ->]).
    f_equal.
    + apply normalize_index_Ok in Hn1, Hn2. lia.
    + by eapply IH.
Qed.

(** A key that addresses a cell is, along every axis, a valid index. *)
Lemma nd_cell_components (sh key c : list Z) (j : nat) (s k : Z) :
  nd_cell sh key = Ok c → sh !! j = Some s → key !! j = Some k → - s ≤ k < s.
Proof.
  revert key c j; induction sh as [|s' sh IH]; intros [|k' key] c j Hc Hs Hk;
    simplify_eq/=.
  apply bind_Ok_inv in Hc as (c1 & Hn & Hc).
  apply bind_Ok_inv in Hc as (cs & Hcs & _).
  destruct j as [|j]; simplify_eq/=.
  - apply normalize_index_Ok in Hn. lia.
  - by eapply IH.
Qed.

(** ** Filling a dense array *)

Section Writes.
Context {V : Type}.
Implicit Types (a : ndarray V) (items : pydict (list Z) V).

Lemma writes_get (mn mx : list Z) items a :
  nd_shape a = dense_shape mn mx → indexable mn mx →
  Forall (λ item, within mn mx item.1) items → NoDup (map fst items) →
  ∃ a', writes a items = Ok a' ∧ nd_shape a' = nd_shape a ∧
    nd_fill a' = nd_fill a ∧
    ∀ key, within mn mx key →
      nd_get a' key = match dict_get items key with
                      | Some v => Ok v
                      | None => nd_get a key
                      end.
Proof.
  intros Hsh Hidx. revert a Hsh.
  induction items as [|[k v] items IH]; intros a Hsh Hall Hnd.
  - exists a. by split_and!.
  - apply Forall_cons in Hall as [Hk Hall]. simpl in Hk, Hnd.
    apply NoDup_cons in Hnd as [Hfresh Hnd].
    destruct (nd_cell_within mn mx k Hk Hidx) as [c Hc].
    unfold writes. simpl. unfold nd_set at 2. rewrite Hsh, Hc. simpl.
    rewrite <- Hsh.
    destruct (IH (NdArray (nd_shape a) (nd_fill a) (<[c:=v]> (nd_cells a))))
      as (a' & Ha' & Hsh' & Hfill' & Hget); [done..|].
    exists a'. split_and!; [done..|].
    intros key Hkey. rewrite (Hget key Hkey).
    destruct (decide (k = key)) as [->|Hne].
    + apply dict_get_None in Hfresh as ->.
      unfold nd_get. simpl. rewrite Hsh, Hc. simpl.
      by rewrite lookup_insert_eq.
    + destruct (dict_get items key); [done|].
      destruct (nd_cell_within mn mx key Hkey Hidx) as [c' Hc'].
      unfold nd_get. simpl. rewrite Hsh, Hc'. simpl.
      rewrite lookup_insert_ne; [done|].
      intros ->. apply Hne. by eapply nd_cell_inj.
Qed.

Lemma writes_Ok_inv items a a' :
  writes a items = Ok a' →
  Forall (λ item, ∃ c, nd_cell (nd_shape a) item.1 = Ok c) items.
Proof.
  revert a; induction items as [|[k v] items IH]; intros a Ha; [constructor|].
  unfold writes in Ha. simpl in Ha.
  apply bind_Ok_inv in Ha as (a1 & Hset & Ha).
  unfold nd_set in Hset. apply bind_Ok_inv in Hset as (c & Hc & [= <-]).
  constructor; [by exists c | by apply IH in Ha].
Qed.
End Writes.

(** ** The two fill loops *)

Lemma dict_get_map_values {K V W} `{EqDecision K} (g : V → W) (d : pydict K V) (key : K) :
  dict_get (map (λ item, (item.1, g item.2)) d) key = g <$> dict_get d key.
Proof.
  induction d as [|[k v] d IH]; simpl; [done|]. by case_decide.
Qed.

Lemma dict_get_imap {K V W} `{EqDecision K} (f : nat → W) (d : pydict K V) (key : K) :
  dict_get (imap (λ i item, (item.1, f i)) d) key = f <$> dict_index d key.
Proof.
  revert f; induction d as [|[k v] d IH]; intros f; simpl; [done|].
  case_decide; [done|].
  transitivity ((f ∘ S) <$> dict_index d key); [apply (IH (f ∘ S))|].
  by destruct (dict_index d key).
Qed.

Lemma keys_imap {K V W} (f : nat → W) (d : pydict K V) :
  map fst (imap (λ i item, (item.1, f i)) d) = map fst d.
Proof.
  revert f; induction d as [|[k v] d IH]; intros f; simpl; [done|].
  f_equal. apply (IH (f ∘ S)).
Qed.

Lemma fill_sky_prior_writes fs n_det n_sky sh d2i :
  n_sky ≠ 0 →
  fill_sky_prior fs n_det n_sky sh d2i
  = writes (np_full sh 0%Q)
      (map (λ item, (item.1, bucket_density fs n_det n_sky (length item.2))) d2i).
Proof.
  intros Hn. unfold fill_sky_prior, writes. generalize (np_full sh 0%Q).
  induction d2i as [|[k b] d2i IH]; intros a; simpl; [done|].
  unfold prior_value. rewrite decide_False by done. simpl.
  fold (bucket_density fs n_det n_sky (length b)).
  destruct (nd_set a k _); simpl; auto.
Qed.

Lemma fill_sky_prior_nsky fs n_det n_sky sh d2i p :
  d2i ≠ [] → fill_sky_prior fs n_det n_sky sh d2i = Ok p → n_sky ≠ 0.
Proof.
  destruct d2i as [|[k b] d2i]; [done|]. intros _.
  unfold fill_sky_prior. simpl. unfold prior_value.
  case_decide; [done | auto].
Qed.

Lemma fill_ind_generators_step (d2i : pydict (list Z) (list nat)) a (h : heap) :
  foldM (λ st item,
           a ← nd_set st.1 item.1 (length st.2);
           Ok (a, st.2 ++ [Cycle item.2 O])) (a, h) d2i
  = writes a (imap (λ i item, (item.1, (length h + i)%nat)) d2i)
      ≫= λ a', Ok (a', h ++ map (λ item, Cycle item.2 O) d2i).
Proof.
  unfold writes. revert a h; induction d2i as [|[k b] d2i IH]; intros a h; simpl.
  - by rewrite app_nil_r.
  - rewrite Nat.add_0_r. destruct (nd_set a k (length h)) as [a1|]; simpl; [|done].
    rewrite IH. rewrite length_app. simpl.
    rewrite <- app_assoc. simpl.
    erewrite (imap_ext _ (λ i item, (item.1, (length h + S i)%nat))); [done|].
    intros i x _. simpl. f_equal. lia.
Qed.

Lemma fill_ind_generators_writes sh d2i gens h :
  fill_ind_generators sh d2i = Ok (gens, h) →
  writes (np_full sh O) (imap (λ i item, (item.1, S i)) d2i) = Ok gens ∧
  h = EmptyIter :: map (λ item, Cycle item.2 O) d2i.
Proof.
  unfold fill_ind_generators. rewrite fill_ind_generators_step.
  intros (a' & Ha' & [= <- <-])%bind_Ok_inv. done.
Qed.

(** ** What the constructor establishes *)

Lemma construct_Ok_inv sqrtQ a e log s h :
  construct sqrtQ a e = (log, Ok (s, h)) →
  constructed sqrtQ a e s h ∧ log = all_attributes.
Proof.
  unfold construct, init.
  unfold mbind, Init_bind, mret, Init_ret, assign, lift. simpl.
  destruct (row_get (ext_geocenter_delays e) 0) as [g0|] eqn:Hg0; [|done].
  destruct (np_min_axis0 _) as [mn|] eqn:Hmn; [|done].
  destruct (np_max_axis0 _) as [mx|] eqn:Hmx; [|done].
  destruct (foldM _ _ (detector_orders _)) as [[bounds prior]|] eqn:Htab; [|done].
  destruct (fill_ind_generators _ _) as [[gens h']|] eqn:Hgens; [|done].
  destruct (fill_sky_prior _ _ _ _ _) as [p|] eqn:Hp; [|done].
  intros [= <- <- <-]. split; [|done].
  by constructor.
Qed.

Section Engine.
Context (sqrtQ : Q → Q) (a : init_args) (e : externals).
Context (s : SkyDictionary) (h0 : heap).
Hypothesis Hc : constructed sqrtQ a e s h0.

Lemma engine_index :
  delays2inds_map s = build_index (sample_keys s).
Proof. by rewrite (c_d2i _ _ _ _ _ Hc). Qed.

Lemma engine_index_nonempty : delays2inds_map s ≠ [].
Proof.
  intros Hnil. pose proof (c_min _ _ _ _ _ Hc) as Hmin.
  by rewrite Hnil in Hmin.
Qed.

Lemma engine_key_length key :
  key ∈ map fst (delays2inds_map s) → length key = length (delays s).
Proof.
  rewrite engine_index, build_index_keys. unfold sample_keys.
  intros ->%zip_star_tuple_length. unfold _discretize. by rewrite length_map.
Qed.

Lemma engine_keys_length :
  Forall (λ k, length k = length (delays s)) (map fst (delays2inds_map s)).
Proof. apply Forall_forall. intros k Hk. by apply engine_key_length. Qed.

Lemma engine_min_length : length (_min_delay s) = length (delays s).
Proof.
  by destruct (np_min_axis0_spec _ _ _ engine_keys_length (c_min _ _ _ _ _ Hc)).
Qed.

Lemma engine_max_length : length (_max_delay s) = length (delays s).
Proof.
  by destruct (np_max_axis0_spec _ _ _ engine_keys_length (c_max _ _ _ _ _ Hc)).
Qed.

(** Every key of the Delay Index lies in the Delay Range. *)
Lemma engine_key_within key :
  key ∈ map fst (delays2inds_map s) → within (_min_delay s) (_max_delay s) key.
Proof.
  intros Hk. split.
  - by apply (np_min_axis0_spec _ _ _ engine_keys_length (c_min _ _ _ _ _ Hc)).
  - by apply (np_max_axis0_spec _ _ _ engine_keys_length (c_max _ _ _ _ _ Hc)).
Qed.

Lemma engine_keys_addressed :
  Forall (λ k, ∃ c, nd_cell (dense_shape (_min_delay s) (_max_delay s)) k = Ok c)
         (map fst (delays2inds_map s)).
Proof.
  destruct (fill_ind_generators_writes _ _ _ _ (c_gens _ _ _ _ _ Hc)) as [Hw _].
  apply writes_Ok_inv in Hw. simpl in Hw.
  rewrite <- (keys_imap S (delays2inds_map s)).
  rewrite map_fmap. apply Forall_fmap. done.
Qed.

(** The constructor returns only when the Delay Range is indexable. *)
Lemma engine_indexable : indexable (_min_delay s) (_max_delay s).
Proof.
  pose proof engine_keys_addressed as Haddr.
  rewrite Forall_forall in Haddr.
  pose proof engine_min_length as Hlmn. pose proof engine_max_length as Hlmx.
  destruct (np_min_axis0_spec _ _ _ engine_keys_length (c_min _ _ _ _ _ Hc))
    as (_ & _ & Hmin).
  destruct (np_max_axis0_spec _ _ _ engine_keys_length (c_max _ _ _ _ _ Hc))
    as (_ & _ & Hmax).
  assert (∀ j m M, _min_delay s !! j = Some m → _max_delay s !! j = Some M →
                   m ≤ 0 ∧ -1 ≤ M) as Hjm.
  { intros j m M Hm HM.
    assert (dense_shape (_min_delay s) (_max_delay s) !! j = Some (M - m + 1)) as Hs.
    { unfold dense_shape. rewrite lookup_zip_with, HM. simpl. by rewrite Hm. }
    destruct (Hmin j m Hm) as (k1 & Hk1 & Hj1).
    destruct (Hmax j M HM) as (k2 & Hk2 & Hj2).
    destruct (Haddr k1 Hk1) as [c1 Hc1]. destruct (Haddr k2 Hk2) as [c2 Hc2].
    pose proof (nd_cell_components _ _ _ _ _ _ Hc1 Hs Hj1).
    pose proof (nd_cell_components _ _ _ _ _ _ Hc2 Hs Hj2). lia. }
  split; apply Forall_lookup; intros j x Hx.
  - destruct (lookup_lt_is_Some_2 (_max_delay s) j) as [M HM].
    { apply lookup_lt_Some in Hx. lia. }
    by destruct (Hjm j x M Hx HM).
  - destruct (lookup_lt_is_Some_2 (_min_delay s) j) as [m Hm].
    { apply lookup_lt_Some in Hx. lia. }
    by destruct (Hjm j m x Hm Hx).
Qed.

Lemma engine_nsky : nsky s ≠ 0.
Proof.
  eapply fill_sky_prior_nsky; [apply engine_index_nonempty|].
  apply (c_prior _ _ _ _ _ Hc).
Qed.

Lemma engine_index_NoDup : NoDup (map fst (delays2inds_map s)).
Proof. rewrite engine_index. apply build_index_NoDup. Qed.

Lemma engine_items_within :
  Forall (λ item : list Z * list nat, within (_min_delay s) (_max_delay s) item.1)
         (delays2inds_map s).
Proof.
  apply Forall_forall. intros [k b] Hkb. apply engine_key_within.
  rewrite map_fmap. apply list_elem_of_fmap. by exists (k, b).
Qed.

(** The Dense Prior Array holds, at every key of the range, the density
    of the key's bucket, and zero where there is no bucket. *)
Lemma engine_prior_get key :
  within (_min_delay s) (_max_delay s) key →
  nd_get (_sky_prior s) key = Ok (dense_value s key).
Proof.
  intros Hkey. pose proof (c_prior _ _ _ _ _ Hc) as Hp.
  rewrite fill_sky_prior_writes in Hp by apply engine_nsky.
  match type of Hp with writes ?a0 ?items = _ =>
    destruct (writes_get (_min_delay s) (_max_delay s) items a0)
      as (a' & Ha' & _ & _ & Hget)
  end.
  - done.
  - apply engine_indexable.
  - rewrite map_fmap. apply Forall_fmap.
    eapply Forall_impl; [apply engine_items_within | done].
  - rewrite map_map. simpl. apply engine_index_NoDup.
  - rewrite Hp in Ha'. injection Ha' as <-. rewrite (Hget key Hkey).
    rewrite (dict_get_map_values
               (λ b, bucket_density (f_sampling s) (length (detector_names s))
                       (nsky s) (length b))).
    unfold dense_value.
    destruct (dict_get (delays2inds_map s) key); simpl; [done|].
    destruct (nd_cell_within _ _ key Hkey engine_indexable) as [c Hcell].
    unfold nd_get. simpl. rewrite Hcell. simpl. by rewrite lookup_empty.
Qed.

(** The Cyclic Sample Provider array holds, at every key of the range,
    the reference to the cursor of the key's bucket, and the shared
    exhausted iterator where there is no bucket. *)
Lemma engine_generator_get key :
  within (_min_delay s) (_max_delay s) key →
  nd_get (_ind_generators s) key = Ok (dense_generator s key).
Proof.
  intros Hkey.
  destruct (fill_ind_generators_writes _ _ _ _ (c_gens _ _ _ _ _ Hc)) as [Hw _].
  match type of Hw with writes ?a0 ?items = _ =>
    destruct (writes_get (_min_delay s) (_max_delay s) items a0)
      as (a' & Ha' & _ & _ & Hget)
  end.
  - done.
  - apply engine_indexable.
  - apply Forall_forall. intros [k v] Hkv. apply engine_key_within.
    rewrite <- (keys_imap S (delays2inds_map s)).
    rewrite map_fmap. apply list_elem_of_fmap. by exists (k, v).
  - rewrite keys_imap. apply engine_index_NoDup.
  - rewrite Hw in Ha'. injection Ha' as <-. rewrite (Hget key Hkey).
    rewrite dict_get_imap. unfold dense_generator.
    destruct (dict_index (delays2inds_map s) key); simpl; [done|].
    destruct (nd_cell_within _ _ key Hkey engine_indexable) as [c Hcell].
    unfold nd_get. simpl. rewrite Hcell. simpl. by rewrite lookup_empty.
Qed.

Lemma engine_buckets_nonempty :
  Forall (λ item : list Z * list nat, item.2 ≠ []) (delays2inds_map s).
Proof. rewrite engine_index. apply build_index_nonempty. Qed.

(** The heap the constructor leaves. *)
Lemma engine_heap_init : heap_ok s h0.
Proof.
  pose proof engine_buckets_nonempty as Hne.
  destruct (fill_ind_generators_writes _ _ _ _ (c_gens _ _ _ _ _ Hc)) as [_ Hh].
  eexists. split; [exact Hh|].
  rewrite map_fmap. apply Forall2_fmap_r, Forall_Forall2_diag.
  eapply Forall_impl; [exact Hne|].
  intros [k b] Hb. exists O. split; [done|]. simpl in *.
  destruct b; [done | simpl; lia].
Qed.
End Engine.

(** ** Cursors *)

Lemma mask_select_Forall {A} (p : A → bool) (l : list A) :
  Forall (λ x, p x = true) (mask_select (map p l) l).
Proof.
  induction l as [|x l IH]; simpl; [constructor|].
  destruct (p x) eqn:Hp; [by constructor | done].
Qed.

Lemma mask_select_elem_of {A} (m : list bool) (l : list A) (x : A) :
  x ∈ mask_select m l → x ∈ l.
Proof.
  revert l; induction m as [|b m IH]; intros [|y l]; simpl;
    try (by intros ?%elem_of_nil).
  destruct b; [intros [->|?]%elem_of_cons; [left | right; eauto]
              | intros ?; right; eauto].
Qed.

Lemma heap_next_cursor (s : SkyDictionary) (h : heap) (i : nat) (k : list Z) (b : list nat) :
  heap_ok s h → delays2inds_map s !! i = Some (k, b) →
  ∃ pos x, h !! S i = Some (Cycle b pos) ∧ b !! pos = Some x ∧
    heap_next h (S i) = Some (x, <[S i := Cycle b (S pos mod length b)%nat]> h) ∧
    heap_ok s (<[S i := Cycle b (S pos mod length b)%nat]> h).
Proof.
  intros (cursors & -> & Hcur) Hi.
  destruct (Forall2_lookup_l _ _ _ _ _ Hcur Hi) as (it & Hit & pos & -> & Hpos).
  simpl in Hpos. destruct (lookup_lt_is_Some_2 b pos Hpos) as [x Hx].
  exists pos, x. split_and!; [done | done | |].
  - unfold heap_next. simpl. rewrite Hit. simpl. by rewrite Hx.
  - eexists. split; [done|].
    rewrite <- (list_insert_id (delays2inds_map s) i (k, b)) by done.
    apply Forall2_insert; [done|].
    eexists. split; [done|]. simpl.
    apply Nat.mod_upper_bound. lia.
Qed.

Lemma fromiter_cursors (s : SkyDictionary) (h : heap) (gens : list nat) :
  heap_ok s h →
  Forall (λ g, ∃ i item, g = S i ∧ delays2inds_map s !! i = Some item) gens →
  ∃ inds h', fromiter_map_next h gens = (inds, h', false) ∧
    length inds = length gens ∧ heap_ok s h'.
Proof.
  intros Hh Hg. revert h Hh.
  induction Hg as [|g gens (i & [k b] & -> & Hi) _ IH]; intros h Hh.
  - by exists [], h.
  - destruct (heap_next_cursor s h i k b Hh Hi) as (pos & x & _ & _ & Hn & Hh').
    destruct (IH _ Hh') as (inds & h' & Hrun & Hlen & Hok).
    exists (x :: inds), h'. simpl. rewrite Hn, Hrun. simpl. by rewrite Hlen.
Qed.

Section Query.
Context (sqrtQ : Q → Q) (a : init_args) (e : externals).
Context (s : SkyDictionary) (h0 : heap).
Hypothesis Hc : constructed sqrtQ a e s h0.

Lemma engine_delays_nonempty : delays s ≠ [].
Proof.
  intros Hnil. apply (engine_index_nonempty _ _ _ _ _ Hc).
  rewrite (engine_index _ _ _ _ _ Hc). unfold sample_keys. by rewrite Hnil.
Qed.

Lemma survives_within key :
  length key = length (delays s) → survives s key = true →
  within (_min_delay s) (_max_delay s) key ∧
  ∃ i b, delays2inds_map s !! i = Some (key, b) ∧
         dict_get (delays2inds_map s) key = Some b ∧
         dense_generator s key = S i.
Proof.
  intros Hlen [Hin Hpos]%andb_true_iff.
  apply in_range_within in Hin.
  2: by rewrite (engine_min_length _ _ _ _ _ Hc).
  2: by rewrite (engine_min_length _ _ _ _ _ Hc), (engine_max_length _ _ _ _ _ Hc).
  split; [done|]. unfold dense_value in Hpos. unfold dense_generator.
  destruct (dict_get (delays2inds_map s) key) as [b|] eqn:Hget; [|done].
  destruct (dict_index_lookup _ _ _ Hget) as (i & -> & Hi). eauto.
Qed.

Lemma query_run_spec (h : heap) (dl : list (list Z)) (nq : nat) :
  heap_ok s h →
  length dl = length (delays s) → Forall (λ row, length row = nq) dl →
  let keys := map (column 0 dl) (seq 0 nq) in
  ∃ r, get_sky_inds_and_prior_run s h dl = Ok r ∧
    run_physical_mask r = map (survives s) keys ∧
    run_sky_prior r
      = map (dense_value s) (mask_select (map (survives s) keys) keys) ∧
    run_generators r
      = map (dense_generator s) (mask_select (map (survives s) keys) keys) ∧
    run_stopped r = false ∧
    length (run_sky_inds r) = length (run_generators r) ∧
    fromiter_map_next h (run_generators r) = (run_sky_inds r, run_heap r, false) ∧
    heap_ok s (run_heap r).
Proof.
  intros Hh Hlen Hrows keys.
  assert (dl ≠ []) as Hne.
  { intros ->. apply engine_delays_nonempty. by destruct (delays s). }
  assert (Forall (λ k, length k = length (delays s)) keys) as Hklen.
  { apply Forall_forall. intros k. unfold keys. rewrite map_fmap.
    intros (j & -> & _)%list_elem_of_fmap. unfold column.
    by rewrite length_map. }
  unfold get_sky_inds_and_prior_run.
  rewrite (zip_star_columns 0 dl nq Hne Hrows). fold keys.
  change (map (λ q, forallb id _) keys)
    with (map (in_range (_min_delay s) (_max_delay s)) keys).
  set (p := in_range (_min_delay s) (_max_delay s)).
  set (q := λ k, positive (dense_value s k)).
  unfold nd_take. rewrite !zip_star_mask_select.
  rewrite (zip_star_columns 0 dl nq Hne Hrows). fold keys.
  rewrite (mapR_Ok_fmap _ (dense_value s)).
  2:{ pose proof (mask_select_Forall p keys) as Hsel.
      assert (Forall (λ k, length k = length (delays s))
                     (mask_select (map p keys) keys)) as Hsl.
      { rewrite Forall_forall in Hklen. apply Forall_forall. intros k Hk.
        apply Hklen. by eapply mask_select_elem_of. }
      rewrite Forall_forall in Hsel, Hsl. apply Forall_forall. intros k Hk.
      apply (engine_prior_get _ _ _ _ _ Hc).
      apply in_range_within; [| | by apply Hsel].
      - rewrite (engine_min_length _ _ _ _ _ Hc). by apply Hsl.
      - by rewrite (engine_min_length _ _ _ _ _ Hc), (engine_max_length _ _ _ _ _ Hc). }
  simpl. rewrite map_map. fold q.
  rewrite (mask_refine_spec p q keys).
  change (λ x, p x && q x) with (survives s).
  rewrite zip_star_mask_select.
  rewrite (zip_star_columns 0 dl nq Hne Hrows). fold keys.
  rewrite (mask_select_submask p q (dense_value s) keys).
  change (λ x, p x && q x) with (survives s).
  assert (Forall (λ k, within (_min_delay s) (_max_delay s) k ∧
                       ∃ i b, delays2inds_map s !! i = Some (k, b) ∧
                              dict_get (delays2inds_map s) k = Some b ∧
                              dense_generator s k = S i)
                 (mask_select (map (survives s) keys) keys)) as Hsurv.
  { pose proof (mask_select_Forall (survives s) keys) as Hsel.
    rewrite Forall_forall in Hsel, Hklen. apply Forall_forall. intros k Hk.
    apply survives_within; [|by apply Hsel].
    apply Hklen. by eapply mask_select_elem_of. }
  rewrite (mapR_Ok_fmap _ (dense_generator s)).
  2:{ eapply Forall_impl; [exact Hsurv|]. simpl. intros k [Hk _].
      by apply (engine_generator_get _ _ _ _ _ Hc). }
  simpl.
  destruct (fromiter_cursors s h
              (map (dense_generator s) (mask_select (map (survives s) keys) keys)) Hh)
    as (inds & h' & Hrun & Hlinds & Hh').
  { rewrite map_fmap. apply Forall_fmap.
    eapply Forall_impl; [exact Hsurv|]. simpl.
    intros k (_ & i & b & Hi & _ & ->). eauto. }
  rewrite Hrun. eexists. split; [done|]. simpl. by split_and!.
Qed.
End Query.

(** Advancing any reference keeps the heap well formed: only cursors can
    be advanced, and they stay inside their buckets. *)
Lemma heap_next_heap_ok (s : SkyDictionary) (h h' : heap) (g x : nat) :
  heap_ok s h → heap_next h g = Some (x, h') → heap_ok s h'.
Proof.
  intros (cursors & -> & Hcur) Hn. unfold heap_next in Hn.
  destruct g as [|i]; [done|]. simpl in Hn.
  destruct (cursors !! i) as [it|] eqn:Hit; [|done]. simpl in Hn.
  destruct (Forall2_lookup_r _ _ _ _ _ Hcur Hit) as ([k b] & Hi & pos & -> & Hpos).
  simpl in *. destruct (b !! pos) as [y|]; [|done]. simpl in Hn.
  injection Hn as <- <-.
  eexists. split; [done|].
  rewrite <- (list_insert_id (delays2inds_map s) i (k, b)) by done.
  apply Forall2_insert; [done|].
  eexists. split; [done|]. simpl. apply Nat.mod_upper_bound. lia.
Qed.

Lemma fromiter_heap_ok (s : SkyDictionary) (h : heap) (gens : list nat) :
  heap_ok s h → heap_ok s (fromiter_map_next h gens).1.2.
Proof.
  revert h; induction gens as [|g gens IH]; intros h Hh; simpl; [done|].
  destruct (heap_next h g) as [[x h']|] eqn:Hn; [|done].
  specialize (IH h' (heap_next_heap_ok _ _ _ _ _ Hh Hn)).
  by destruct (fromiter_map_next h' gens) as [[xs h''] st].
Qed.

Lemma call_heap_ok (s : SkyDictionary) (h h' : heap) dl out :
  heap_ok s h → get_sky_inds_and_prior s h dl = Ok (out, h') → heap_ok s h'.
Proof.
  intros Hh. unfold get_sky_inds_and_prior, get_sky_inds_and_prior_run.
  intros (r & Hr & [= _ <-])%bind_Ok_inv.
  apply bind_Ok_inv in Hr as (p & _ & Hr).
  apply bind_Ok_inv in Hr as (gens & _ & Hr).
  pose proof (fromiter_heap_ok s h gens Hh) as Hok.
  destruct (fromiter_map_next h gens) as [[xs h''] st].
  by injection Hr as <-.
Qed.

Lemma reachable_heap_ok sqrtQ a e s h0 h :
  constructed sqrtQ a e s h0 → reachable s h0 h → heap_ok s h.
Proof.
  intros Hc. induction 1 as [|h dl out h' _ IH Hcall].
  - by eapply engine_heap_init.
  - by eapply call_heap_ok.
Qed.

(** ** Densities *)

Lemma bucket_density_num fs n_det n_sky k :
  0 < n_sky →
  Qnum (bucket_density fs n_det n_sky k) = fs ^ (Z.of_nat n_det - 1) * Z.of_nat k.
Proof.
  intros Hn. unfold bucket_density, Qdiv, Qinv, inject_Z. simpl.
  destruct n_sky; try lia. simpl. lia.
Qed.

Lemma Qnonzero_num (x : Q) : ¬ (x == 0)%Q ↔ Qnum x ≠ 0.
Proof. unfold Qeq. simpl. rewrite Z.mul_1_r. done. Qed.

(** With a sampling frequency that is not negative and a positive sample
    count the recorded densities are never negative: being nonzero and
    being [> 0] agree. *)
Lemma positive_dense_value (s : SkyDictionary) (key : list Z) :
  0 ≤ f_sampling s → 0 < nsky s →
  positive (dense_value s key) = true ↔ ¬ (dense_value s key == 0)%Q.
Proof.
  intros Hf Hn. rewrite Qnonzero_num. unfold positive.
  rewrite bool_decide_eq_true. unfold dense_value.
  destruct (dict_get _ _) as [b|]; [|simpl; lia].
  rewrite bucket_density_num by done.
  assert (0 ≤ f_sampling s ^ (Z.of_nat (length (detector_names s)) - 1))
    by (apply Z.pow_nonneg; lia).
  nia.
Qed.

Lemma positive_bucket_density fs n_det n_sky k :
  0 < fs → 0 < n_sky → (1 ≤ n_det)%nat → (0 < k)%nat →
  positive (bucket_density fs n_det n_sky k) = true.
Proof.
  intros Hf Hn Hd Hk. unfold positive. rewrite bool_decide_eq_true.
  rewrite bucket_density_num by done.
  assert (0 < fs ^ (Z.of_nat n_det - 1)) by (apply Z.pow_pos_nonneg; lia).
  nia.
Qed.

(** ** Shapes *)

Lemma rows_minus_lengths (rows : list (list Q)) (row : list Q) (n : nat) :
  Forall (λ r, length r = n) rows → length row = n →
  Forall (λ r, length r = n) (rows_minus rows row).
Proof.
  intros Hrows Hrow. unfold rows_minus. rewrite map_fmap. apply Forall_fmap.
  eapply Forall_impl; [exact Hrows|]. simpl. intros r Hr.
  rewrite length_zip_with. lia.
Qed.

Section Shaped.
Context (sqrtQ : Q → Q) (a : init_args) (e : externals).
Context (s : SkyDictionary) (h0 : heap).
Hypothesis Hc : constructed sqrtQ a e s h0.
Hypothesis Hsh : externals_shaped a e.

Lemma shaped_delays_count :
  length (delays s) = (length (detector_names s) - 1)%nat.
Proof.
  destruct Hsh as [Hlen _].
  rewrite (c_delays _ _ _ _ _ Hc), (c_names _ _ _ _ _ Hc), <- Hlen.
  unfold rows_minus. by rewrite length_map, length_drop.
Qed.

Lemma shaped_nsky : 0 < nsky s.
Proof.
  pose proof (engine_nsky _ _ _ _ _ Hc) as Hn.
  destruct Hsh as [_ Hrows]. pose proof (c_g0 _ _ _ _ _ Hc) as Hg0.
  unfold row_get in Hg0.
  destruct (ext_geocenter_delays e !! 0%nat) as [r|] eqn:Hr; [|done].
  rewrite Forall_lookup in Hrows. specialize (Hrows _ _ Hr).
  rewrite (c_nsky _ _ _ _ _ Hc). rewrite (c_nsky _ _ _ _ _ Hc) in Hn. lia.
Qed.

Lemma shaped_delays_rows :
  Forall (λ r, length r = Z.to_nat (nsky s)) (delays s).
Proof.
  destruct Hsh as [_ Hrows]. pose proof (c_g0 _ _ _ _ _ Hc) as Hg0.
  rewrite (c_delays _ _ _ _ _ Hc). unfold row_get in Hg0.
  destruct (ext_geocenter_delays e !! 0%nat) as [r|] eqn:Hr; [|done].
  injection Hg0 as <-.
  assert (Forall (λ r, length r = Z.to_nat (nsky s)) (ext_geocenter_delays e)) as Hall.
  { eapply Forall_impl; [exact Hrows|]. simpl. intros r' Hr'.
    rewrite (c_nsky _ _ _ _ _ Hc). lia. }
  apply rows_minus_lengths.
  - by apply Forall_drop.
  - rewrite Forall_lookup in Hall. by apply (Hall _ _ Hr).
Qed.

(** The keys of the samples are the columns of the discretized delay
    array. *)
Lemma shaped_sample_keys :
  sample_keys s
  = map (column 0 (_discretize (f_sampling s) (delays s)))
        (seq 0 (Z.to_nat (nsky s))).
Proof.
  unfold sample_keys. apply zip_star_columns.
  - pose proof (engine_delays_nonempty _ _ _ _ _ Hc).
    unfold _discretize. by destruct (delays s).
  - unfold _discretize. rewrite map_fmap. apply Forall_fmap.
    eapply Forall_impl; [apply shaped_delays_rows|]. simpl. intros r Hr.
    by rewrite length_map.
Qed.
End Shaped.

(** ** The query engine *)

(** C1.  For a constructed engine whose sampling frequency is not negative
    (in particular for every positive one), in
    any heap it can reach, and for every integer array of shape
    (n_det - 1, n_queries): [get_sky_inds_and_prior] returns; its
    [physical_mask] has length n_queries and is True at a query exactly
    when every component of the query's delay vector lies in the recorded
    [min, max] range and the Dense Prior Array is nonzero at that key;
    [sky_inds] and [sky_prior] have as many entries as the mask has True
    entries; and [sky_prior] lists, in query order, the Dense Prior Array
    values of the surviving queries. *)
Theorem get_sky_inds_and_prior_filters sqrtQ a e log s h0 h dl nq :
  construct sqrtQ a e = (log, Ok (s, h0)) →
  externals_shaped a e →
  0 ≤ arg_f_sampling a →
  reachable s h0 h →
  length dl = (length (detector_names s) - 1)%nat →
  Forall (λ row, length row = nq) dl →
  ∃ sky_inds sky_prior physical_mask h',
    get_sky_inds_and_prior s h dl = Ok ((sky_inds, sky_prior, physical_mask), h') ∧
    length physical_mask = nq ∧
    (∀ j, (j < nq)%nat →
       physical_mask !! j = Some true ↔
       within (_min_delay s) (_max_delay s) (column 0 dl j) ∧
       ∃ v, nd_get (_sky_prior s) (column 0 dl j) = Ok v ∧ ¬ (v == 0)%Q) ∧
    length sky_inds = count_true physical_mask ∧
    length sky_prior = count_true physical_mask ∧
    mapR (nd_get (_sky_prior s))
         (mask_select physical_mask (map (column 0 dl) (seq 0 nq)))
    = Ok sky_prior.
Proof.
  intros [Hc _]%construct_Ok_inv Hsh Hfs Hreach Hlen Hrows.
  pose proof (reachable_heap_ok _ _ _ _ _ _ Hc Hreach) as Hh.
  rewrite <- (shaped_delays_count _ _ _ _ _ Hc Hsh) in Hlen.
  pose proof (shaped_nsky _ _ _ _ _ Hc Hsh) as Hnsky.
  rewrite <- (c_fs _ _ _ _ _ Hc) in Hfs.
  destruct (query_run_spec _ _ _ _ _ Hc h dl nq Hh Hlen Hrows)
    as (r & Hr & Hmask & Hprior & Hgens & _ & Hinds & _ & _).
  set (keys := map (column 0 dl) (seq 0 nq)) in *.
  assert (∀ k, k ∈ keys → length k = length (_min_delay s) ∧
                          length (_min_delay s) = length (_max_delay s)) as Hkl.
  { intros k. unfold keys. rewrite map_fmap.
    intros (j & -> & _)%list_elem_of_fmap. unfold column. rewrite length_map.
    by rewrite (engine_min_length _ _ _ _ _ Hc), (engine_max_length _ _ _ _ _ Hc). }
  exists (run_sky_inds r), (run_sky_prior r), (run_physical_mask r), (run_heap r).
  split_and!.
  - unfold get_sky_inds_and_prior. by rewrite Hr.
  - rewrite Hmask. unfold keys. by rewrite !length_map, length_seq.
  - intros j Hj. rewrite Hmask. unfold keys.
    rewrite !map_fmap, !list_lookup_fmap, lookup_seq_lt by done. simpl.
    destruct (Hkl (column 0 dl j)) as [Hl1 Hl2].
    { unfold keys. rewrite map_fmap. apply list_elem_of_fmap. exists j.
      split; [done|]. apply elem_of_seq. lia. }
    unfold survives. split.
    + intros [= [Hin Hpos]%andb_true_iff].
      apply in_range_within in Hin; [|done..]. split; [done|].
      exists (dense_value s (column 0 dl j)).
      split; [by apply (engine_prior_get _ _ _ _ _ Hc)|].
      by apply positive_dense_value.
    + intros (Hin & v & Hv & Hnz).
      rewrite (engine_prior_get _ _ _ _ _ Hc) in Hv by done. injection Hv as <-.
      f_equal. apply andb_true_iff. split.
      * by apply in_range_within.
      * by apply positive_dense_value.
  - rewrite Hinds, Hgens, Hmask, length_map. apply mask_select_length.
  - rewrite Hprior, Hmask, length_map. apply mask_select_length.
  - rewrite Hprior, Hmask. apply mapR_Ok_fmap.
    pose proof (mask_select_Forall (survives s) keys) as Hsel.
    rewrite Forall_forall in Hsel. apply Forall_forall. intros k Hk.
    apply (engine_prior_get _ _ _ _ _ Hc).
    specialize (Hsel k Hk). apply andb_true_iff in Hsel as [Hin _].
    destruct (Hkl k) as [Hl1 Hl2]; [by eapply mask_select_elem_of|].
    by apply in_range_within in Hin.
Qed.

(** C1 at a two-detector engine and three queries. *)
Lemma get_sky_inds_and_prior_filters_witness :
  ∃ sky_inds sky_prior physical_mask h',
    get_sky_inds_and_prior Examples.built_HL.1 Examples.built_HL.2 [[0; 5; -1]]
    = Ok ((sky_inds, sky_prior, physical_mask), h') ∧
    length physical_mask = 3%nat ∧
    (∀ j, (j < 3)%nat →
       physical_mask !! j = Some true ↔
       within (_min_delay Examples.built_HL.1) (_max_delay Examples.built_HL.1)
              (column 0 [[0; 5; -1]] j) ∧
       ∃ v, nd_get (_sky_prior Examples.built_HL.1) (column 0 [[0; 5; -1]] j) = Ok v ∧
            ¬ (v == 0)%Q) ∧
    length sky_inds = count_true physical_mask ∧
    length sky_prior = count_true physical_mask ∧
    mapR (nd_get (_sky_prior Examples.built_HL.1))
         (mask_select physical_mask (map (column 0 [[0; 5; -1]]) (seq 0 3)))
    = Ok sky_prior.
Proof.
  apply (get_sky_inds_and_prior_filters isqrtQ Examples.args_HL Examples.ext_HL
           all_attributes Examples.built_HL.1 Examples.built_HL.2).
  - vm_compute. reflexivity.
  - split; [reflexivity | repeat constructor].
  - vm_compute. discriminate.
  - apply reachable_init.
  - reflexivity.
  - repeat constructor.
Defined.

(** C7.  In every call on a constructed engine, in any heap it can reach
    and for any delays of the documented shape, the references handed to
    [next] are exactly those of the queries that survived the density
    filter, one per surviving query; each of them is the cursor of a
    non-empty bucket; the shared exhausted iterator (reference 0) is not
    among them and is still untouched after the call; and no [next] ends
    in [StopIteration]: every reference yields a sample index. *)
Theorem cursors_advanced_only_for_survivors sqrtQ a e log s h0 h dl nq :
  construct sqrtQ a e = (log, Ok (s, h0)) →
  reachable s h0 h →
  length dl = length (delays s) →
  Forall (λ row, length row = nq) dl →
  ∃ r, get_sky_inds_and_prior_run s h dl = Ok r ∧
    run_generators r
      = map (dense_generator s)
            (mask_select (run_physical_mask r) (map (column 0 dl) (seq 0 nq))) ∧
    Forall (λ key, ∃ v, nd_get (_sky_prior s) key = Ok v ∧ positive v = true)
           (mask_select (run_physical_mask r) (map (column 0 dl) (seq 0 nq))) ∧
    length (run_generators r) = count_true (run_physical_mask r) ∧
    Forall (λ g, ∃ i key b pos,
              g = S i ∧ delays2inds_map s !! i = Some (key, b) ∧ b ≠ [] ∧
              h !! g = Some (Cycle b pos) ∧ (pos < length b)%nat)
           (run_generators r) ∧
    h !! O = Some EmptyIter ∧ run_heap r !! O = Some EmptyIter ∧
    (O ∉ run_generators r) ∧
    run_stopped r = false ∧
    length (run_sky_inds r) = length (run_generators r).
Proof.
  intros [Hc _]%construct_Ok_inv Hreach Hlen Hrows.
  pose proof (reachable_heap_ok _ _ _ _ _ _ Hc Hreach) as Hh.
  destruct (query_run_spec _ _ _ _ _ Hc h dl nq Hh Hlen Hrows)
    as (r & Hr & Hmask & Hprior & Hgens & Hstop & Hinds & _ & Hh').
  set (keys := map (column 0 dl) (seq 0 nq)) in *.
  assert (Forall (λ k, length k = length (delays s)) keys) as Hklen.
  { apply Forall_forall. intros k. unfold keys. rewrite map_fmap.
    intros (j & -> & _)%list_elem_of_fmap. unfold column.
    by rewrite length_map. }
  assert (Forall (λ k, survives s k = true ∧ length k = length (delays s))
                 (mask_select (map (survives s) keys) keys)) as Hsurv.
  { pose proof (mask_select_Forall (survives s) keys) as Hsel.
    rewrite Forall_forall in Hsel, Hklen. apply Forall_forall. intros k Hk.
    split; [by apply Hsel|]. apply Hklen. by eapply mask_select_elem_of. }
  assert (Forall (λ g, ∃ i key b pos,
              g = S i ∧ delays2inds_map s !! i = Some (key, b) ∧ b ≠ [] ∧
              h !! g = Some (Cycle b pos) ∧ (pos < length b)%nat)
           (run_generators r)) as Hcur.
  { rewrite Hgens, map_fmap. apply Forall_fmap.
    eapply Forall_impl; [exact Hsurv|]. simpl. intros k [Hk Hkl].
    destruct (survives_within _ _ _ _ _ Hc k Hkl Hk) as (_ & i & b & Hi & _ & ->).
    destruct (heap_next_cursor s h i k b Hh Hi) as (pos & x & Hpos & Hx & _).
    exists i, k, b, pos. split_and!; try done.
    - by intros ->.
    - by apply lookup_lt_Some in Hx. }
  exists r. split_and!; try done.
  - by rewrite Hgens, Hmask.
  - rewrite Hmask. eapply Forall_impl; [exact Hsurv|]. simpl. intros k [Hk Hkl].
    destruct (survives_within _ _ _ _ _ Hc k Hkl Hk) as (Hin & _).
    exists (dense_value s k). split; [by apply (engine_prior_get _ _ _ _ _ Hc)|].
    by apply andb_true_iff in Hk as [_ ?].
  - rewrite Hgens, Hmask, length_map. apply mask_select_length.
  - by destruct Hh as (cursors & -> & _).
  - by destruct Hh' as (cursors & -> & _).
  - rewrite Forall_forall in Hcur. intros H0.
    by destruct (Hcur _ H0) as (i & ? & ? & ? & ? & _).
Qed.

(** C7 at a two-detector engine: a populated key, a key outside the
    range and a key of the range. *)
Lemma cursors_advanced_only_for_survivors_witness :
  ∃ r, get_sky_inds_and_prior_run Examples.built_HL.1 Examples.built_HL.2 [[0; 5; -1]]
       = Ok r ∧
    run_generators r
      = map (dense_generator Examples.built_HL.1)
            (mask_select (run_physical_mask r)
               (map (column 0 [[0; 5; -1]]) (seq 0 3))) ∧
    Forall (λ key, ∃ v, nd_get (_sky_prior Examples.built_HL.1) key = Ok v ∧
                        positive v = true)
           (mask_select (run_physical_mask r)
              (map (column 0 [[0; 5; -1]]) (seq 0 3))) ∧
    length (run_generators r) = count_true (run_physical_mask r) ∧
    Forall (λ g, ∃ i key b pos,
              g = S i ∧
              delays2inds_map Examples.built_HL.1 !! i = Some (key, b) ∧ b ≠ [] ∧
              Examples.built_HL.2 !! g = Some (Cycle b pos) ∧ (pos < length b)%nat)
           (run_generators r) ∧
    Examples.built_HL.2 !! O = Some EmptyIter ∧ run_heap r !! O = Some EmptyIter ∧
    (O ∉ run_generators r) ∧
    run_stopped r = false ∧
    length (run_sky_inds r) = length (run_generators r).
Proof.
  apply (cursors_advanced_only_for_survivors isqrtQ Examples.args_HL Examples.ext_HL
           all_attributes Examples.built_HL.1 Examples.built_HL.2).
  - vm_compute. reflexivity.
  - apply reachable_init.
  - reflexivity.
  - repeat constructor.
Defined.

(** ** Round robin *)

Lemma fromiter_replicate (h : heap) (g : nat) (b : list nat) (pos n : nat) :
  h !! g = Some (Cycle b pos) → (pos < length b)%nat →
  fromiter_map_next h (replicate n g)
  = (map (λ j, nth ((pos + j) mod length b) b O) (seq 0 n),
     <[g := Cycle b ((pos + n) mod length b)%nat]> h, false).
Proof.
  revert h pos; induction n as [|n IH]; intros h pos Hg Hpos.
  - cbn [replicate fromiter_map_next seq map].
    rewrite Nat.add_0_r, Nat.mod_small by done. by rewrite list_insert_id.
  - cbn [replicate fromiter_map_next seq map].
    unfold heap_next. rewrite Hg. cbn [mbind option_bind next].
    destruct (lookup_lt_is_Some_2 b pos Hpos) as [x Hx]. rewrite Hx.
    cbn [mbind option_bind].
    rewrite (IH _ (S pos mod length b)%nat).
    + rewrite list_insert_insert_eq.
      assert (∀ j, (S pos mod length b + j) mod length b
                   = (pos + S j) mod length b)%nat as Hmod.
      { intros j. rewrite Nat.Div0.add_mod_idemp_l. f_equal. lia. }
      rewrite Hmod, Nat.add_0_r, (Nat.mod_small pos) by done.
      rewrite (nth_lookup_Some _ _ O _ Hx).
      rewrite <- seq_shift, map_map.
      do 3 f_equal. apply map_ext. intros j. by rewrite Hmod.
    + apply list_lookup_insert_eq. by eapply lookup_lt_Some.
    + apply Nat.mod_upper_bound. lia.
Qed.

Lemma column_same_key (key : list Z) (n j : nat) :
  (j < n)%nat → column 0 (same_key_queries key n) j = key.
Proof.
  intros Hj. unfold column, same_key_queries. rewrite map_map.
  induction key as [|k key IH]; simpl; [done|]. f_equal; [|done].
  apply nth_lookup_Some. by apply lookup_replicate_2.
Qed.

Lemma columns_same_key (key : list Z) (n : nat) :
  map (column 0 (same_key_queries key n)) (seq 0 n) = replicate n key.
Proof.
  apply list_eq. intros j. rewrite map_fmap, list_lookup_fmap.
  destruct (decide (j < n)%nat) as [Hj|Hj].
  - rewrite lookup_seq_lt by done. simpl.
    rewrite column_same_key by done. symmetry. by apply lookup_replicate_2.
  - rewrite lookup_seq_ge by lia. simpl. symmetry.
    apply lookup_ge_None. rewrite length_replicate. lia.
Qed.

Lemma mask_select_replicate_true {A} (n : nat) (x : A) :
  mask_select (replicate n true) (replicate n x) = replicate n x.
Proof. induction n as [|n IH]; simpl; [done | by rewrite IH]. Qed.

Lemma map_replicate {A B} (f : A → B) (n : nat) (x : A) :
  map f (replicate n x) = replicate n (f x).
Proof. induction n as [|n IH]; simpl; [done | by rewrite IH]. Qed.

Section RoundRobin.
Context (sqrtQ : Q → Q) (a : init_args) (e : externals).
Context (s : SkyDictionary) (h0 : heap).
Hypothesis Hc : constructed sqrtQ a e s h0.
Hypothesis Hfs : 0 < f_sampling s.
Hypothesis Hnsky : 0 < nsky s.
Hypothesis Hdet : (1 ≤ length (detector_names s))%nat.
Context (key : list Z) (b : list nat) (i : nat).
Hypothesis Hi : delays2inds_map s !! i = Some (key, b).

Lemma bucket_get : dict_get (delays2inds_map s) key = Some b.
Proof using Hc Hi.
  clear Hfs Hnsky Hdet.
  apply elem_of_dict_get; [apply (engine_index_NoDup _ _ _ _ _ Hc)|].
  by eapply list_elem_of_lookup_2.
Qed.

Lemma bucket_generator : dense_generator s key = S i.
Proof using Hc Hi.
  clear Hfs Hnsky Hdet.
  unfold dense_generator.
  destruct (dict_index_lookup _ _ _ bucket_get) as (i' & -> & Hi').
  f_equal. eapply NoDup_lookup; [apply (engine_index_NoDup _ _ _ _ _ Hc) | |].
  - rewrite map_fmap, list_lookup_fmap, Hi'. done.
  - rewrite map_fmap, list_lookup_fmap, Hi. done.
Qed.

Lemma bucket_key_length : length key = length (delays s).
Proof using Hc Hi.
  clear Hfs Hnsky Hdet.
  apply (engine_key_length _ _ _ _ _ Hc). rewrite map_fmap.
  apply list_elem_of_fmap. exists (key, b).
  split; [done | by eapply list_elem_of_lookup_2].
Qed.

Lemma bucket_nonempty : (0 < length b)%nat.
Proof using Hc Hi.
  clear Hfs Hnsky Hdet.
  pose proof (engine_buckets_nonempty _ _ _ _ _ Hc) as Hne.
  rewrite Forall_lookup in Hne. specialize (Hne _ _ Hi). simpl in Hne.
  destruct b; [done | simpl; lia].
Qed.

Lemma bucket_survives : survives s key = true.
Proof using Hc Hfs Hnsky Hdet Hi.
  unfold survives. apply andb_true_iff. split.
  - apply in_range_within.
    + by rewrite (engine_min_length _ _ _ _ _ Hc), bucket_key_length.
    + by rewrite (engine_min_length _ _ _ _ _ Hc), (engine_max_length _ _ _ _ _ Hc).
    + apply (engine_key_within _ _ _ _ _ Hc). rewrite map_fmap.
      apply list_elem_of_fmap. exists (key, b).
      split; [done | by eapply list_elem_of_lookup_2].
  - unfold dense_value. rewrite bucket_get.
    apply positive_bucket_density; try done. apply bucket_nonempty.
Qed.

Lemma call_same_key (h : heap) (pos n : nat) :
  heap_ok s h → h !! S i = Some (Cycle b pos) → (pos < length b)%nat →
  get_sky_inds_and_prior s h (same_key_queries key n)
  = Ok ((map (λ j, nth ((pos + j) mod length b) b O) (seq 0 n),
         replicate n (dense_value s key), replicate n true),
        <[S i := Cycle b ((pos + n) mod length b)%nat]> h).
Proof using Hc Hfs Hnsky Hdet Hi.
  intros Hh Hcur Hpos.
  destruct (query_run_spec _ _ _ _ _ Hc h (same_key_queries key n) n Hh)
    as (r & Hr & Hmask & Hprior & Hgens & _ & _ & Hrun & _).
  { unfold same_key_queries. by rewrite length_map, bucket_key_length. }
  { unfold same_key_queries. rewrite map_fmap. apply Forall_fmap.
    apply Forall_forall. intros k _. simpl. apply length_replicate. }
  rewrite columns_same_key in Hmask, Hprior, Hgens.
  assert (map (survives s) (replicate n key) = replicate n true) as Hs.
  { by rewrite map_replicate, bucket_survives. }
  rewrite Hs in Hmask, Hprior, Hgens.
  rewrite mask_select_replicate_true in Hprior, Hgens.
  rewrite map_replicate in Hprior. rewrite map_replicate in Hgens.
  rewrite bucket_generator in Hgens.
  rewrite Hgens, (fromiter_replicate h (S i) b pos n Hcur Hpos) in Hrun.
  injection Hrun as Hinds Hheap.
  unfold get_sky_inds_and_prior. rewrite Hr. simpl.
  by rewrite <- Hinds, <- Hheap, Hprior, Hmask.
Qed.

Lemma run_calls_same_key (ns : list nat) (h : heap) (pos : nat) :
  heap_ok s h → h !! S i = Some (Cycle b pos) → (pos < length b)%nat →
  ∃ outs h',
    run_calls s h (map (same_key_queries key) ns) = Ok (outs, h') ∧
    concat (map (λ o, o.1.1) outs)
    = map (λ j, nth ((pos + j) mod length b) b O) (seq 0 (sum_list ns)).
Proof using Hc Hfs Hnsky Hdet Hi.
  revert h pos; induction ns as [|n ns IH]; intros h pos Hh Hcur Hpos.
  - by exists [], h.
  - pose proof (call_same_key h pos n Hh Hcur Hpos) as Hcall.
    destruct (IH (<[S i := Cycle b ((pos + n) mod length b)%nat]> h)
                 ((pos + n) mod length b)%nat)
      as (outs & h' & Hrest & Hcat).
    + by eapply call_heap_ok.
    + apply list_lookup_insert_eq. by eapply lookup_lt_Some.
    + apply Nat.mod_upper_bound. lia.
    + eexists _, h'. cbn [map run_calls]. rewrite Hcall.
      cbn [mbind result_bind fst snd]. rewrite Hrest.
      cbn [mbind result_bind fst snd]. split; [done|].
      cbn [map concat fst sum_list sum_list_with]. rewrite Hcat.
      rewrite seq_app, map_app. f_equal. simpl.
      assert (seq n (sum_list ns) = Nat.add n <$> seq 0 (sum_list ns)) as ->.
      { rewrite fmap_add_seq. f_equal. lia. }
      rewrite !map_fmap, <- list_fmap_compose.
      apply list_fmap_ext. intros ? j _. simpl.
      rewrite Nat.Div0.add_mod_idemp_l. do 2 f_equal. lia.
Qed.
End RoundRobin.

Lemma positions_NoDup key keys : NoDup (positions key keys).
Proof. unfold positions. apply NoDup_filter, NoDup_seq. Qed.

(** C6.  On a freshly constructed engine with a positive sampling
    frequency, any sequence of calls whose queries all carry one key of
    the Delay Index returns, query after query, the members of the key's
    bucket in insertion order, starting again at the first member after
    the last: the j-th returned sample is member [j mod k] of the bucket
    of size k.  The members of a bucket are pairwise distinct, so the
    first k queries return them without repetition, and k + 1 queries
    return the bucket followed by its first member. *)
Theorem round_robin sqrtQ a e log s h0 key b ns :
  construct sqrtQ a e = (log, Ok (s, h0)) →
  externals_shaped a e →
  0 < arg_f_sampling a →
  dict_get (delays2inds_map s) key = Some b →
  ∃ outs h',
    run_calls s h0 (map (same_key_queries key) ns) = Ok (outs, h') ∧
    length (concat (map (λ o, o.1.1) outs)) = sum_list ns ∧
    (∀ j, (j < sum_list ns)%nat →
       concat (map (λ o, o.1.1) outs) !! j = b !! (j mod length b)%nat) ∧
    (sum_list ns = S (length b) →
       concat (map (λ o, o.1.1) outs) = b ++ take 1 b) ∧
    NoDup b ∧ (0 < length b)%nat.
Proof.
  intros [Hc _]%construct_Ok_inv Hsh Hfs Hget.
  pose proof (shaped_nsky _ _ _ _ _ Hc Hsh) as Hnsky.
  rewrite <- (c_fs _ _ _ _ _ Hc) in Hfs.
  assert (1 ≤ length (detector_names s))%nat as Hdet.
  { pose proof (shaped_delays_count _ _ _ _ _ Hc Hsh).
    pose proof (engine_delays_nonempty _ _ _ _ _ Hc).
    destruct (delays s); [done | simpl in *; lia]. }
  destruct (dict_index_lookup _ _ _ Hget) as (i & _ & Hi).
  pose proof (bucket_nonempty _ _ _ _ _ Hc key b i Hi) as Hk.
  pose proof (engine_heap_init _ _ _ _ _ Hc) as Hh.
  assert (h0 !! S i = Some (Cycle b O)) as Hcur.
  { destruct (fill_ind_generators_writes _ _ _ _ (c_gens _ _ _ _ _ Hc)) as [_ ->].
    simpl. rewrite map_fmap, list_lookup_fmap, Hi. done. }
  destruct (run_calls_same_key _ _ _ _ _ Hc Hfs Hnsky Hdet key b i Hi ns h0 O Hh Hcur Hk)
    as (outs & h' & Hrun & Hcat).
  assert (∀ j, (j < sum_list ns)%nat →
            concat (map (λ o, o.1.1) outs) !! j = b !! (j mod length b)%nat) as Hj.
  { intros j Hlt. rewrite Hcat, map_fmap, list_lookup_fmap, lookup_seq_lt by done.
    simpl. rewrite nth_lookup.
    destruct (lookup_lt_is_Some_2 b (j mod length b)%nat) as [x Hx];
      [apply Nat.mod_upper_bound; lia|].
    by rewrite Hx. }
  assert (length (concat (map (λ o, o.1.1) outs)) = sum_list ns) as Hlen.
  { by rewrite Hcat, length_map, length_seq. }
  exists outs, h'. split_and!; try done.
  - intros Hsum. apply list_eq. intros j.
    destruct (decide (j < sum_list ns)%nat) as [Hlt|Hge].
    + rewrite (Hj j Hlt). rewrite Hsum in Hlt.
      destruct (decide (j < length b)%nat) as [Hjb|Hjb].
      * by rewrite Nat.mod_small, lookup_app_l by done.
      * assert (j = length b) as -> by lia.
        rewrite Nat.Div0.mod_same, lookup_app_r, Nat.sub_diag by lia.
        rewrite lookup_take_lt by lia. done.
    + rewrite !(proj2 (lookup_ge_None _ _)); [done | | lia].
      rewrite length_app, length_take. lia.
  - rewrite (engine_index _ _ _ _ _ Hc), build_index_get in Hget.
    case_decide; [done|]. injection Hget as <-. apply positions_NoDup.
Qed.

(** C6 at a two-detector engine: the bucket of key 0 holds samples 1 and
    2; a call with one query and a call with two. *)
Lemma round_robin_witness :
  ∃ outs h',
    run_calls Examples.built_HL.1 Examples.built_HL.2
      (map (same_key_queries [0]) [1; 2]%nat) = Ok (outs, h') ∧
    length (concat (map (λ o, o.1.1) outs)) = sum_list [1; 2]%nat ∧
    (∀ j, (j < sum_list [1; 2])%nat →
       concat (map (λ o, o.1.1) outs) !! j
       = [1; 2]%nat !! (j mod length [1; 2]%nat)%nat) ∧
    (sum_list [1; 2]%nat = S (length [1; 2]%nat) →
       concat (map (λ o, o.1.1) outs) = [1; 2]%nat ++ take 1 [1; 2]%nat) ∧
    NoDup [1; 2]%nat ∧ (0 < length [1; 2]%nat)%nat.
Proof.
  apply (round_robin isqrtQ Examples.args_HL Examples.ext_HL
           all_attributes Examples.built_HL.1 Examples.built_HL.2).
  - vm_compute. reflexivity.
  - split; [reflexivity | repeat constructor].
  - reflexivity.
  - reflexivity.
Defined.

(** ** The delay index of a constructed engine *)

(** C5.  For a constructed engine whose external arrays have the
    documented shape and every sample index i in [0, nsky): the
    discretized relative delay vector of sample i (column i of the
    discretized [delays]) is a key of [delays2inds_map], the list stored
    under it contains i, no other key's list contains i, and no list
    contains an index twice. *)
Theorem coverage_invariant sqrtQ a e log s h0 i :
  construct sqrtQ a e = (log, Ok (s, h0)) →
  externals_shaped a e →
  Z.of_nat i < nsky s →
  ∃ b, dict_get (delays2inds_map s)
                (column 0 (_discretize (f_sampling s) (delays s)) i) = Some b ∧
    i ∈ b ∧ NoDup b ∧
    ∀ key' b', dict_get (delays2inds_map s) key' = Some b' → i ∈ b' →
               key' = column 0 (_discretize (f_sampling s) (delays s)) i.
Proof.
  intros [Hc _]%construct_Ok_inv Hsh Hi.
  set (key := column 0 (_discretize (f_sampling s) (delays s)) i).
  assert (sample_keys s !! i = Some key) as Hkey.
  { rewrite (shaped_sample_keys _ _ _ _ _ Hc Hsh), map_fmap, list_lookup_fmap.
    rewrite lookup_seq_lt by lia. done. }
  rewrite (engine_index _ _ _ _ _ Hc).
  exists (positions key (sample_keys s)).
  apply elem_of_positions in Hkey as Hpos.
  split_and!.
  - rewrite build_index_get. case_decide as Hnil; [|done].
    rewrite Hnil in Hpos. by apply elem_of_nil in Hpos.
  - done.
  - apply positions_NoDup.
  - intros key' b'. rewrite build_index_get. case_decide; [done|].
    intros [= <-] Hi'%elem_of_positions. congruence.
Qed.

(** C5 at sample 3 of a two-detector engine. *)
Lemma coverage_invariant_witness :
  ∃ b, dict_get (delays2inds_map Examples.built_HL.1)
         (column 0 (_discretize (f_sampling Examples.built_HL.1)
                                (delays Examples.built_HL.1)) 3) = Some b ∧
    3%nat ∈ b ∧ NoDup b ∧
    ∀ key' b', dict_get (delays2inds_map Examples.built_HL.1) key' = Some b' →
               3%nat ∈ b' →
               key' = column 0 (_discretize (f_sampling Examples.built_HL.1)
                                            (delays Examples.built_HL.1)) 3.
Proof.
  apply (coverage_invariant isqrtQ Examples.args_HL Examples.ext_HL all_attributes
           Examples.built_HL.1 Examples.built_HL.2).
  - vm_compute. reflexivity.
  - split; [reflexivity | repeat constructor].
  - reflexivity.
Defined.

Lemma Qsum_fractions (l : list nat) (n : Z) :
  (Qsum (map (λ k, inject_Z (Z.of_nat k) / inject_Z n) l)
   == inject_Z (Z.of_nat (sum_list l)) / inject_Z n)%Q.
Proof.
  induction l as [|k l IH]; simpl.
  - unfold Qdiv. ring.
  - rewrite IH, Nat2Z.inj_add, inject_Z_plus. unfold Qdiv. ring.
Qed.

Lemma Qsum_densities fs n_det n_sky (d : pydict (list Z) (list nat)) :
  (Qsum (map (λ item, bucket_density fs n_det n_sky (length item.2)) d)
   == inject_Z (fs ^ (Z.of_nat n_det - 1))
      * Qsum (map (λ k, inject_Z (Z.of_nat k) / inject_Z n_sky) (bucket_sizes d)))%Q.
Proof.
  unfold bucket_sizes. induction d as [|[k b] d IH]; simpl.
  - ring.
  - rewrite IH. unfold bucket_density. rewrite inject_Z_mult.
    unfold Qdiv. ring.
Qed.

(** C8.  For a constructed engine whose external arrays have the
    documented shape, the bucket sizes of the Delay Index sum to nsky, the
    sum of [bucket_size / nsky] over the populated keys is the rational 1,
    and the entries of the Dense Prior Array at the populated keys sum to
    [f_sampling ^ (n_det - 1)]. *)
Theorem density_normalization sqrtQ a e log s h0 :
  construct sqrtQ a e = (log, Ok (s, h0)) →
  externals_shaped a e →
  Z.of_nat (sum_list (bucket_sizes (delays2inds_map s))) = nsky s ∧
  (Qsum (bucket_fractions s) == 1)%Q ∧
  ∃ stored,
    mapR (nd_get (_sky_prior s)) (map fst (delays2inds_map s)) = Ok stored ∧
    (Qsum stored
     == inject_Z (f_sampling s ^ (Z.of_nat (length (detector_names s)) - 1)))%Q.
Proof.
  intros [Hc _]%construct_Ok_inv Hsh.
  pose proof (shaped_nsky _ _ _ _ _ Hc Hsh) as Hn.
  assert (Z.of_nat (sum_list (bucket_sizes (delays2inds_map s))) = nsky s) as Hsum.
  { rewrite (engine_index _ _ _ _ _ Hc), build_index_sizes.
    rewrite (shaped_sample_keys _ _ _ _ _ Hc Hsh), length_map, length_seq. lia. }
  assert (Qsum (bucket_fractions s) == 1)%Q as Hone.
  { unfold bucket_fractions. rewrite Qsum_fractions, Hsum.
    apply Qmult_inv_r. rewrite Qnonzero_num. simpl. lia. }
  split_and!; [done | done |].
  exists (map (λ item, bucket_density (f_sampling s) (length (detector_names s))
                         (nsky s) (length item.2)) (delays2inds_map s)).
  split.
  - rewrite mapR_Ok_fmap with (g := dense_value s).
    + f_equal. rewrite map_map. apply map_ext_in. intros [k b] Hkb. simpl.
      unfold dense_value.
      rewrite (elem_of_dict_get _ k b (engine_index_NoDup _ _ _ _ _ Hc)); [done|].
      by apply list_elem_of_In.
    + apply Forall_forall. intros k Hk.
      apply (engine_prior_get _ _ _ _ _ Hc).
      by apply (engine_key_within _ _ _ _ _ Hc).
  - rewrite Qsum_densities. fold (bucket_fractions s). rewrite Hone. ring.
Qed.

(** C8 at a two-detector engine with four samples in three buckets. *)
Lemma density_normalization_witness :
  Z.of_nat (sum_list (bucket_sizes (delays2inds_map Examples.built_HL.1)))
  = nsky Examples.built_HL.1 ∧
  (Qsum (bucket_fractions Examples.built_HL.1) == 1)%Q ∧
  ∃ stored,
    mapR (nd_get (_sky_prior Examples.built_HL.1))
         (map fst (delays2inds_map Examples.built_HL.1)) = Ok stored ∧
    (Qsum stored
     == inject_Z (f_sampling Examples.built_HL.1
                  ^ (Z.of_nat (length (detector_names Examples.built_HL.1)) - 1)))%Q.
Proof.
  apply (density_normalization isqrtQ Examples.args_HL Examples.ext_HL
           all_attributes Examples.built_HL.1 Examples.built_HL.2).
  - vm_compute. reflexivity.
  - split; [reflexivity | repeat constructor].
Defined.

(** C2.  For a constructed engine: at every key produced by at least one
    sky sample the Dense Prior Array holds
    [f_sampling ^ (n_det - 1) * bucket_size / nsky], where the bucket is
    the list of the samples with that key; at every key of the Delay Range
    that no sample produces it holds zero. *)
Theorem sky_prior_entries sqrtQ a e log s h0 :
  construct sqrtQ a e = (log, Ok (s, h0)) →
  (∀ key, key ∈ sample_keys s →
     dict_get (delays2inds_map s) key = Some (positions key (sample_keys s)) ∧
     nd_get (_sky_prior s) key
     = Ok (inject_Z (f_sampling s ^ (Z.of_nat (length (detector_names s)) - 1)
                     * Z.of_nat (length (positions key (sample_keys s))))
           / inject_Z (nsky s))%Q) ∧
  (∀ key, within (_min_delay s) (_max_delay s) key → key ∉ sample_keys s →
     nd_get (_sky_prior s) key = Ok 0%Q).
Proof.
  intros [Hc _]%construct_Ok_inv. split.
  - intros key Hkey.
    assert (dict_get (delays2inds_map s) key = Some (positions key (sample_keys s)))
      as Hget.
    { rewrite (engine_index _ _ _ _ _ Hc), build_index_get.
      case_decide as Hnil; [|done].
      apply list_elem_of_lookup_1 in Hkey as [i Hi].
      apply elem_of_positions in Hi. rewrite Hnil in Hi.
      by apply elem_of_nil in Hi. }
    split; [done|].
    rewrite (engine_prior_get _ _ _ _ _ Hc).
    + unfold dense_value. by rewrite Hget.
    + apply (engine_key_within _ _ _ _ _ Hc).
      by rewrite (engine_index _ _ _ _ _ Hc), build_index_keys.
  - intros key Hin Hnot.
    rewrite (engine_prior_get _ _ _ _ _ Hc) by done.
    unfold dense_value.
    assert (dict_get (delays2inds_map s) key = None) as ->; [|done].
    apply dict_get_None.
    by rewrite (engine_index _ _ _ _ _ Hc), build_index_keys.
Qed.

(** C2 at a two-detector engine. *)
Lemma sky_prior_entries_witness :
  (∀ key, key ∈ sample_keys Examples.built_HL.1 →
     dict_get (delays2inds_map Examples.built_HL.1) key
     = Some (positions key (sample_keys Examples.built_HL.1)) ∧
     nd_get (_sky_prior Examples.built_HL.1) key
     = Ok (inject_Z (f_sampling Examples.built_HL.1
                       ^ (Z.of_nat (length (detector_names Examples.built_HL.1)) - 1)
                     * Z.of_nat (length (positions key (sample_keys Examples.built_HL.1))))
           / inject_Z (nsky Examples.built_HL.1))%Q) ∧
  (∀ key, within (_min_delay Examples.built_HL.1) (_max_delay Examples.built_HL.1) key →
          key ∉ sample_keys Examples.built_HL.1 →
     nd_get (_sky_prior Examples.built_HL.1) key = Ok 0%Q).
Proof.
  apply (sky_prior_entries isqrtQ Examples.args_HL Examples.ext_HL all_attributes
           Examples.built_HL.1 Examples.built_HL.2).
  vm_compute. reflexivity.
Defined.

(** ** How the dense arrays are addressed *)

Lemma writes_shape {V} (items : pydict (list Z) V) (a a' : ndarray V) :
  writes a items = Ok a' → nd_shape a' = nd_shape a.
Proof.
  revert a; induction items as [|[k v] items IH]; intros a Ha.
  - by injection Ha as <-.
  - unfold writes in Ha. simpl in Ha.
    apply bind_Ok_inv in Ha as (a1 & Hset & Ha).
    unfold nd_set in Hset. apply bind_Ok_inv in Hset as (c & Hc & [= <-]).
    by rewrite (IH _ Ha).
Qed.

Lemma nd_cell_numpy (mn mx key : list Z) :
  within mn mx key → indexable mn mx →
  nd_cell (dense_shape mn mx) key = Ok (numpy_cell (dense_shape mn mx) key).
Proof.
  intros [H1 H2] [I1 I2]. revert mx H2 I1 I2.
  induction H1 as [|m k mn key Hmk H1 IH]; intros mx H2 I1 I2.
  - by apply Forall2_nil_inv_l in H2 as ->.
  - apply Forall2_cons_inv_l in H2 as (M & mx' & HkM & H2 & ->).
    apply Forall_cons in I1 as [Hm I1]. apply Forall_cons in I2 as [HM I2].
    specialize (IH mx' H2 I1 I2).
    unfold dense_shape, numpy_cell in *. simpl. rewrite IH.
    case_decide.
    + by rewrite (proj2 (normalize_index_Ok _ k k)) by (left; lia).
    + by rewrite (proj2 (normalize_index_Ok _ k (k + (M - m + 1)))) by (right; lia).
Qed.

Section Shapes.
Context (sqrtQ : Q → Q) (a : init_args) (e : externals).
Context (s : SkyDictionary) (h0 : heap).
Hypothesis Hc : constructed sqrtQ a e s h0.

Lemma engine_prior_shape :
  nd_shape (_sky_prior s) = dense_shape (_min_delay s) (_max_delay s).
Proof.
  pose proof (c_prior _ _ _ _ _ Hc) as Hp.
  rewrite fill_sky_prior_writes in Hp by apply (engine_nsky _ _ _ _ _ Hc).
  by apply writes_shape in Hp.
Qed.

Lemma engine_generators_shape :
  nd_shape (_ind_generators s) = dense_shape (_min_delay s) (_max_delay s).
Proof.
  destruct (fill_ind_generators_writes _ _ _ _ (c_gens _ _ _ _ _ Hc)) as [Hw _].
  by apply writes_shape in Hw.
Qed.
End Shapes.

(** C4, as the code has it.  For a constructed engine and every key of
    the Delay Range: both dense arrays address the key's entry at the same
    cell, the one numpy's index rule gives for the key itself (a
    non-negative component as it is, a negative one counted from the end
    of its axis); no other key of the range addresses that cell; and what
    is read at the key is the entry stored for it, the density of its
    bucket and the cursor of its bucket (zero and the shared exhausted
    iterator for a key without bucket). *)
Theorem dense_arrays_addressing sqrtQ a e log s h0 key :
  construct sqrtQ a e = (log, Ok (s, h0)) →
  within (_min_delay s) (_max_delay s) key →
  nd_cell (nd_shape (_sky_prior s)) key
    = Ok (numpy_cell (dense_shape (_min_delay s) (_max_delay s)) key) ∧
  nd_cell (nd_shape (_ind_generators s)) key
    = Ok (numpy_cell (dense_shape (_min_delay s) (_max_delay s)) key) ∧
  (∀ key', within (_min_delay s) (_max_delay s) key' →
     nd_cell (nd_shape (_sky_prior s)) key'
       = Ok (numpy_cell (dense_shape (_min_delay s) (_max_delay s)) key) →
     key' = key) ∧
  nd_get (_sky_prior s) key = Ok (dense_value s key) ∧
  nd_get (_ind_generators s) key = Ok (dense_generator s key).
Proof.
  intros [Hc _]%construct_Ok_inv Hkey.
  pose proof (engine_indexable _ _ _ _ _ Hc) as Hidx.
  rewrite (engine_prior_shape _ _ _ _ _ Hc), (engine_generators_shape _ _ _ _ _ Hc).
  pose proof (nd_cell_numpy _ _ _ Hkey Hidx) as Hcell.
  split_and!; try done.
  - intros key' Hkey' Hcell'. by eapply nd_cell_inj.
  - by apply (engine_prior_get _ _ _ _ _ Hc).
  - by apply (engine_generator_get _ _ _ _ _ Hc).
Qed.

(** C4 at key -1 of a two-detector engine with Delay Range [-1, 1]. *)
Lemma dense_arrays_addressing_witness :
  nd_cell (nd_shape (_sky_prior Examples.built_HL.1)) [-1]
    = Ok (numpy_cell (dense_shape (_min_delay Examples.built_HL.1)
                                  (_max_delay Examples.built_HL.1)) [-1]) ∧
  nd_cell (nd_shape (_ind_generators Examples.built_HL.1)) [-1]
    = Ok (numpy_cell (dense_shape (_min_delay Examples.built_HL.1)
                                  (_max_delay Examples.built_HL.1)) [-1]) ∧
  (∀ key', within (_min_delay Examples.built_HL.1) (_max_delay Examples.built_HL.1) key' →
     nd_cell (nd_shape (_sky_prior Examples.built_HL.1)) key'
       = Ok (numpy_cell (dense_shape (_min_delay Examples.built_HL.1)
                                     (_max_delay Examples.built_HL.1)) [-1]) →
     key' = [-1]) ∧
  nd_get (_sky_prior Examples.built_HL.1) [-1]
    = Ok (dense_value Examples.built_HL.1 [-1]) ∧
  nd_get (_ind_generators Examples.built_HL.1) [-1]
    = Ok (dense_generator Examples.built_HL.1 [-1]).
Proof.
  apply (dense_arrays_addressing isqrtQ Examples.args_HL Examples.ext_HL
           all_attributes Examples.built_HL.1 Examples.built_HL.2).
  - vm_compute. reflexivity.
  - split; repeat constructor; lia.
Defined.

(** C4 as stated fails: in the two-detector engine with Delay Range
    [-1, 1] the key -1 lies in the range, but its entry is addressed at
    cell 2, not at cell 0 = key - minimum; cell 0 holds the entry of key
    0 (density 2/4, a bucket of two samples), while the entry of key -1
    is 1/4. *)
Lemma offset_addressing_counterexample :
  ∃ log s h,
    construct isqrtQ Examples.args_HL Examples.ext_HL = (log, Ok (s, h)) ∧
    within (_min_delay s) (_max_delay s) [-1] ∧
    offset_cell (_min_delay s) [-1] = [0] ∧
    nd_cell (nd_shape (_sky_prior s)) [-1] = Ok [2] ∧
    nd_cell (nd_shape (_ind_generators s)) [-1] = Ok [2] ∧
    nd_cell (nd_shape (_sky_prior s)) [-1] ≠ Ok (offset_cell (_min_delay s) [-1]) ∧
    nd_get (_sky_prior s) [-1] = Ok (1 # 4)%Q ∧
    nd_cells (_sky_prior s) !! offset_cell (_min_delay s) [-1] = Some (2 # 4)%Q.
Proof.
  exists all_attributes, Examples.built_HL.1, Examples.built_HL.2.
  split_and!; try (vm_compute; reflexivity).
  - split; repeat constructor; lia.
  - vm_compute. discriminate.
Qed.

(** ** The conditional delay-prior table *)

Lemma elem_of_permutations (pool order : list nat) (r : nat) :
  order ∈ permutations pool r ↔
  length order = r ∧ NoDup order ∧ Forall (λ x, x ∈ pool) order.
Proof.
  revert pool order; induction r as [|r IH]; intros pool order; simpl.
  - rewrite list_elem_of_singleton. split.
    + intros ->. split_and!; [done | constructor | constructor].
    + intros (Hl & _ & _). by destruct order.
  - rewrite list_elem_of_In, in_flat_map. split.
    + intros (x & Hx%list_elem_of_In & Ho%list_elem_of_In).
      rewrite map_fmap in Ho. apply list_elem_of_fmap in Ho as (o' & -> & Ho').
      apply IH in Ho' as (Hl & Hnd & Hall).
      rewrite Forall_forall in Hall.
      split_and!; [simpl; lia | |].
      * constructor; [|done].
        intros Hin. apply Hall, list_elem_of_filter in Hin as [Hne _]. done.
      * constructor; [done|]. apply Forall_forall. intros y Hy.
        by apply Hall, list_elem_of_filter in Hy as [_ ?].
    + intros (Hl & Hnd & Hall). destruct order as [|x o']; [done|].
      apply NoDup_cons in Hnd as [Hx Hnd].
      apply Forall_cons in Hall as [Hxp Hall].
      exists x. split; [by apply list_elem_of_In|].
      apply list_elem_of_In. rewrite map_fmap. apply list_elem_of_fmap.
      exists o'. split; [done|]. apply IH.
      split_and!; [simpl in Hl; lia | done |].
      rewrite Forall_forall in Hall. apply Forall_forall. intros y Hy.
      apply list_elem_of_filter. split; [|by apply Hall].
      by intros ->.
Qed.

(** The orders of the double loop are the duplicate-free tuples of at
    least two detector indices. *)
Lemma elem_of_detector_orders (n_det : nat) (order : list nat) :
  order ∈ detector_orders n_det ↔
  (2 ≤ length order)%nat ∧ NoDup order ∧ Forall (λ x, (x < n_det)%nat) order.
Proof.
  unfold detector_orders. rewrite list_elem_of_In, in_flat_map. split.
  - intros (r & Hr%list_elem_of_In & Ho%list_elem_of_In).
    apply elem_of_seq in Hr. apply elem_of_permutations in Ho as (Hl & Hnd & Hall).
    split_and!; [lia | done |].
    eapply Forall_impl; [exact Hall|]. simpl. intros x Hx%elem_of_seq. lia.
  - intros (Hl & Hnd & Hall).
    assert (length order ≤ n_det)%nat as Hle.
    { rewrite <- (length_seq n_det 0). apply submseteq_length, NoDup_submseteq; [done|].
      intros x Hx. rewrite Forall_forall in Hall. apply elem_of_seq.
      specialize (Hall x Hx). lia. }
    exists (length order). split; apply list_elem_of_In.
    + apply elem_of_seq. lia.
    + apply elem_of_permutations. split_and!; [done..|].
      eapply Forall_impl; [exact Hall|]. simpl. intros x Hx. apply elem_of_seq. lia.
Qed.

Lemma dict_get_set {K V} `{EqDecision K} (d : pydict K V) (k key : K) (v : V) :
  dict_get (dict_set d k v) key
  = if decide (k = key) then Some v else dict_get d key.
Proof.
  induction d as [|[k' v'] d IH]; simpl.
  - done.
  - destruct (decide (k' = k)) as [->|Hne]; simpl.
    + repeat case_decide; congruence.
    + rewrite IH. repeat case_decide; congruence.
Qed.

Lemma delays_prior_step_Ok fs g weights st order st' :
  delays_prior_step fs g weights st order = Ok st' →
  ∃ hist, delays_histogram fs g weights order = Ok hist ∧
          st'.2 = dict_set st.2 order hist.
Proof.
  unfold delays_prior_step, delays_histogram.
  intros (pairwise & Hp & Hst)%bind_Ok_inv. rewrite Hp. simpl.
  apply bind_Ok_inv in Hst as (bins & Hb & Hst). rewrite Hb. simpl.
  eexists. split; [done|].
  case_decide.
  - apply bind_Ok_inv in Hst as (lo & _ & Hst).
    apply bind_Ok_inv in Hst as (hi & _ & [= <-]). done.
  - by injection Hst as <-.
Qed.

Lemma delays_prior_table fs g weights orders st st' :
  foldM (delays_prior_step fs g weights) st orders = Ok st' →
  (∀ o hist, dict_get st.2 o = Some hist → delays_histogram fs g weights o = Ok hist) →
  (∀ o hist, dict_get st'.2 o = Some hist → delays_histogram fs g weights o = Ok hist) ∧
  (∀ o, o ∈ orders ∨ is_Some (dict_get st.2 o) → is_Some (dict_get st'.2 o)).
Proof.
  revert st; induction orders as [|o1 orders IH]; intros st Hst Hinv.
  - injection Hst as <-. split; [done|].
    intros o [?%elem_of_nil|?]; done.
  - simpl in Hst. apply bind_Ok_inv in Hst as (st1 & Hstep & Hst).
    apply delays_prior_step_Ok in Hstep as (hist1 & Hh1 & Hst1).
    destruct (IH st1 Hst) as [Hinv' Hsome].
    { intros o hist. rewrite Hst1, dict_get_set. case_decide; [|by apply Hinv].
      intros [= <-]. by subst. }
    split; [done|]. intros o Ho. apply Hsome.
    rewrite Hst1, dict_get_set.
    destruct (decide (o1 = o)) as [->|Hne]; [by right|].
    destruct Ho as [[->|Ho]%elem_of_cons|Ho]; [done | by left | by right].
Qed.

(** C3, as the code has it.  For a constructed engine and every ordered
    tuple of k >= 2 distinct detector indices, the table holds under that
    tuple the histogram of the tuple's discretized relative delays in
    which sample i carries the weight [antenna_weights[i]]: the cube of
    the square root of the sum of the squares of all antenna coefficients
    of sample i, over every detector of the network, the same for every
    tuple. *)
Theorem delays_prior_weights sqrtQ a e log s h0 order :
  construct sqrtQ a e = (log, Ok (s, h0)) →
  (2 ≤ length order)%nat → NoDup order →
  Forall (λ x, (x < length (detector_names s))%nat) order →
  antenna_weights sqrtQ (fplus_fcross_0 s)
    = map (λ m, sqrtQ (Qsum (map (λ x, x * x) (concat m))) ^ 3)%Q (fplus_fcross_0 s) ∧
  ∃ pairwise bins,
    pairwise_delays_of (f_sampling s) (ext_geocenter_delays e) order = Ok pairwise ∧
    half_integer_bins pairwise = Ok bins ∧
    dict_get (delays_prior s) order
    = Some (histogramdd (zip_star pairwise)
              (antenna_weights sqrtQ (fplus_fcross_0 s)) bins).
Proof.
  intros [Hc _]%construct_Ok_inv Hl Hnd Hall.
  split.
  { unfold antenna_weights, norm_axis12. by rewrite map_map. }
  destruct (delays_prior_table _ _ _ _ _ _ (c_tables _ _ _ _ _ Hc)) as [Hinv Hsome];
    [done|].
  destruct (Hsome order) as [hist Hhist].
  { left. by apply elem_of_detector_orders. }
  simpl in Hhist. pose proof (Hinv _ _ Hhist) as Hh.
  unfold delays_histogram in Hh.
  apply bind_Ok_inv in Hh as (pairwise & Hp & Hh).
  apply bind_Ok_inv in Hh as (bins & Hb & [= <-]).
  by exists pairwise, bins.
Qed.

(** C3 at the pair (H, L) of a three-detector engine. *)
Lemma delays_prior_weights_witness :
  antenna_weights isqrtQ (fplus_fcross_0 Examples.built_HLV.1)
    = map (λ m, isqrtQ (Qsum (map (λ x, x * x) (concat m))) ^ 3)%Q
          (fplus_fcross_0 Examples.built_HLV.1) ∧
  ∃ pairwise bins,
    pairwise_delays_of (f_sampling Examples.built_HLV.1)
      (ext_geocenter_delays Examples.ext_HLV) [0; 1]%nat = Ok pairwise ∧
    half_integer_bins pairwise = Ok bins ∧
    dict_get (delays_prior Examples.built_HLV.1) [0; 1]%nat
    = Some (histogramdd (zip_star pairwise)
              (antenna_weights isqrtQ (fplus_fcross_0 Examples.built_HLV.1)) bins).
Proof.
  apply (delays_prior_weights isqrtQ Examples.args_HLV Examples.ext_HLV
           all_attributes Examples.built_HLV.1 Examples.built_HLV.2).
  - vm_compute. reflexivity.
  - simpl. lia.
  - apply (bool_decide_eq_true_1 (NoDup [0; 1]%nat)). reflexivity.
  - repeat constructor.
Defined.

(** C3 as stated fails: in a three-detector network whose single sample
    has antenna coefficients (3, 0), (0, 0), (4, 0), the histogram of the
    pair (H, L) gives the sample the weight 125 = 5^3, the cubed norm over
    all three detectors, not 27 = 3^3, the cubed norm over H and L. *)
Lemma subset_weights_counterexample :
  ∃ log s h pairwise bins,
    construct isqrtQ Examples.args_HLV Examples.ext_HLV = (log, Ok (s, h)) ∧
    [0; 1]%nat ∈ detector_orders (length (detector_names s)) ∧
    pairwise_delays_of (f_sampling s) (ext_geocenter_delays Examples.ext_HLV)
      [0; 1]%nat = Ok pairwise ∧
    half_integer_bins pairwise = Ok bins ∧
    antenna_weights isqrtQ (fplus_fcross_0 s) = [125%Q] ∧
    subset_weights isqrtQ (fplus_fcross_0 s) [0; 1]%nat = [27%Q] ∧
    dict_get (delays_prior s) [0; 1]%nat
      = Some (histogramdd (zip_star pairwise) [125%Q] bins) ∧
    dict_get (delays_prior s) [0; 1]%nat
      ≠ Some (histogramdd (zip_star pairwise)
                (subset_weights isqrtQ (fplus_fcross_0 s) [0; 1]%nat) bins).
Proof.
  exists all_attributes, Examples.built_HLV.1, Examples.built_HLV.2.
  eexists _, _.
  split_and!; try (vm_compute; reflexivity).
  - apply elem_of_detector_orders. split_and!; [simpl; lia | | repeat constructor].
    apply (bool_decide_eq_true_1 (NoDup [0; 1]%nat)). reflexivity.
  - intros Heq.
    apply (f_equal (λ o, match o with
                         | Some hist => nd_cells hist !! [0]
                         | None => None
                         end)) in Heq.
    vm_compute in Heq. discriminate.
Qed.

(** ** When the constructor returns *)

Lemma construct_stages sqrtQ a e g0 mn mx tables gens h prior :
  let fs := arg_f_sampling a in
  let dl := rows_minus (drop 1 (ext_geocenter_delays e)) g0 in
  let d2i := _create_delays2inds_map fs dl in
  row_get (ext_geocenter_delays e) 0 = Ok g0 →
  np_min_axis0 (map fst d2i) = Ok mn →
  np_max_axis0 (map fst d2i) = Ok mx →
  foldM (delays_prior_step fs (ext_geocenter_delays e)
           (antenna_weights sqrtQ (ext_fplus_fcross_0 e)))
        ([], []) (detector_orders (length (arg_detector_names a))) = Ok tables →
  fill_ind_generators (dense_shape mn mx) d2i = Ok (gens, h) →
  fill_sky_prior fs (length (arg_detector_names a)) (arg_nsky a)
    (dense_shape mn mx) d2i = Ok prior →
  ∃ s, construct sqrtQ a e = (all_attributes, Ok (s, h)).
Proof.
  intros fs dl d2i Hg0 Hmn Hmx Htab Hgens Hprior.
  unfold construct, init.
  unfold mbind, Init_bind, mret, Init_ret, assign, lift. simpl.
  rewrite Hg0. fold fs dl d2i. rewrite Hmn, Hmx, Htab.
  unfold dense_shape in Hgens, Hprior. rewrite Hgens, Hprior. simpl.
  by eexists.
Qed.

Lemma construct_empty_index sqrtQ a e g0 :
  row_get (ext_geocenter_delays e) 0 = Ok g0 →
  _create_delays2inds_map (arg_f_sampling a)
    (rows_minus (drop 1 (ext_geocenter_delays e)) g0) = [] →
  ∃ msg, construct sqrtQ a e = (attributes_before_range, Raise (ValueError msg)).
Proof.
  intros Hg0 Hnil. unfold construct, init.
  unfold mbind, Init_bind, mret, Init_ret, assign, lift. simpl.
  rewrite Hg0, Hnil. simpl. by eexists.
Qed.

Lemma build_index_nil keys : build_index keys = [] ↔ keys = [].
Proof.
  split; [|by intros ->].
  intros Hnil. destruct keys as [|k keys]; [done|].
  assert (k ∈ map fst (build_index (k :: keys))) as Hk
    by (apply build_index_keys; left).
  rewrite Hnil in Hk. by apply elem_of_nil in Hk.
Qed.

Lemma mapR_Ok_exists {A B} (f : A → result B) (xs : list A) :
  Forall (λ x, ∃ y, f x = Ok y) xs →
  ∃ ys, mapR f xs = Ok ys ∧ Forall2 (λ x y, f x = Ok y) xs ys.
Proof.
  induction 1 as [|x xs [y Hy] _ (ys & Hys & Hall)]; simpl.
  - exists []. by split.
  - exists (y :: ys). rewrite Hy, Hys. split; [done | by constructor].
Qed.

Lemma np_min_Ok (row : list Z) : row ≠ [] → ∃ x, np_min row = Ok x.
Proof. destruct row; [done | by eexists]. Qed.

Lemma np_max_Ok (row : list Z) : row ≠ [] → ∃ x, np_max row = Ok x.
Proof. destruct row; [done | by eexists]. Qed.

(** The loop over the permutations does not raise when the delay array
    has a row for every detector and at least one sample. *)
Lemma delays_prior_loop_Ok fs (g : list (list Q)) weights (n : nat) orders st :
  Forall (λ row, length row = S n) g →
  Forall (λ o, (2 ≤ length o)%nat ∧ Forall (λ x, (x < length g)%nat) o) orders →
  ∃ st', foldM (delays_prior_step fs g weights) st orders = Ok st'.
Proof.
  intros Hg Horders. revert st.
  induction Horders as [|o orders [Hlen Ho] _ IH]; intros st; simpl.
  - by eexists.
  - assert (∃ st1, delays_prior_step fs g weights st o = Ok st1) as [st1 ->];
      [|apply IH].
    unfold delays_prior_step, pairwise_delays_of.
    destruct o as [|x0 [|x1 o]]; simpl in Hlen; try lia.
    apply Forall_cons in Ho as [Hx0 Ho].
    destruct (mapR_Ok_exists (row_get g) (x1 :: o)) as (rows & Hrows & Hall).
    { eapply Forall_impl; [exact Ho|]. simpl. intros x Hx.
      destruct (lookup_lt_is_Some_2 g x Hx) as [r Hr].
      exists r. unfold row_get. by rewrite Hr. }
    change (drop 1 (x0 :: x1 :: o)) with (x1 :: o). rewrite Hrows. simpl.
    destruct (lookup_lt_is_Some_2 g x0 Hx0) as [r0 Hr0].
    unfold row_get at 1. rewrite Hr0. simpl.
    set (pairwise := _discretize fs (rows_minus rows r0)).
    assert (Forall (λ r, length r = S n) pairwise) as Hpw.
    { unfold pairwise, _discretize. rewrite map_fmap. apply Forall_fmap.
      assert (Forall (λ r, length r = S n) rows) as Hrl.
      { apply Forall_forall. intros r Hr.
        apply list_elem_of_lookup_1 in Hr as [j Hj].
        destruct (Forall2_lookup_r _ _ _ _ _ Hall Hj) as (x & _ & Hx).
        unfold row_get in Hx. destruct (g !! x) as [r'|] eqn:Hgx; [|done].
        injection Hx as ->. rewrite Forall_lookup in Hg. by apply (Hg _ _ Hgx). }
      assert (length r0 = S n) as Hr0l.
      { rewrite Forall_lookup in Hg. by apply (Hg _ _ Hr0). }
      eapply Forall_impl; [exact (rows_minus_lengths rows r0 (S n) Hrl Hr0l)|].
      simpl. intros r Hr. by rewrite length_map. }
    assert (pairwise ≠ []) as Hne.
    { unfold pairwise, _discretize, rows_minus.
      apply Forall2_length in Hall. destruct rows; [done | done]. }
    destruct (mapR_Ok_exists np_min pairwise) as (los & Hlos & _).
    { eapply Forall_impl; [exact Hpw|]. simpl. intros r Hr.
      apply np_min_Ok. by destruct r. }
    destruct (mapR_Ok_exists np_max pairwise) as (his & Hhis & _).
    { eapply Forall_impl; [exact Hpw|]. simpl. intros r Hr.
      apply np_max_Ok. by destruct r. }
    unfold half_integer_bins. rewrite Hlos, Hhis. simpl.
    case_decide; [|by eexists].
    assert (concat pairwise ≠ []) as Hcat.
    { destruct pairwise as [|r pw]; [done|].
      apply Forall_cons in Hpw as [Hr _]. by destruct r. }
    destruct (np_min_Ok _ Hcat) as [lo ->]. destruct (np_max_Ok _ Hcat) as [hi ->].
    simpl. by eexists.
Qed.

Lemma writes_Ok {V} (mn mx : list Z) (items : pydict (list Z) V) (a : ndarray V) :
  nd_shape a = dense_shape mn mx → indexable mn mx →
  Forall (λ item, within mn mx item.1) items → NoDup (map fst items) →
  ∃ a', writes a items = Ok a'.
Proof.
  intros Hs Hi Hw Hnd.
  destruct (writes_get mn mx items a Hs Hi Hw Hnd) as (a' & Ha' & _). eauto.
Qed.

(** C10, as the code has it.  The constructor validates nothing up
    front.  For external arrays of the documented shape and at least one
    detector: with a single detector or with no sample the Delay Index is
    empty and the constructor raises ValueError at the minimum over the
    keys, after the sky samples, the antenna coefficients, the delays and
    the Delay Index have been assigned; with at least two detectors, at
    least one sample, and in every delay dimension a sample with a
    discretized delay <= 0 and one with a discretized delay >= -1, the
    constructor returns, having assigned every attribute. *)
Theorem construction_outcome sqrtQ a e :
  externals_shaped a e →
  (1 ≤ length (arg_detector_names a))%nat →
  ((length (arg_detector_names a) = 1%nat ∨ arg_nsky a = 0) →
     ∃ msg, construct sqrtQ a e
            = (attributes_before_range, Raise (ValueError msg))) ∧
  ((2 ≤ length (arg_detector_names a))%nat → 0 < arg_nsky a →
   Forall straddles_zero (_discretize (arg_f_sampling a) (relative_delays e)) →
     ∃ s h, construct sqrtQ a e = (all_attributes, Ok (s, h))).
Proof.
  intros [Hlen Hrows] Hdet. unfold relative_delays.
  destruct (ext_geocenter_delays e) as [|g0 rest] eqn:Hg; [simpl in Hlen; lia|].
  assert (row_get (ext_geocenter_delays e) 0 = Ok g0) as Hg0 by (by rewrite Hg).
  assert (drop 1 (ext_geocenter_delays e) = rest) as Hdrop by (by rewrite Hg).
  apply Forall_cons in Hrows as Hrows'. destruct Hrows' as [Hg0l Hrestl].
  set (fs := arg_f_sampling a).
  set (D := _discretize fs (rows_minus rest g0)).
  assert (Forall (λ r, length r = Z.to_nat (arg_nsky a)) D) as HD.
  { unfold D, _discretize. rewrite map_fmap. apply Forall_fmap.
    eapply Forall_impl;
      [apply (rows_minus_lengths rest g0 (Z.to_nat (arg_nsky a)))|].
    - eapply Forall_impl; [exact Hrestl|]. simpl. intros; lia.
    - lia.
    - simpl. intros r Hr. by rewrite length_map. }
  assert (length D = length rest) as HDlen.
  { unfold D, _discretize, rows_minus. by rewrite !length_map. }
  split.
  - intros Hcase. apply (construct_empty_index _ _ _ g0 Hg0).
    rewrite Hdrop. unfold _create_delays2inds_map. apply build_index_nil.
    fold fs D. destruct D as [|r D'] eqn:HDeq; [done|].
    destruct Hcase as [H1|H0].
    + simpl in Hlen, HDlen. destruct rest; simpl in *; lia.
    + apply length_zero_iff_nil. apply zip_star_length; [done|].
      rewrite H0 in HD. exact HD.
  - intros H2 Hnsky Hstr.
    assert (D ≠ []) as HDne.
    { simpl in Hlen. destruct D; [|done]. destruct rest; simpl in *; [lia|done]. }
    set (keys := zip_star D).
    assert (keys = map (column 0 D) (seq 0 (Z.to_nat (arg_nsky a)))) as Hkeys
      by (by apply zip_star_columns).
    set (d2i := build_index keys).
    assert (Forall (λ k, length k = length D) (map fst d2i)) as Hkl.
    { apply Forall_forall. intros k Hk.
      apply (proj1 (build_index_keys _ _)) in Hk.
      unfold keys in Hk. by apply zip_star_tuple_length in Hk. }
    assert (map fst d2i ≠ []) as Hne.
    { intros Hnil. assert (d2i = []) as Hd by (by destruct d2i).
      apply build_index_nil in Hd. rewrite Hkeys in Hd.
      apply (f_equal length) in Hd. rewrite length_map, length_seq in Hd.
      simpl in Hd. lia. }
    destruct (np_min_axis0 (map fst d2i)) as [mn|] eqn:Hmn;
      [|by destruct (map fst d2i)].
    destruct (np_max_axis0 (map fst d2i)) as [mx|] eqn:Hmx;
      [|by destruct (map fst d2i)].
    destruct (np_min_axis0_spec _ _ _ Hkl Hmn) as (Hmnl & Hmnb & _).
    destruct (np_max_axis0_spec _ _ _ Hkl Hmx) as (Hmxl & Hmxb & _).
    assert (∀ j row i x, D !! j = Some row → row !! i = Some x →
              ∃ key, key ∈ map fst d2i ∧ key !! j = Some x) as Hcol.
    { intros j row i x Hj Hi. exists (column 0 D i). split.
      - apply build_index_keys. fold keys. rewrite Hkeys, map_fmap.
        apply list_elem_of_fmap. exists i. split; [done|].
        apply elem_of_seq. rewrite Forall_lookup in HD.
        specialize (HD _ _ Hj). apply lookup_lt_Some in Hi. lia.
      - unfold column. rewrite map_fmap, list_lookup_fmap, Hj. simpl.
        f_equal. by apply nth_lookup_Some. }
    assert (indexable mn mx) as Hidx.
    { rewrite Forall_lookup in Hstr. split; apply Forall_lookup; intros j m Hm.
      - destruct (lookup_lt_is_Some_2 D j) as [row Hrow].
        { apply lookup_lt_Some in Hm. lia. }
        destruct (Hstr _ _ Hrow) as [(x & Hx & Hx0) _].
        apply list_elem_of_lookup_1 in Hx as [i Hi].
        destruct (Hcol _ _ _ _ Hrow Hi) as (key & Hkey & Hkj).
        pose proof (Forall2_lookup_lr _ _ _ _ _ _ (Hmnb key Hkey) Hm Hkj). lia.
      - destruct (lookup_lt_is_Some_2 D j) as [row Hrow].
        { apply lookup_lt_Some in Hm. lia. }
        destruct (Hstr _ _ Hrow) as [_ (x & Hx & Hx0)].
        apply list_elem_of_lookup_1 in Hx as [i Hi].
        destruct (Hcol _ _ _ _ Hrow Hi) as (key & Hkey & Hkj).
        pose proof (Forall2_lookup_lr _ _ _ _ _ _ (Hmxb key Hkey) Hkj Hm). lia. }
    assert (∀ key, key ∈ map fst d2i → within mn mx key) as Hwithin.
    { intros key Hkey. split; [by apply Hmnb | by apply Hmxb]. }
    assert (NoDup (map fst d2i)) as Hnd by apply build_index_NoDup.
    destruct (writes_Ok mn mx (imap (λ i item, (item.1, S i)) d2i)
                (np_full (dense_shape mn mx) O)) as [gens Hgens]; [done | done | |  |].
    { apply Forall_forall. intros [k v] Hkv. apply Hwithin.
      rewrite <- (keys_imap S d2i). rewrite map_fmap.
      apply list_elem_of_fmap. by exists (k, v). }
    { by rewrite keys_imap. }
    destruct (writes_Ok mn mx
                (map (λ item, (item.1, bucket_density fs
                                 (length (arg_detector_names a)) (arg_nsky a)
                                 (length item.2))) d2i)
                (np_full (dense_shape mn mx) 0%Q)) as [prior Hprior];
      [done | done | | |].
    { rewrite map_fmap. apply Forall_fmap. apply Forall_forall.
      intros [k v] Hkv. simpl. apply Hwithin. rewrite map_fmap.
      apply list_elem_of_fmap. by exists (k, v). }
    { by rewrite map_map. }
    destruct (delays_prior_loop_Ok fs (ext_geocenter_delays e)
                (antenna_weights sqrtQ (ext_fplus_fcross_0 e))
                (Z.to_nat (arg_nsky a) - 1)
                (detector_orders (length (arg_detector_names a))) ([], []))
      as [tables Htab].
    { rewrite Hg. eapply Forall_impl; [exact Hrows|]. simpl. intros; lia. }
    { apply Forall_forall. intros o (Ho1 & _ & Ho2)%elem_of_detector_orders.
      split; [done|]. by rewrite Hg, Hlen. }
    destruct (construct_stages sqrtQ a e g0 mn mx tables gens
                (EmptyIter :: map (λ item, Cycle item.2 O) d2i) prior) as [s Hs];
      try done; try (rewrite Hdrop; done).
    + rewrite Hdrop. unfold fill_ind_generators.
      rewrite fill_ind_generators_step.
      change (_create_delays2inds_map (arg_f_sampling a) (rows_minus rest g0))
        with d2i.
      erewrite (imap_ext _ (λ i item, (item.1, S i))); [|done].
      by rewrite Hgens.
    + rewrite Hdrop.
      change (_create_delays2inds_map (arg_f_sampling a) (rows_minus rest g0))
        with d2i.
      rewrite fill_sky_prior_writes by lia. exact Hprior.
    + by exists s, (EmptyIter :: map (λ item, Cycle item.2 O) d2i).
Qed.

(** C10 at a one-detector network (raises) and a two-detector network
    (returns). *)
Lemma construction_outcome_witness :
  (∃ msg, construct isqrtQ Examples.args_H Examples.ext_H
          = (attributes_before_range, Raise (ValueError msg))) ∧
  (∃ s h, construct isqrtQ Examples.args_HL Examples.ext_HL
          = (all_attributes, Ok (s, h))).
Proof.
  split.
  - apply (construction_outcome isqrtQ Examples.args_H Examples.ext_H).
    + split; [reflexivity | repeat constructor].
    + vm_compute. lia.
    + left. reflexivity.
  - apply (construction_outcome isqrtQ Examples.args_HL Examples.ext_HL).
    + split; [reflexivity | repeat constructor].
    + vm_compute. lia.
    + vm_compute. lia.
    + reflexivity.
    + assert (_discretize (arg_f_sampling Examples.args_HL)
                (relative_delays Examples.ext_HL) = [[-1; 0; 0; 1]]) as ->
        by (vm_compute; reflexivity).
      constructor; [|constructor]. split.
      * exists (-1). split; [left | lia].
      * exists 0. split; [right; left | lia].
Defined.

(** C10 as stated fails.  A network of one detector, with unique names,
    positive sampling frequency and positive sample count, is not
    constructed: the constructor raises ValueError.  And it does not raise
    before derived structures are built: the sky samples, the antenna
    coefficients, the delays and the Delay Index have been assigned by
    then.  The same late failure is what a sample count of zero gives,
    once the external arrays come back without columns. *)
Lemma fail_fast_counterexample :
  (externals_shaped Examples.args_H Examples.ext_H ∧
   NoDup (arg_detector_names Examples.args_H) ∧
   (1 ≤ length (arg_detector_names Examples.args_H))%nat ∧
   0 < arg_f_sampling Examples.args_H ∧ 0 < arg_nsky Examples.args_H ∧
   ∃ log msg, construct isqrtQ Examples.args_H Examples.ext_H
              = (log, Raise (ValueError msg)) ∧
     "sky_samples"%string ∈ log ∧ "fplus_fcross_0"%string ∈ log ∧
     "delays"%string ∈ log ∧ "delays2inds_map"%string ∈ log) ∧
  (arg_nsky Examples.args_HL_empty = 0 ∧
   ∃ log msg, construct isqrtQ Examples.args_HL_empty Examples.ext_HL_empty
              = (log, Raise (ValueError msg)) ∧
     "sky_samples"%string ∈ log ∧ "fplus_fcross_0"%string ∈ log ∧
     "delays"%string ∈ log ∧ "delays2inds_map"%string ∈ log).
Proof.
  split.
  - split_and!.
    + split; [reflexivity | repeat constructor].
    + apply NoDup_singleton.
    + apply le_n.
    + reflexivity.
    + reflexivity.
    + eexists _, _. split; [vm_compute; reflexivity|].
      split_and!; apply list_elem_of_In; simpl; tauto.
  - split; [reflexivity|]. eexists _, _. split; [vm_compute; reflexivity|].
    split_and!; apply list_elem_of_In; simpl; tauto.
Qed.

(** ** The timeseries resampler *)

Section ResamplingProps.
Context {timeseries_t window_t : Type}.
Context (ts_shape : timeseries_t → list nat).
Context (get_window : window_t → nat → result (list Q)).
Context (times_window : timeseries_t → Z → list Q → timeseries_t).
Context (resample : timeseries_t → Z → list Q → Z → result (timeseries_t * list Q)).


End ResamplingProps.

(** * Further properties of the query engine *)

Lemma dict_index_absent {K V} `{EqDecision K} (d : pydict K V) (key : K) :
  dict_get d key = None → dict_index d key = None.
Proof.
  induction d as [|[k v] d IH]; simpl; [done|].
  case_decide; [done|]. intros Hget. by rewrite (IH Hget).
Qed.

Lemma dense_generator_cursor (s : SkyDictionary) (key : list Z) (i : nat) :
  NoDup (map fst (delays2inds_map s)) →
  dense_generator s key = S i ↔
  ∃ b, delays2inds_map s !! i = Some (key, b).
Proof.
  intros Hnd. unfold dense_generator. split.
  - destruct (dict_get (delays2inds_map s) key) as [b|] eqn:Hget.
    + destruct (dict_index_lookup _ _ _ Hget) as (i' & -> & Hi').
      intros [= <-]. eauto.
    + by rewrite (dict_index_absent _ _ Hget).
  - intros [b Hi].
    assert (dict_get (delays2inds_map s) key = Some b) as Hget.
    { apply elem_of_dict_get; [done|]. by eapply list_elem_of_lookup_2. }
    destruct (dict_index_lookup _ _ _ Hget) as (i' & -> & Hi').
    f_equal. eapply NoDup_lookup; [exact Hnd | |].
    + rewrite map_fmap, list_lookup_fmap, Hi'. done.
    + rewrite map_fmap, list_lookup_fmap, Hi. done.
Qed.

(** What [np.fromiter(map(next, ...))] does to a well-formed heap when
    every reference is a cursor: every reference yields a member of its
    bucket, and afterwards each cursor has advanced by the number of times
    its reference occurs. *)
Lemma fromiter_advances (s : SkyDictionary) (h : heap) (gens : list nat) :
  heap_ok s h →
  Forall (λ g, ∃ i item, g = S i ∧ delays2inds_map s !! i = Some item) gens →
  ∃ inds h', fromiter_map_next h gens = (inds, h', false) ∧
    Forall2 (λ g x, ∃ i k b, g = S i ∧ delays2inds_map s !! i = Some (k, b) ∧ x ∈ b)
            gens inds ∧
    length h' = length h ∧
    (∀ i k b pos, delays2inds_map s !! i = Some (k, b) →
       h !! S i = Some (Cycle b pos) →
       h' !! S i
       = Some (Cycle b ((pos + length (filter (λ g, g = S i) gens))
                        mod length b)%nat)).
Proof.
  intros Hh Hg. revert h Hh.
  induction Hg as [|g gens (i0 & [k0 b0] & -> & Hi0) _ IH]; intros h Hh.
  - exists [], h. split_and!; [done | constructor | done |].
    intros i k b pos Hi Hcur. rewrite filter_nil. simpl.
    rewrite Nat.add_0_r, Nat.mod_small; [done|].
    destruct Hh as (cursors & -> & Hcurs). simpl in Hcur.
    destruct (Forall2_lookup_r _ _ _ _ _ Hcurs Hcur) as (item & Hitem & pos' & Heq & Hlt).
    rewrite Hi in Hitem. injection Hitem as <-. simpl in *. by injection Heq as <-.
  - destruct (heap_next_cursor s h i0 k0 b0 Hh Hi0) as (pos0 & x & Hc0 & Hx & Hn & Hh').
    destruct (IH _ Hh') as (inds & h' & Hrun & Hmem & Hlen & Hadv).
    exists (x :: inds), h'. simpl. rewrite Hn, Hrun. split_and!.
    + done.
    + constructor; [|done]. exists i0, k0, b0. split_and!; [done..|].
      by eapply list_elem_of_lookup_2.
    + by rewrite Hlen, length_insert.
    + intros i k b pos Hi Hcur. rewrite filter_cons.
      destruct (decide (i0 = i)) as [->|Hne].
      * rewrite Hi in Hi0. injection Hi0 as <- <-.
        rewrite Hcur in Hc0. injection Hc0 as <-.
        rewrite decide_True by done.
        rewrite (Hadv i k b (S pos mod length b)%nat Hi).
        -- simpl. rewrite Nat.Div0.add_mod_idemp_l. do 3 f_equal. lia.
        -- apply list_lookup_insert_eq. by eapply lookup_lt_Some.
      * rewrite decide_False by congruence.
        apply (Hadv i k b pos Hi).
        rewrite list_lookup_insert_ne by congruence. done.
Qed.

Lemma Forall2_with_left {A B} (P : A → Prop) (R : A → B → Prop) (l : list A) (k : list B) :
  Forall P l → Forall2 R l k → Forall2 (λ x y, P x ∧ R x y) l k.
Proof.
  intros HP HR. induction HR as [|x y l k Hxy _ IH]; [constructor|].
  apply Forall_cons in HP as [Hx HP]. constructor; auto.
Qed.

Section Calls.
Context (sqrtQ : Q → Q) (a : init_args) (e : externals).
Context (s : SkyDictionary) (h0 : heap).
Hypothesis Hc : constructed sqrtQ a e s h0.

(** One call, as a function of the heap it starts from: the mask and the
    densities depend on the queries alone, the samples and the new heap
    come from advancing the cursors of the surviving queries in order. *)
Lemma call_spec (h : heap) (dl : list (list Z)) (nq : nat) :
  heap_ok s h →
  length dl = length (delays s) → Forall (λ row, length row = nq) dl →
  let keys := map (column 0 dl) (seq 0 nq) in
  let sel := mask_select (map (survives s) keys) keys in
  get_sky_inds_and_prior s h dl
  = Ok (((fromiter_map_next h (map (dense_generator s) sel)).1.1,
         map (dense_value s) sel, map (survives s) keys),
        (fromiter_map_next h (map (dense_generator s) sel)).1.2).
Proof.
  intros Hh Hlen Hrows keys sel.
  destruct (query_run_spec _ _ _ _ _ Hc h dl nq Hh Hlen Hrows)
    as (r & Hr & Hmask & Hprior & Hgens & _ & _ & Hrun & _).
  fold keys in Hmask, Hprior, Hgens. fold sel in Hprior, Hgens.
  unfold get_sky_inds_and_prior. rewrite Hr. simpl.
  rewrite <- Hgens, Hrun. simpl. by rewrite Hmask, Hprior.
Qed.

Lemma survivors_are_cursors (keys : list (list Z)) :
  Forall (λ k, length k = length (delays s)) keys →
  Forall (λ g, ∃ i item, g = S i ∧ delays2inds_map s !! i = Some item)
         (map (dense_generator s) (mask_select (map (survives s) keys) keys)).
Proof.
  intros Hklen. rewrite map_fmap. apply Forall_fmap.
  pose proof (mask_select_Forall (survives s) keys) as Hsel.
  rewrite Forall_forall in Hsel, Hklen. apply Forall_forall. intros k Hk.
  destruct (survives_within _ _ _ _ _ Hc k) as (_ & i & b & Hi & _ & Hg).
  - apply Hklen. by eapply mask_select_elem_of.
  - by apply Hsel.
  - simpl. rewrite Hg. eauto.
Qed.

Lemma query_keys_length (dl : list (list Z)) (nq : nat) :
  length dl = length (delays s) →
  Forall (λ k, length k = length (delays s)) (map (column 0 dl) (seq 0 nq)).
Proof.
  intros Hlen. rewrite map_fmap. apply Forall_fmap, Forall_forall.
  intros j _. simpl. unfold column. by rewrite length_map.
Qed.
End Calls.

(** X1.  Every sample index a call returns is a valid index into the sky
    samples, and the discretized relative delay vector of that sample is
    exactly the delay vector of the surviving query it answers. *)
Theorem sky_inds_have_queried_delays sqrtQ a e log s h0 h dl nq :
  construct sqrtQ a e = (log, Ok (s, h0)) →
  externals_shaped a e →
  reachable s h0 h →
  length dl = (length (detector_names s) - 1)%nat →
  Forall (λ row, length row = nq) dl →
  ∃ sky_inds sky_prior physical_mask h',
    get_sky_inds_and_prior s h dl = Ok ((sky_inds, sky_prior, physical_mask), h') ∧
    Forall2 (λ key i, Z.of_nat i < nsky s ∧
                      column 0 (_discretize (f_sampling s) (delays s)) i = key)
            (mask_select physical_mask (map (column 0 dl) (seq 0 nq))) sky_inds.
Proof.
  intros [Hc _]%construct_Ok_inv Hsh Hreach Hlen Hrows.
  pose proof (reachable_heap_ok _ _ _ _ _ _ Hc Hreach) as Hh.
  rewrite <- (shaped_delays_count _ _ _ _ _ Hc Hsh) in Hlen.
  pose proof (shaped_nsky _ _ _ _ _ Hc Hsh) as Hnsky.
  pose proof (call_spec _ _ _ _ _ Hc h dl nq Hh Hlen Hrows) as Hcall.
  simpl in Hcall.
  set (keys := map (column 0 dl) (seq 0 nq)) in *.
  set (sel := mask_select (map (survives s) keys) keys) in *.
  pose proof (query_keys_length s dl nq Hlen) as Hklen. fold keys in Hklen.
  destruct (fromiter_advances s h (map (dense_generator s) sel) Hh)
    as (inds & h' & Hrun & Hmem & _ & _).
  { by apply (survivors_are_cursors _ _ _ _ _ Hc). }
  rewrite Hrun in Hcall. simpl in Hcall.
  eexists _, _, _, _. split; [exact Hcall|]. fold sel.
  rewrite map_fmap in Hmem. apply Forall2_fmap_l in Hmem.
  assert (Forall (λ k, survives s k = true ∧ length k = length (delays s)) sel)
    as Hsel.
  { pose proof (mask_select_Forall (survives s) keys) as Hs.
    rewrite Forall_forall in Hs, Hklen. apply Forall_forall. intros k Hk.
    split; [by apply Hs|]. apply Hklen. by eapply mask_select_elem_of. }
  eapply Forall2_impl; [exact (Forall2_with_left _ _ _ _ Hsel Hmem)|].
  simpl. intros q x ([Hq Hql] & i & k & b & Hg & Hi & Hx).
  apply (dense_generator_cursor s q i (engine_index_NoDup _ _ _ _ _ Hc)) in Hg
    as [b' Hi'].
  rewrite Hi in Hi'. injection Hi' as Hk Hb. subst k b'.
  assert (dict_get (delays2inds_map s) q = Some b) as Hget.
  { apply elem_of_dict_get; [apply (engine_index_NoDup _ _ _ _ _ Hc)|].
    by eapply list_elem_of_lookup_2. }
  rewrite (engine_index _ _ _ _ _ Hc), build_index_get in Hget.
  case_decide; [done|]. injection Hget as <-.
  apply elem_of_positions in Hx.
  rewrite (shaped_sample_keys _ _ _ _ _ Hc Hsh) in Hx.
  rewrite map_fmap, list_lookup_fmap in Hx.
  destruct (seq 0 (Z.to_nat (nsky s)) !! x) as [x'|] eqn:Hseq; [|done].
  apply lookup_seq in Hseq as [-> Hlt]. simpl in Hx. injection Hx as Hx.
  split; [lia | done].
Qed.

(** X1 at a two-detector engine and three queries. *)
Lemma sky_inds_have_queried_delays_witness :
  ∃ sky_inds sky_prior physical_mask h',
    get_sky_inds_and_prior Examples.built_HL.1 Examples.built_HL.2 [[0; 5; -1]]
    = Ok ((sky_inds, sky_prior, physical_mask), h') ∧
    Forall2 (λ key i, Z.of_nat i < nsky Examples.built_HL.1 ∧
                      column 0 (_discretize (f_sampling Examples.built_HL.1)
                                            (delays Examples.built_HL.1)) i = key)
            (mask_select physical_mask (map (column 0 [[0; 5; -1]]) (seq 0 3)))
            sky_inds.
Proof.
  apply (sky_inds_have_queried_delays isqrtQ Examples.args_HL Examples.ext_HL
           all_attributes Examples.built_HL.1 Examples.built_HL.2).
  - vm_compute. reflexivity.
  - split; [reflexivity | repeat constructor].
  - apply reachable_init.
  - reflexivity.
  - repeat constructor.
Defined.

Lemma filter_map_length {A B} (P : B → Prop) `{∀ y, Decision (P y)}
    (f : A → B) (l : list A) :
  length (filter P (map f l)) = length (filter (λ x, P (f x)) l).
Proof.
  induction l as [|x l IH]; simpl; [done|].
  rewrite !filter_cons. destruct (decide (P (f x))); simpl; by rewrite IH.
Qed.

(** X2.  A call advances the cursor of every bucket by exactly the number
    of surviving queries that carry the bucket's key (modulo the bucket
    size), and touches nothing else: the heap keeps its length, and a call
    without surviving queries leaves the heap as it was. *)
Theorem cursors_advance_by_query_count sqrtQ a e log s h0 h dl nq :
  construct sqrtQ a e = (log, Ok (s, h0)) →
  reachable s h0 h →
  length dl = length (delays s) →
  Forall (λ row, length row = nq) dl →
  ∃ sky_inds sky_prior physical_mask h',
    get_sky_inds_and_prior s h dl = Ok ((sky_inds, sky_prior, physical_mask), h') ∧
    length h' = length h ∧
    (∀ i key b pos,
       delays2inds_map s !! i = Some (key, b) →
       h !! S i = Some (Cycle b pos) →
       h' !! S i
       = Some (Cycle b
                 ((pos + length (filter (λ q, q = key)
                                   (mask_select physical_mask
                                      (map (column 0%Z dl) (seq 0 nq)))))
                  mod length b)%nat)) ∧
    (count_true physical_mask = O → h' = h).
Proof.
  intros [Hc _]%construct_Ok_inv Hreach Hlen Hrows.
  pose proof (reachable_heap_ok _ _ _ _ _ _ Hc Hreach) as Hh.
  pose proof (call_spec _ _ _ _ _ Hc h dl nq Hh Hlen Hrows) as Hcall.
  simpl in Hcall.
  set (keys := map (column 0 dl) (seq 0 nq)) in *.
  set (sel := mask_select (map (survives s) keys) keys) in *.
  pose proof (query_keys_length s dl nq Hlen) as Hklen. fold keys in Hklen.
  destruct (fromiter_advances s h (map (dense_generator s) sel) Hh)
    as (inds & h' & Hrun & _ & Hhlen & Hadv).
  { by apply (survivors_are_cursors _ _ _ _ _ Hc). }
  pose proof Hcall as Hcall'. rewrite Hrun in Hcall'. simpl in Hcall'.
  eexists _, _, _, _. split; [exact Hcall'|]. fold sel. split_and!; [done | |].
  - intros i key b pos Hi Hcur. rewrite (Hadv i key b pos Hi Hcur).
    rewrite filter_map_length. do 4 f_equal.
    f_equal. apply filter_ext_elem. intros q _.
    rewrite (dense_generator_cursor s q i (engine_index_NoDup _ _ _ _ _ Hc)).
    split.
    + intros [b' Hi']. rewrite Hi in Hi'. congruence.
    + intros ->. eauto.
  - intros Hcount.
    rewrite <- (mask_select_length (survives s) keys) in Hcount. fold sel in Hcount.
    destruct sel; [|done]. simpl in Hrun. by injection Hrun as _ <-.
Qed.

(** X2 at a two-detector engine: two of four queries carry key 0. *)
Lemma cursors_advance_by_query_count_witness :
  ∃ sky_inds sky_prior physical_mask h',
    get_sky_inds_and_prior Examples.built_HL.1 Examples.built_HL.2 [[0; 5; -1; 0]]
    = Ok ((sky_inds, sky_prior, physical_mask), h') ∧
    length h' = length Examples.built_HL.2 ∧
    (∀ i key b pos,
       delays2inds_map Examples.built_HL.1 !! i = Some (key, b) →
       Examples.built_HL.2 !! S i = Some (Cycle b pos) →
       h' !! S i
       = Some (Cycle b
                 ((pos + length (filter (λ q, q = key)
                                   (mask_select physical_mask
                                      (map (column 0%Z [[0; 5; -1; 0]%Z]) (seq 0 4)))))
                  mod length b)%nat)) ∧
    (count_true physical_mask = O → h' = Examples.built_HL.2).
Proof.
  apply (cursors_advance_by_query_count isqrtQ Examples.args_HL Examples.ext_HL
           all_attributes Examples.built_HL.1 Examples.built_HL.2).
  - vm_compute. reflexivity.
  - apply reachable_init.
  - reflexivity.
  - repeat constructor.
Defined.

(** ** Batches *)

Lemma fromiter_app (h : heap) (g1 g2 : list nat) :
  fromiter_map_next h (g1 ++ g2)
  = if (fromiter_map_next h g1).2 then fromiter_map_next h g1
    else ((fromiter_map_next h g1).1.1
            ++ (fromiter_map_next (fromiter_map_next h g1).1.2 g2).1.1,
          (fromiter_map_next (fromiter_map_next h g1).1.2 g2).1.2,
          (fromiter_map_next (fromiter_map_next h g1).1.2 g2).2).
Proof.
  revert h; induction g1 as [|g g1 IH]; intros h; simpl.
  - by destruct (fromiter_map_next h g2) as [[??]?].
  - destruct (heap_next h g) as [[x h1]|]; [|done].
    rewrite IH. destruct (fromiter_map_next h1 g1) as [[xs h2] st]. simpl.
    destruct st; [done|].
    by destruct (fromiter_map_next h2 g2) as [[??]?].
Qed.

Lemma mask_select_app {A} (m1 m2 : list bool) (l1 l2 : list A) :
  length m1 = length l1 →
  mask_select (m1 ++ m2) (l1 ++ l2) = mask_select m1 l1 ++ mask_select m2 l2.
Proof.
  revert l1; induction m1 as [|b m1 IH]; intros [|x l1] Hlen; simplify_eq/=;
    [done|].
  destruct b; simpl; by rewrite IH.
Qed.

Lemma column_zip_app_l {A} (d : A) (dl1 dl2 : list (list A)) (n1 j : nat) :
  length dl1 = length dl2 → Forall (λ row, length row = n1) dl1 → (j < n1)%nat →
  column d (zip_with app dl1 dl2) j = column d dl1 j.
Proof.
  intros Hlen Hrows Hj. revert dl2 Hlen.
  induction Hrows as [|r dl1 Hr _ IH]; intros [|r2 dl2] Hlen; simplify_eq/=;
    [done|].
  unfold column in *. simpl. f_equal; [|by apply IH].
  apply app_nth1. lia.
Qed.

Lemma column_zip_app_r {A} (d : A) (dl1 dl2 : list (list A)) (n1 j : nat) :
  length dl1 = length dl2 → Forall (λ row, length row = n1) dl1 →
  column d (zip_with app dl1 dl2) (n1 + j) = column d dl2 j.
Proof.
  intros Hlen Hrows. revert dl2 Hlen.
  induction Hrows as [|r dl1 Hr _ IH]; intros [|r2 dl2] Hlen; simplify_eq/=;
    [done|].
  unfold column in *. simpl. f_equal; [|by apply IH].
  apply app_nth2_plus.
Qed.

Lemma columns_zip_app {A} (d : A) (dl1 dl2 : list (list A)) (n1 n2 : nat) :
  length dl1 = length dl2 → Forall (λ row, length row = n1) dl1 →
  map (column d (zip_with app dl1 dl2)) (seq 0 (n1 + n2))
  = map (column d dl1) (seq 0 n1) ++ map (column d dl2) (seq 0 n2).
Proof.
  intros Hlen Hrows. rewrite seq_app, map_app. f_equal.
  - apply map_ext_in. intros j Hj%in_seq. apply (column_zip_app_l d _ _ n1); [done..|lia].
  - simpl.
    assert (seq n1 n2 = Nat.add n1 <$> seq 0 n2) as ->.
    { rewrite fmap_add_seq. f_equal. lia. }
    rewrite !map_fmap, <- list_fmap_compose.
    apply list_fmap_ext. intros ? j _. simpl. by apply column_zip_app_r.
Qed.

(** X3.  Queries can be batched freely: one call on the queries of two
    arrays laid side by side returns what a call on the first array
    followed by a call on the second returns, concatenated, and leaves
    the same heap. *)
Theorem batch_is_sequence sqrtQ a e log s h0 h dl1 dl2 n1 n2 :
  construct sqrtQ a e = (log, Ok (s, h0)) →
  reachable s h0 h →
  length dl1 = length (delays s) → length dl2 = length (delays s) →
  Forall (λ row, length row = n1) dl1 → Forall (λ row, length row = n2) dl2 →
  ∃ o1 h1 o2 h2,
    get_sky_inds_and_prior s h dl1 = Ok (o1, h1) ∧
    get_sky_inds_and_prior s h1 dl2 = Ok (o2, h2) ∧
    get_sky_inds_and_prior s h (zip_with app dl1 dl2)
    = Ok ((o1.1.1 ++ o2.1.1, o1.1.2 ++ o2.1.2, o1.2 ++ o2.2), h2).
Proof.
  intros Hcon Hreach Hl1 Hl2 Hr1 Hr2.
  pose proof Hcon as [Hc _]%construct_Ok_inv.
  pose proof (reachable_heap_ok _ _ _ _ _ _ Hc Hreach) as Hh.
  pose proof (call_spec _ _ _ _ _ Hc h dl1 n1 Hh Hl1 Hr1) as Hcall1.
  simpl in Hcall1.
  set (keys1 := map (column 0 dl1) (seq 0 n1)) in *.
  set (sel1 := mask_select (map (survives s) keys1) keys1) in *.
  destruct (fromiter_advances s h (map (dense_generator s) sel1) Hh)
    as (inds1 & h1 & Hrun1 & _ & _ & _).
  { apply (survivors_are_cursors _ _ _ _ _ Hc). by apply query_keys_length. }
  rewrite Hrun1 in Hcall1. simpl in Hcall1.
  assert (heap_ok s h1) as Hh1 by (by eapply call_heap_ok).
  pose proof (call_spec _ _ _ _ _ Hc h1 dl2 n2 Hh1 Hl2 Hr2) as Hcall2.
  simpl in Hcall2.
  set (keys2 := map (column 0 dl2) (seq 0 n2)) in *.
  set (sel2 := mask_select (map (survives s) keys2) keys2) in *.
  destruct (fromiter_map_next h1 (map (dense_generator s) sel2))
    as [[inds2 h2] st2] eqn:Hrun2.
  simpl in Hcall2.
  eexists _, h1, _, h2. split; [exact Hcall1|]. split; [exact Hcall2|]. simpl.
  rewrite (call_spec _ _ _ _ _ Hc h (zip_with app dl1 dl2) (n1 + n2) Hh).
  - rewrite (columns_zip_app 0 dl1 dl2 n1 n2) by (done || congruence).
    fold keys1 keys2. rewrite map_app.
    rewrite mask_select_app by (by rewrite length_map).
    fold sel1 sel2. rewrite !map_app, fromiter_app, Hrun1. simpl.
    by rewrite Hrun2.
  - rewrite length_zip_with. lia.
  - apply Forall_forall. intros row (r1 & r2 & -> & H1 & H2)%elem_of_zip_with.
    rewrite Forall_forall in Hr1, Hr2. rewrite length_app.
    by rewrite (Hr1 _ H1), (Hr2 _ H2).
Qed.

(** X3 at a two-detector engine: queries (0, 5) and (-1, 0). *)
Lemma batch_is_sequence_witness :
  ∃ o1 h1 o2 h2,
    get_sky_inds_and_prior Examples.built_HL.1 Examples.built_HL.2 [[0; 5]]
    = Ok (o1, h1) ∧
    get_sky_inds_and_prior Examples.built_HL.1 h1 [[-1; 0]] = Ok (o2, h2) ∧
    get_sky_inds_and_prior Examples.built_HL.1 Examples.built_HL.2
      (zip_with app [[0; 5]] [[-1; 0]])
    = Ok ((o1.1.1 ++ o2.1.1, o1.1.2 ++ o2.1.2, o1.2 ++ o2.2), h2).
Proof.
  apply (batch_is_sequence isqrtQ Examples.args_HL Examples.ext_HL
           all_attributes Examples.built_HL.1 Examples.built_HL.2 _ _ _ 2%nat 2%nat).
  - vm_compute. reflexivity.
  - apply reachable_init.
  - reflexivity.
  - reflexivity.
  - repeat constructor.
  - repeat constructor.
Defined.

(** * Further properties of the constructor *)

Lemma addressed_indexable (keys : list (list Z)) (d : nat) (mn mx : list Z) :
  Forall (λ k, length k = d) keys →
  np_min_axis0 keys = Ok mn → np_max_axis0 keys = Ok mx →
  Forall (λ k, ∃ c, nd_cell (dense_shape mn mx) k = Ok c) keys →
  indexable mn mx.
Proof.
  intros Hkl Hmn Hmx Haddr. rewrite Forall_forall in Haddr.
  destruct (np_min_axis0_spec _ _ _ Hkl Hmn) as (Hlmn & _ & Hmin).
  destruct (np_max_axis0_spec _ _ _ Hkl Hmx) as (Hlmx & _ & Hmax).
  assert (∀ j m M, mn !! j = Some m → mx !! j = Some M → m ≤ 0 ∧ -1 ≤ M) as Hjm.
  { intros j m M Hm HM.
    assert (dense_shape mn mx !! j = Some (M - m + 1)) as Hs.
    { unfold dense_shape. rewrite lookup_zip_with, HM. simpl. by rewrite Hm. }
    destruct (Hmin j m Hm) as (k1 & Hk1 & Hj1).
    destruct (Hmax j M HM) as (k2 & Hk2 & Hj2).
    destruct (Haddr k1 Hk1) as [c1 Hc1]. destruct (Haddr k2 Hk2) as [c2 Hc2].
    pose proof (nd_cell_components _ _ _ _ _ _ Hc1 Hs Hj1).
    pose proof (nd_cell_components _ _ _ _ _ _ Hc2 Hs Hj2). lia. }
  split; apply Forall_lookup; intros j x Hx.
  - destruct (lookup_lt_is_Some_2 mx j) as [M HM].
    { apply lookup_lt_Some in Hx. lia. }
    by destruct (Hjm j x M Hx HM).
  - destruct (lookup_lt_is_Some_2 mn j) as [m Hm].
    { apply lookup_lt_Some in Hx. lia. }
    by destruct (Hjm j m x Hm Hx).
Qed.

(** The Delay Range of a rectangular array of discretized delays is
    indexable exactly when every row reaches down to 0 and up to -1. *)
Lemma indexable_straddles (D : list (list Z)) (n : nat) (mn mx : list Z) :
  D ≠ [] → Forall (λ r, length r = n) D →
  np_min_axis0 (map fst (build_index (zip_star D))) = Ok mn →
  np_max_axis0 (map fst (build_index (zip_star D))) = Ok mx →
  indexable mn mx ↔ Forall straddles_zero D.
Proof.
  intros HDne HD Hmn Hmx.
  set (keys := zip_star D) in *.
  assert (keys = map (column 0 D) (seq 0 n)) as Hkeys by (by apply zip_star_columns).
  assert (Forall (λ k, length k = length D) (map fst (build_index keys))) as Hkl.
  { apply Forall_forall. intros k Hk.
    apply (proj1 (build_index_keys _ _)) in Hk.
    unfold keys in Hk. by apply zip_star_tuple_length in Hk. }
  destruct (np_min_axis0_spec _ _ _ Hkl Hmn) as (Hmnl & Hmnb & Hmna).
  destruct (np_max_axis0_spec _ _ _ Hkl Hmx) as (Hmxl & Hmxb & Hmxa).
  assert (∀ j row i x, D !! j = Some row → row !! i = Some x →
            ∃ key, key ∈ map fst (build_index keys) ∧ key !! j = Some x) as Hcol.
  { intros j row i x Hj Hi. exists (column 0 D i). split.
    - apply build_index_keys. rewrite Hkeys, map_fmap.
      apply list_elem_of_fmap. exists i. split; [done|].
      apply elem_of_seq. rewrite Forall_lookup in HD.
      specialize (HD _ _ Hj). apply lookup_lt_Some in Hi. lia.
    - unfold column. rewrite map_fmap, list_lookup_fmap, Hj. simpl.
      f_equal. by apply nth_lookup_Some. }
  assert (∀ j row key x, D !! j = Some row →
            key ∈ map fst (build_index keys) → key !! j = Some x → x ∈ row) as Hrow.
  { intros j row key x Hj Hkey Hx.
    apply (proj1 (build_index_keys _ _)) in Hkey. rewrite Hkeys, map_fmap in Hkey.
    apply list_elem_of_fmap in Hkey as (i & -> & Hi%elem_of_seq).
    unfold column in Hx. rewrite map_fmap, list_lookup_fmap, Hj in Hx.
    injection Hx as <-. rewrite Forall_lookup in HD. specialize (HD _ _ Hj).
    destruct (lookup_lt_is_Some_2 row i) as [y Hy]; [lia|].
    rewrite (nth_lookup_Some _ _ _ _ Hy). by eapply list_elem_of_lookup_2. }
  split.
  - intros [Hlo Hhi]. apply Forall_lookup. intros j row Hj.
    rewrite Forall_lookup in Hlo, Hhi.
    destruct (lookup_lt_is_Some_2 mn j) as [m Hm].
    { apply lookup_lt_Some in Hj. lia. }
    destruct (lookup_lt_is_Some_2 mx j) as [M HM].
    { apply lookup_lt_Some in Hj. lia. }
    split.
    + destruct (Hmna j m Hm) as (key & Hkey & Hkj).
      exists m. split; [by eapply Hrow | by eapply Hlo].
    + destruct (Hmxa j M HM) as (key & Hkey & Hkj).
      exists M. split; [by eapply Hrow | by eapply Hhi].
  - intros Hstr. rewrite Forall_lookup in Hstr.
    split; apply Forall_lookup; intros j m Hm.
    + destruct (lookup_lt_is_Some_2 D j) as [row Hr].
      { apply lookup_lt_Some in Hm. lia. }
      destruct (Hstr _ _ Hr) as [(x & Hx & Hx0) _].
      apply list_elem_of_lookup_1 in Hx as [i Hi].
      destruct (Hcol _ _ _ _ Hr Hi) as (key & Hkey & Hkj).
      pose proof (Forall2_lookup_lr _ _ _ _ _ _ (Hmnb key Hkey) Hm Hkj). lia.
    + destruct (lookup_lt_is_Some_2 D j) as [row Hr].
      { apply lookup_lt_Some in Hm. lia. }
      destruct (Hstr _ _ Hr) as [_ (x & Hx & Hx0)].
      apply list_elem_of_lookup_1 in Hx as [i Hi].
      destruct (Hcol _ _ _ _ Hr Hi) as (key & Hkey & Hkj).
      pose proof (Forall2_lookup_lr _ _ _ _ _ _ (Hmxb key Hkey) Hkj Hm). lia.
Qed.

Lemma relative_delays_constructed sqrtQ a e s h0 :
  constructed sqrtQ a e s h0 → delays s = relative_delays e.
Proof.
  intros Hc. rewrite (c_delays _ _ _ _ _ Hc). unfold relative_delays.
  pose proof (c_g0 _ _ _ _ _ Hc) as Hg0. unfold row_get in Hg0.
  destruct (ext_geocenter_delays e) as [|g0 rest]; [done|].
  by injection Hg0 as <-.
Qed.

(** X4.  The constructor returns only for a network of at least two
    detectors with at least one sample whose delays, in every delay
    dimension, reach down to 0 and up to -1 (some sample with a
    discretized delay <= 0, some sample with one >= -1); it has then
    assigned every attribute, and both dense arrays have the shape
    max - min + 1 with at least one cell along every axis. *)
Theorem construct_returns_only_if sqrtQ a e log s h0 :
  construct sqrtQ a e = (log, Ok (s, h0)) →
  externals_shaped a e →
  (2 ≤ length (arg_detector_names a))%nat ∧ 0 < arg_nsky a ∧
  Forall straddles_zero (_discretize (arg_f_sampling a) (relative_delays e)) ∧
  log = all_attributes ∧
  nd_shape (_sky_prior s) = dense_shape (_min_delay s) (_max_delay s) ∧
  nd_shape (_ind_generators s) = dense_shape (_min_delay s) (_max_delay s) ∧
  Forall (λ size, 1 ≤ size) (dense_shape (_min_delay s) (_max_delay s)).
Proof.
  intros [Hc ->]%construct_Ok_inv Hsh.
  pose proof (shaped_nsky _ _ _ _ _ Hc Hsh) as Hnsky.
  pose proof (shaped_delays_count _ _ _ _ _ Hc Hsh) as Hcount.
  pose proof (engine_delays_nonempty _ _ _ _ _ Hc) as Hne.
  pose proof (engine_indexable _ _ _ _ _ Hc) as Hidx.
  rewrite <- (c_names _ _ _ _ _ Hc), <- (c_nsky _ _ _ _ _ Hc), <- (c_fs _ _ _ _ _ Hc).
  rewrite <- (relative_delays_constructed _ _ _ _ _ Hc).
  assert (length (delays s) ≠ 0%nat) as Hpos by (by destruct (delays s)).
  split_and!; [lia | done | | done | | |].
  - eapply (indexable_straddles _ (Z.to_nat (nsky s))); [| | | |exact Hidx].
    + unfold _discretize. by destruct (delays s).
    + unfold _discretize. rewrite map_fmap. apply Forall_fmap.
      eapply Forall_impl; [apply (shaped_delays_rows _ _ _ _ _ Hc Hsh)|].
      simpl. intros r Hr. by rewrite length_map.
    + rewrite <- (c_min _ _ _ _ _ Hc). by rewrite (c_d2i _ _ _ _ _ Hc).
    + rewrite <- (c_max _ _ _ _ _ Hc). by rewrite (c_d2i _ _ _ _ _ Hc).
  - apply (engine_prior_shape _ _ _ _ _ Hc).
  - apply (engine_generators_shape _ _ _ _ _ Hc).
  - pose proof (engine_index_nonempty _ _ _ _ _ Hc) as Hd.
    destruct (delays2inds_map s) as [|[k b] d] eqn:Hd2i; [done|].
    destruct (engine_key_within _ _ _ _ _ Hc k) as [Hlo Hhi].
    { rewrite Hd2i. left. }
    unfold dense_shape. apply Forall_lookup. intros j size Hj.
    apply lookup_zip_with_Some in Hj as (M & m & -> & HM & Hm).
    destruct (Forall2_lookup_l _ _ _ _ _ Hlo Hm) as (x & Hx & Hmx).
    destruct (Forall2_lookup_l _ _ _ _ _ Hhi Hx) as (M' & HM' & HxM).
    rewrite HM in HM'. injection HM' as <-. lia.
Qed.

(** X4 at a two-detector engine. *)
Lemma construct_returns_only_if_witness :
  (2 ≤ length (arg_detector_names Examples.args_HL))%nat ∧
  0 < arg_nsky Examples.args_HL ∧
  Forall straddles_zero
    (_discretize (arg_f_sampling Examples.args_HL) (relative_delays Examples.ext_HL)) ∧
  all_attributes = all_attributes ∧
  nd_shape (_sky_prior Examples.built_HL.1)
    = dense_shape (_min_delay Examples.built_HL.1) (_max_delay Examples.built_HL.1) ∧
  nd_shape (_ind_generators Examples.built_HL.1)
    = dense_shape (_min_delay Examples.built_HL.1) (_max_delay Examples.built_HL.1) ∧
  Forall (λ size, 1 ≤ size)
    (dense_shape (_min_delay Examples.built_HL.1) (_max_delay Examples.built_HL.1)).
Proof.
  apply (construct_returns_only_if isqrtQ Examples.args_HL Examples.ext_HL
           all_attributes Examples.built_HL.1 Examples.built_HL.2).
  - vm_compute. reflexivity.
  - split; [reflexivity | repeat constructor].
Defined.

Lemma nd_cell_raises (sh key : list Z) (e : exn) :
  nd_cell sh key = Raise e → e = IndexError.
Proof.
  revert key; induction sh as [|s sh IH]; intros [|k key] He; simplify_eq/=;
    try done.
  unfold normalize_index in He. repeat case_bool_decide; simpl in He;
    try (by injection He as <-).
  all: destruct (nd_cell sh key) as [c|e'] eqn:Hc; simpl in He; try done;
    injection He as <-; by eapply IH.
Qed.

Lemma writes_raises {V} (items : pydict (list Z) V) (a : ndarray V) (e : exn) :
  writes a items = Raise e → e = IndexError.
Proof.
  revert a; induction items as [|[k v] items IH]; intros a He; [done|].
  unfold writes in He. simpl in He. unfold nd_set in He.
  destruct (nd_cell (nd_shape a) k) as [c|e'] eqn:Hc; simpl in He.
  - by eapply IH.
  - injection He as <-. by eapply nd_cell_raises.
Qed.

Lemma fill_ind_generators_raises sh d2i e :
  fill_ind_generators sh d2i = Raise e → e = IndexError.
Proof.
  unfold fill_ind_generators. rewrite fill_ind_generators_step.
  destruct (writes _ _) as [a'|e'] eqn:Hw; simpl; [done|].
  intros [= <-]. by eapply writes_raises.
Qed.

Lemma construct_generators_raise sqrtQ a e g0 mn mx tables err :
  let fs := arg_f_sampling a in
  let dl := rows_minus (drop 1 (ext_geocenter_delays e)) g0 in
  let d2i := _create_delays2inds_map fs dl in
  row_get (ext_geocenter_delays e) 0 = Ok g0 →
  np_min_axis0 (map fst d2i) = Ok mn →
  np_max_axis0 (map fst d2i) = Ok mx →
  foldM (delays_prior_step fs (ext_geocenter_delays e)
           (antenna_weights sqrtQ (ext_fplus_fcross_0 e)))
        ([], []) (detector_orders (length (arg_detector_names a))) = Ok tables →
  fill_ind_generators (dense_shape mn mx) d2i = Raise err →
  construct sqrtQ a e = (attributes_before_prior, Raise err).
Proof.
  intros fs dl d2i Hg0 Hmn Hmx Htab Hgens.
  unfold construct, init.
  unfold mbind, Init_bind, mret, Init_ret, assign, lift. simpl.
  rewrite Hg0. fold fs dl d2i. rewrite Hmn, Hmx, Htab.
  unfold dense_shape in Hgens. by rewrite Hgens.
Qed.

Lemma construct_early_stages sqrtQ a e :
  externals_shaped a e →
  (2 ≤ length (arg_detector_names a))%nat → 0 < arg_nsky a →
  ∃ g0 rest mn mx tables,
    ext_geocenter_delays e = g0 :: rest ∧
    _discretize (arg_f_sampling a) (rows_minus rest g0) ≠ [] ∧
    Forall (λ r, length r = Z.to_nat (arg_nsky a))
           (_discretize (arg_f_sampling a) (rows_minus rest g0)) ∧
    np_min_axis0 (map fst (build_index
      (zip_star (_discretize (arg_f_sampling a) (rows_minus rest g0))))) = Ok mn ∧
    np_max_axis0 (map fst (build_index
      (zip_star (_discretize (arg_f_sampling a) (rows_minus rest g0))))) = Ok mx ∧
    foldM (delays_prior_step (arg_f_sampling a) (ext_geocenter_delays e)
             (antenna_weights sqrtQ (ext_fplus_fcross_0 e)))
          ([], []) (detector_orders (length (arg_detector_names a))) = Ok tables.
Proof.
  intros [Hlen Hrows] H2 Hnsky.
  destruct (ext_geocenter_delays e) as [|g0 rest] eqn:Hg; [simpl in Hlen; lia|].
  apply Forall_cons in Hrows as Hrows'. destruct Hrows' as [Hg0l Hrestl].
  set (D := _discretize (arg_f_sampling a) (rows_minus rest g0)).
  assert (Forall (λ r, length r = Z.to_nat (arg_nsky a)) D) as HD.
  { unfold D, _discretize. rewrite map_fmap. apply Forall_fmap.
    eapply Forall_impl;
      [apply (rows_minus_lengths rest g0 (Z.to_nat (arg_nsky a)))|].
    - eapply Forall_impl; [exact Hrestl|]. simpl. intros; lia.
    - lia.
    - simpl. intros r Hr. by rewrite length_map. }
  assert (D ≠ []) as HDne.
  { unfold D, _discretize, rows_minus. simpl in Hlen.
    destruct rest; simpl in *; [lia | done]. }
  assert (map fst (build_index (zip_star D)) ≠ []) as Hne.
  { intros Hnil.
    assert (build_index (zip_star D) = []) as Hd
      by (by destruct (build_index (zip_star D))).
    apply build_index_nil in Hd. apply (f_equal length) in Hd.
    rewrite (zip_star_length D (Z.to_nat (arg_nsky a))) in Hd by done.
    simpl in Hd. lia. }
  destruct (np_min_axis0 (map fst (build_index (zip_star D)))) as [mn|] eqn:Hmn;
    [|by destruct (map fst (build_index (zip_star D)))].
  destruct (np_max_axis0 (map fst (build_index (zip_star D)))) as [mx|] eqn:Hmx;
    [|by destruct (map fst (build_index (zip_star D)))].
  destruct (delays_prior_loop_Ok (arg_f_sampling a) (g0 :: rest)
              (antenna_weights sqrtQ (ext_fplus_fcross_0 e))
              (Z.to_nat (arg_nsky a) - 1)
              (detector_orders (length (arg_detector_names a))) ([], []))
    as [tables Htab].
  { eapply Forall_impl; [exact Hrows|]. simpl. intros; lia. }
  { apply Forall_forall. intros o (Ho1 & _ & Ho2)%elem_of_detector_orders.
    split; [done|]. by rewrite Hlen. }
  by exists g0, rest, mn, mx, tables.
Qed.

(** X5.  Two ways the constructor ends in IndexError.  A network without
    detectors fails at [geocenter_delays[0]], before any delay is
    computed.  A network of at least two detectors with at least one
    sample whose delays, in some delay dimension, are all positive or all
    below -1 fails while the Cyclic Sample Provider array is filled: some
    key is then not a valid index of the dense arrays. *)
Theorem construct_index_errors sqrtQ a e :
  externals_shaped a e →
  (arg_detector_names a = [] →
     construct sqrtQ a e = (attributes_before_delays, Raise IndexError)) ∧
  ((2 ≤ length (arg_detector_names a))%nat → 0 < arg_nsky a →
   ¬ Forall straddles_zero (_discretize (arg_f_sampling a) (relative_delays e)) →
     construct sqrtQ a e = (attributes_before_prior, Raise IndexError)).
Proof.
  intros Hsh. split.
  - intros Hnames. destruct Hsh as [Hlen _]. rewrite Hnames in Hlen.
    unfold construct, init.
    unfold mbind, Init_bind, mret, Init_ret, assign, lift. simpl.
    by destruct (ext_geocenter_delays e).
  - intros H2 Hnsky Hstr.
    destruct (construct_early_stages sqrtQ a e Hsh H2 Hnsky)
      as (g0 & rest & mn & mx & tables & Hg & HDne & HD & Hmn & Hmx & Htab).
    unfold relative_delays in Hstr. rewrite Hg in Hstr.
    assert (row_get (ext_geocenter_delays e) 0 = Ok g0) as Hg0 by (by rewrite Hg).
    assert (drop 1 (ext_geocenter_delays e) = rest) as Hdrop by (by rewrite Hg).
    destruct (fill_ind_generators (dense_shape mn mx)
                (build_index (zip_star (_discretize (arg_f_sampling a)
                                          (rows_minus rest g0)))))
      as [[gens h]|err] eqn:Hgens.
    + exfalso. apply Hstr.
      apply (indexable_straddles _ _ mn mx HDne HD Hmn Hmx).
      apply fill_ind_generators_writes in Hgens as [Hw _].
      apply writes_Ok_inv in Hw. simpl in Hw.
      eapply (addressed_indexable _ (length (_discretize (arg_f_sampling a)
                                               (rows_minus rest g0))));
        [| exact Hmn | exact Hmx |].
      * apply Forall_forall. intros k Hk.
        apply (proj1 (build_index_keys _ _)) in Hk.
        by apply zip_star_tuple_length in Hk.
      * rewrite <- (keys_imap S (build_index _)).
        rewrite map_fmap. apply Forall_fmap. exact Hw.
    + pose proof (fill_ind_generators_raises _ _ _ Hgens) as ->.
      apply (construct_generators_raise sqrtQ a e g0 mn mx tables); try done.
      all: rewrite Hdrop; done.
Qed.

(** X5 at a network without detectors and at a two-detector network
    whose single sample has the discretized delay 5. *)
Lemma construct_index_errors_witness :
  construct isqrtQ
    {| arg_detector_names := []; arg_f_sampling := 1; arg_nsky := 1; arg_seed := 0 |}
    {| ext_sky_samples := ([0], [0])%Q; ext_fplus_fcross_0 := [[]];
       ext_geocenter_delays := [] |}
  = (attributes_before_delays, Raise IndexError) ∧
  construct isqrtQ
    {| arg_detector_names := ["H"; "L"]%string; arg_f_sampling := 1;
       arg_nsky := 1; arg_seed := 0 |}
    {| ext_sky_samples := ([0], [0])%Q;
       ext_fplus_fcross_0 := [ [[1; 0]; [1; 0]] ]%Q;
       ext_geocenter_delays := [ [0]; [5 # 1] ]%Q |}
  = (attributes_before_prior, Raise IndexError).
Proof.
  split.
  - apply (construct_index_errors isqrtQ); [|reflexivity].
    split; [reflexivity | constructor].
  - apply (construct_index_errors isqrtQ).
    + split; [reflexivity | repeat constructor].
    + apply le_n.
    + reflexivity.
    + assert (_discretize 1 (relative_delays
                {| ext_sky_samples := ([0], [0])%Q;
                   ext_fplus_fcross_0 := [ [[1; 0]; [1; 0]] ]%Q;
                   ext_geocenter_delays := [ [0]; [5 # 1] ]%Q |}) = [[5]]) as Heq
        by (vm_compute; reflexivity).
      simpl arg_f_sampling. rewrite Heq.
      intros [[(x & Hx & Hx0) _] _]%Forall_cons.
      apply list_elem_of_singleton in Hx as ->. lia.
Defined.

(** X6.  The Delay Range is the tight bounding box of the samples' keys:
    it has one component per delay dimension, every sample's key lies in
    it, and along every dimension its minimum and its maximum are the
    delay of some sample. *)
Theorem delay_range_is_tight sqrtQ a e log s h0 :
  construct sqrtQ a e = (log, Ok (s, h0)) →
  length (_min_delay s) = length (delays s) ∧
  length (_max_delay s) = length (delays s) ∧
  (∀ key, key ∈ sample_keys s → within (_min_delay s) (_max_delay s) key) ∧
  (∀ j m, _min_delay s !! j = Some m →
     ∃ key, key ∈ sample_keys s ∧ key !! j = Some m) ∧
  (∀ j M, _max_delay s !! j = Some M →
     ∃ key, key ∈ sample_keys s ∧ key !! j = Some M).
Proof.
  intros [Hc _]%construct_Ok_inv.
  pose proof (engine_keys_length _ _ _ _ _ Hc) as Hkl.
  destruct (np_min_axis0_spec _ _ _ Hkl (c_min _ _ _ _ _ Hc)) as (Hl1 & _ & Hmin).
  destruct (np_max_axis0_spec _ _ _ Hkl (c_max _ _ _ _ _ Hc)) as (Hl2 & _ & Hmax).
  split_and!; [done | done | | |].
  - intros key Hkey. apply (engine_key_within _ _ _ _ _ Hc).
    by rewrite (engine_index _ _ _ _ _ Hc), build_index_keys.
  - intros j m Hm. destruct (Hmin j m Hm) as (key & Hkey & Hj).
    exists key. split; [|done].
    by rewrite (engine_index _ _ _ _ _ Hc), build_index_keys in Hkey.
  - intros j M HM. destruct (Hmax j M HM) as (key & Hkey & Hj).
    exists key. split; [|done].
    by rewrite (engine_index _ _ _ _ _ Hc), build_index_keys in Hkey.
Qed.

(** X6 at a two-detector engine. *)
Lemma delay_range_is_tight_witness :
  length (_min_delay Examples.built_HL.1) = length (delays Examples.built_HL.1) ∧
  length (_max_delay Examples.built_HL.1) = length (delays Examples.built_HL.1) ∧
  (∀ key, key ∈ sample_keys Examples.built_HL.1 →
     within (_min_delay Examples.built_HL.1) (_max_delay Examples.built_HL.1) key) ∧
  (∀ j m, _min_delay Examples.built_HL.1 !! j = Some m →
     ∃ key, key ∈ sample_keys Examples.built_HL.1 ∧ key !! j = Some m) ∧
  (∀ j M, _max_delay Examples.built_HL.1 !! j = Some M →
     ∃ key, key ∈ sample_keys Examples.built_HL.1 ∧ key !! j = Some M).
Proof.
  apply (delay_range_is_tight isqrtQ Examples.args_HL Examples.ext_HL
           all_attributes Examples.built_HL.1 Examples.built_HL.2).
  vm_compute. reflexivity.
Defined.

(** ** The tables of the conditional delay-prior builder *)

Lemma delays_prior_step_bounds fs g weights st order st' :
  delays_prior_step fs g weights st order = Ok st' →
  if decide (length order = 2%nat)
  then ∃ v, pairwise_bounds fs g order = Ok v ∧ st'.1 = dict_set st.1 order v
  else st'.1 = st.1.
Proof.
  unfold delays_prior_step, pairwise_bounds.
  intros (pairwise & Hp & Hst)%bind_Ok_inv. rewrite Hp. simpl.
  apply bind_Ok_inv in Hst as (bins & Hb & Hst).
  case_decide.
  - apply bind_Ok_inv in Hst as (lo & Hlo & Hst).
    apply bind_Ok_inv in Hst as (hi & Hhi & [= <-]).
    rewrite Hlo, Hhi. simpl. eauto.
  - by injection Hst as <-.
Qed.

Lemma delays_bounds_table fs g weights orders st st' :
  foldM (delays_prior_step fs g weights) st orders = Ok st' →
  (∀ o v, dict_get st.1 o = Some v → pairwise_bounds fs g o = Ok v) →
  (∀ o v, dict_get st'.1 o = Some v → pairwise_bounds fs g o = Ok v) ∧
  (∀ o, (o ∈ orders ∧ length o = 2%nat) ∨ is_Some (dict_get st.1 o) →
        is_Some (dict_get st'.1 o)).
Proof.
  revert st; induction orders as [|o1 orders IH]; intros st Hst Hinv.
  - injection Hst as <-. split; [done|].
    intros o [[?%elem_of_nil _]|?]; done.
  - simpl in Hst. apply bind_Ok_inv in Hst as (st1 & Hstep & Hst).
    apply delays_prior_step_bounds in Hstep.
    destruct (IH st1 Hst) as [Hinv' Hsome].
    { intros o v. case_decide as Hl.
      - destruct Hstep as (v1 & Hv1 & ->). rewrite dict_get_set.
        case_decide; [|by apply Hinv]. intros [= <-]. by subst.
      - rewrite Hstep. apply Hinv. }
    split; [done|]. intros o Ho. apply Hsome.
    destruct Ho as [[[->|Ho]%elem_of_cons Hl]|Ho].
    + right. rewrite decide_True in Hstep by done.
      destruct Hstep as (v1 & _ & ->). rewrite dict_get_set.
      by rewrite decide_True.
    + by left.
    + right. case_decide.
      * destruct Hstep as (v1 & _ & ->). rewrite dict_get_set.
        by case_decide.
      * by rewrite Hstep.
Qed.

Lemma dict_set_keys {K V} `{EqDecision K} (d : pydict K V) (k key : K) (v : V) :
  is_Some (dict_get (dict_set d k v) key) → key = k ∨ is_Some (dict_get d key).
Proof.
  rewrite dict_get_set. case_decide; [by left; subst | by right].
Qed.

(** Only the orders the loop runs through become keys of the tables. *)
Lemma tables_keys fs g weights orders st st' (P : list nat → Prop) :
  foldM (delays_prior_step fs g weights) st orders = Ok st' →
  Forall P orders →
  (∀ o, is_Some (dict_get st.1 o) → P o ∧ length o = 2%nat) →
  (∀ o, is_Some (dict_get st.2 o) → P o) →
  (∀ o, is_Some (dict_get st'.1 o) → P o ∧ length o = 2%nat) ∧
  (∀ o, is_Some (dict_get st'.2 o) → P o).
Proof.
  revert st; induction orders as [|o1 orders IH]; intros st Hst HP H1 H2.
  - by injection Hst as <-.
  - apply Forall_cons in HP as [HP1 HP].
    simpl in Hst. apply bind_Ok_inv in Hst as (st1 & Hstep & Hst).
    pose proof (delays_prior_step_bounds _ _ _ _ _ _ Hstep) as Hb.
    apply delays_prior_step_Ok in Hstep as (hist & _ & Hp).
    apply (IH st1 Hst HP).
    + intros o Ho. case_decide as Hl.
      * destruct Hb as (v & _ & Hb). rewrite Hb in Ho.
        apply dict_set_keys in Ho as [->|Ho]; [done | by apply H1].
      * rewrite Hb in Ho. by apply H1.
    + intros o Ho. rewrite Hp in Ho.
      apply dict_set_keys in Ho as [->|Ho]; [done | by apply H2].
Qed.

(** X7.  The keys of the two tables: [delays_prior] has an entry exactly
    for the duplicate-free tuples of at least two detector indices, and
    [delays_bounds] exactly for those of length two, the ordered pairs of
    distinct detectors. *)
Theorem tables_key_sets sqrtQ a e log s h0 order :
  construct sqrtQ a e = (log, Ok (s, h0)) →
  (is_Some (dict_get (delays_prior s) order) ↔
   (2 ≤ length order)%nat ∧ NoDup order ∧
   Forall (λ x, (x < length (detector_names s))%nat) order) ∧
  (is_Some (dict_get (delays_bounds s) order) ↔
   ∃ i j, order = [i; j] ∧ i ≠ j ∧
          (i < length (detector_names s))%nat ∧ (j < length (detector_names s))%nat).
Proof.
  intros [Hc _]%construct_Ok_inv.
  pose proof (c_tables _ _ _ _ _ Hc) as Htab.
  destruct (tables_keys _ _ _ _ _ _
              (λ o, o ∈ detector_orders (length (detector_names s))) Htab)
    as [Hk1 Hk2].
  { by apply Forall_forall. }
  { by intros o [v Hv]. }
  { by intros o [v Hv]. }
  destruct (delays_prior_table _ _ _ _ _ _ Htab) as [_ Hs2]; [done|].
  destruct (delays_bounds_table _ _ _ _ _ _ Htab) as [_ Hs1]; [done|].
  simpl in *. split.
  - rewrite <- elem_of_detector_orders. split; [apply Hk2|].
    intros Ho. apply Hs2. by left.
  - split.
    + intros Ho. destruct (Hk1 _ Ho) as [(Hl & Hnd & Hall)%elem_of_detector_orders Hl2].
      destruct order as [|i [|j [|??]]]; simplify_eq/=.
      exists i, j. apply NoDup_cons in Hnd as [Hij _].
      apply Forall_cons in Hall as [Hi [Hj _]%Forall_cons].
      split_and!; try done. intros ->. apply Hij. left.
    + intros (i & j & -> & Hij & Hi & Hj). apply Hs1. left. split; [|done].
      apply elem_of_detector_orders. split_and!; [simpl; lia | | by repeat constructor].
      apply NoDup_cons. split; [by intros ->%list_elem_of_singleton|].
      apply NoDup_singleton.
Qed.

(** X7 at the pair (V, H) of a three-detector engine. *)
Lemma tables_key_sets_witness :
  (is_Some (dict_get (delays_prior Examples.built_HLV.1) [2; 0]%nat) ↔
   (2 ≤ length [2; 0]%nat)%nat ∧ NoDup [2; 0]%nat ∧
   Forall (λ x, (x < length (detector_names Examples.built_HLV.1))%nat) [2; 0]%nat) ∧
  (is_Some (dict_get (delays_bounds Examples.built_HLV.1) [2; 0]%nat) ↔
   ∃ i j, [2; 0]%nat = [i; j] ∧ i ≠ j ∧
          (i < length (detector_names Examples.built_HLV.1))%nat ∧
          (j < length (detector_names Examples.built_HLV.1))%nat).
Proof.
  apply (tables_key_sets isqrtQ Examples.args_HLV Examples.ext_HLV
           all_attributes Examples.built_HLV.1 Examples.built_HLV.2).
  vm_compute. reflexivity.
Defined.

Lemma np_min_spec (row : list Z) (lo : Z) :
  np_min row = Ok lo → lo ∈ row ∧ ∀ x, x ∈ row → lo ≤ x.
Proof.
  destruct row as [|x0 row]; [done|]. simpl. intros [= <-].
  revert x0; induction row as [|y row IH]; intros x0; simpl.
  - split; [left|]. by intros x ->%list_elem_of_singleton.
  - destruct (IH (Z.min x0 y)) as [Hin Hle]. split.
    + apply elem_of_cons in Hin as [Hin|Hin]; [|by do 2 right].
      rewrite Hin. destruct (Z.min_spec x0 y) as [[_ ->]|[_ ->]];
        [left | right; left].
    + intros x Hx. pose proof (Hle (Z.min x0 y) ltac:(left)) as H0.
      apply elem_of_cons in Hx as [->|[->|Hx]%elem_of_cons]; [lia | lia |].
      apply Hle. by right.
Qed.

Lemma np_max_spec (row : list Z) (hi : Z) :
  np_max row = Ok hi → hi ∈ row ∧ ∀ x, x ∈ row → x ≤ hi.
Proof.
  destruct row as [|x0 row]; [done|]. simpl. intros [= <-].
  revert x0; induction row as [|y row IH]; intros x0; simpl.
  - split; [left|]. by intros x ->%list_elem_of_singleton.
  - destruct (IH (Z.max x0 y)) as [Hin Hle]. split.
    + apply elem_of_cons in Hin as [Hin|Hin]; [|by do 2 right].
      rewrite Hin. destruct (Z.max_spec x0 y) as [[_ ->]|[_ ->]];
        [right; left | left].
    + intros x Hx. pose proof (Hle (Z.max x0 y) ltac:(left)) as H0.
      apply elem_of_cons in Hx as [->|[->|Hx]%elem_of_cons]; [lia | lia |].
      apply Hle. by right.
Qed.

(** The pairwise delays of an ordered pair are one row: the discretized
    delays from the first detector of the pair to the second. *)
Lemma pairwise_delays_of_pair fs g i j pairwise :
  pairwise_delays_of fs g [i; j] = Ok pairwise →
  ∃ gi gj, g !! i = Some gi ∧ g !! j = Some gj ∧
           pairwise = [pair_delays fs gi gj].
Proof.
  unfold pairwise_delays_of, row_get. simpl.
  destruct (g !! j) as [gj|]; [|done]. simpl.
  destruct (g !! i) as [gi|]; [|done]. simpl.
  intros [= <-]. by exists gi, gj.
Qed.

Lemma pairwise_bounds_pair fs g i j lo hi :
  pairwise_bounds fs g [i; j] = Ok (lo, hi) →
  ∃ gi gj, g !! i = Some gi ∧ g !! j = Some gj ∧
           np_min (pair_delays fs gi gj) = Ok lo ∧
           np_max (pair_delays fs gi gj) = Ok hi.
Proof.
  unfold pairwise_bounds.
  intros (pairwise & Hp & Hb)%bind_Ok_inv.
  apply pairwise_delays_of_pair in Hp as (gi & gj & Hi & Hj & ->).
  simpl in Hb. rewrite app_nil_r in Hb.
  apply bind_Ok_inv in Hb as (lo' & Hlo & Hb).
  apply bind_Ok_inv in Hb as (hi' & Hhi & [= <- <-]).
  by exists gi, gj.
Qed.

Lemma constructed_bounds sqrtQ a e s h0 order v :
  constructed sqrtQ a e s h0 →
  dict_get (delays_bounds s) order = Some v →
  pairwise_bounds (f_sampling s) (ext_geocenter_delays e) order = Ok v.
Proof.
  intros Hc Hv.
  destruct (delays_bounds_table _ _ _ _ _ _ (c_tables _ _ _ _ _ Hc)) as [Hinv _];
    [done|].
  by apply Hinv.
Qed.

(** X8.  What [delays_bounds] stores for a pair (i, j): the smallest and
    the largest discretized delay from detector i to detector j over the
    samples, in units of the sampling period.  Both are the delay of some
    sample, and every sample's delay lies between them. *)
Theorem delays_bounds_are_extrema sqrtQ a e log s h0 i j lo hi :
  construct sqrtQ a e = (log, Ok (s, h0)) →
  dict_get (delays_bounds s) [i; j] = Some (lo, hi) →
  ∃ gi gj,
    ext_geocenter_delays e !! i = Some gi ∧
    ext_geocenter_delays e !! j = Some gj ∧
    lo ∈ pair_delays (f_sampling s) gi gj ∧
    hi ∈ pair_delays (f_sampling s) gi gj ∧
    ∀ x, x ∈ pair_delays (f_sampling s) gi gj → lo ≤ x ≤ hi.
Proof.
  intros [Hc _]%construct_Ok_inv Hb.
  apply (constructed_bounds _ _ _ _ _ _ _ Hc) in Hb.
  apply pairwise_bounds_pair in Hb as (gi & gj & Hi & Hj & Hlo & Hhi).
  apply np_min_spec in Hlo as [Hlo1 Hlo2].
  apply np_max_spec in Hhi as [Hhi1 Hhi2].
  exists gi, gj. split_and!; try done.
  intros x Hx. split; [by apply Hlo2 | by apply Hhi2].
Qed.

(** X8 at the pair (H, L) of a three-detector engine whose delays are not
    symmetric about zero. *)
Lemma delays_bounds_are_extrema_witness :
  ∃ gi gj,
    ext_geocenter_delays BoundsExamples.ext !! 0%nat = Some gi ∧
    ext_geocenter_delays BoundsExamples.ext !! 1%nat = Some gj ∧
    -1 ∈ pair_delays (f_sampling BoundsExamples.engine.1) gi gj ∧
    2 ∈ pair_delays (f_sampling BoundsExamples.engine.1) gi gj ∧
    ∀ x, x ∈ pair_delays (f_sampling BoundsExamples.engine.1) gi gj → -1 ≤ x ≤ 2.
Proof.
  apply (delays_bounds_are_extrema isqrtQ BoundsExamples.args BoundsExamples.ext
           all_attributes BoundsExamples.engine.1 BoundsExamples.engine.2
           0%nat 1%nat (-1) 2).
  - vm_compute. reflexivity.
  - vm_compute. reflexivity.
Defined.

(** ** Rounding to the sampling grid *)

Ltac inject_Z_arith :=
  unfold Z.sub in *;
  rewrite ?inject_Z_plus, ?inject_Z_opp in *;
  change (inject_Z 1) with 1%Q in *.

Lemma Qfloor_unique (y : Q) (n : Z) :
  (inject_Z n <= y)%Q → (y < inject_Z (n + 1))%Q → Qfloor y = n.
Proof.
  intros H1 H2.
  pose proof (Qfloor_le y) as H3. pose proof (Qlt_floor y) as H4.
  assert (inject_Z n < inject_Z (Qfloor y + 1))%Q as H5 by (eapply Qle_lt_trans; eauto).
  assert (inject_Z (Qfloor y) < inject_Z (n + 1))%Q as H6 by (eapply Qle_lt_trans; eauto).
  rewrite <- Zlt_Qlt in H5, H6. lia.
Qed.

(** The three cases of rounding to nearest, ties to even. *)
Lemma rint_cases (x : Q) :
  let fl := Qfloor x in
  (inject_Z fl <= x)%Q ∧ (x < inject_Z fl + 1)%Q ∧
  (((x - inject_Z fl < 1 # 2)%Q ∧ rint x = fl) ∨
   ((1 # 2 < x - inject_Z fl)%Q ∧ rint x = fl + 1) ∨
   ((x - inject_Z fl == 1 # 2)%Q ∧ rint x = if Z.even fl then fl else fl + 1)).
Proof.
  intros fl. pose proof (Qfloor_le x) as H3. pose proof (Qlt_floor x) as H4.
  rewrite inject_Z_plus in H4. fold fl in H3, H4.
  split; [done|]. split; [done|]. unfold rint. fold fl.
  destruct (Qcompare_spec (x - inject_Z fl) (1 # 2)) as [H|H|H]; auto.
Qed.

Lemma rint_comp (x y : Q) : (x == y)%Q → rint x = rint y.
Proof.
  intros Hxy. unfold rint. rewrite (Qfloor_comp _ _ Hxy).
  assert (x - inject_Z (Qfloor y) == y - inject_Z (Qfloor y))%Q as H by lra.
  by rewrite (Qcompare_comp _ _ H _ _ (Qeq_refl (1 # 2))).
Qed.

Lemma rint_opp (x : Q) : rint (- x) = - rint x.
Proof.
  destruct (rint_cases x) as (H1 & H2 & H).
  destruct (rint_cases (- x)) as (H1' & H2' & H').
  set (fl := Qfloor x) in *. set (fl' := Qfloor (- x)) in *.
  destruct (Qeq_dec x (inject_Z fl)) as [Hx|Hx].
  - assert (fl' = - fl) as Hfl.
    { apply Qfloor_unique; inject_Z_arith; lra. }
    rewrite Hfl, inject_Z_opp in *.
    destruct H as [[_ ->]|[[H _]|[H _]]]; [|lra|lra].
    destruct H' as [[_ ->]|[[H' _]|[H' _]]]; [done|lra|lra].
  - assert (fl' = - fl - 1) as Hfl.
    { assert (inject_Z fl < x)%Q as Hlt.
      { apply Qle_lteq in H1 as [?|Heq]; [done|]. exfalso. apply Hx. lra. }
      apply Qfloor_unique.
      - clear H H'. inject_Z_arith. lra.
      - replace (- fl - 1 + 1) with (- fl) by lia. rewrite inject_Z_opp. lra. }
    assert (inject_Z fl' == - inject_Z fl - 1)%Q as Hq.
    { rewrite Hfl. clear. inject_Z_arith. lra. }
    assert (Z.even fl' = negb (Z.even fl)) as Hev.
    { rewrite Hfl. replace (- fl - 1) with (- (Z.succ fl)) by lia.
      by rewrite Z.even_opp, Z.even_succ, <- Z.negb_even. }
    destruct H as [[H ->]|[[H ->]|[H ->]]];
      destruct H' as [[H' ->]|[[H' ->]|[H' ->]]];
      try lra; try lia.
    rewrite Hev. destruct (Z.even fl); simpl; lia.
Qed.

(** ** Symmetries of the bounds table *)

Lemma pair_delays_swap fs gi gj :
  pair_delays fs gj gi = map Z.opp (pair_delays fs gi gj).
Proof.
  unfold pair_delays. revert gj; induction gi as [|x gi IH]; intros [|y gj];
    simpl; try done.
  f_equal; [|apply IH].
  rewrite <- rint_opp. apply rint_comp. lra.
Qed.

Lemma constructed_bounds_keys sqrtQ a e s h0 i j :
  constructed sqrtQ a e s h0 →
  is_Some (dict_get (delays_bounds s) [i; j]) ↔
  i ≠ j ∧ (i < length (detector_names s))%nat ∧ (j < length (detector_names s))%nat.
Proof.
  intros Hc. pose proof (c_tables _ _ _ _ _ Hc) as Htab.
  destruct (tables_keys _ _ _ _ _ _
              (λ o, o ∈ detector_orders (length (detector_names s))) Htab)
    as [Hk1 _].
  { by apply Forall_forall. }
  { by intros o [v Hv]. }
  { by intros o [v Hv]. }
  destruct (delays_bounds_table _ _ _ _ _ _ Htab) as [_ Hs1]; [done|].
  simpl in *. split.
  - intros Ho.
    destruct (Hk1 _ Ho) as [(Hl & Hnd & Hall)%elem_of_detector_orders _].
    apply NoDup_cons in Hnd as [Hij _].
    apply Forall_cons in Hall as [Hi [Hj _]%Forall_cons].
    split_and!; try done. intros ->. apply Hij. left.
  - intros (Hij & Hi & Hj). apply Hs1. left. split; [|done].
    apply elem_of_detector_orders. split_and!; [simpl; lia | | by repeat constructor].
    apply NoDup_cons. split; [by intros ->%list_elem_of_singleton|].
    apply NoDup_singleton.
Qed.

(** X9.  The bounds table is antisymmetric: the bounds stored for the
    pair (j, i) are the negated bounds of the pair (i, j), swapped. *)
Theorem delays_bounds_antisymmetric sqrtQ a e log s h0 i j lo hi :
  construct sqrtQ a e = (log, Ok (s, h0)) →
  dict_get (delays_bounds s) [i; j] = Some (lo, hi) →
  dict_get (delays_bounds s) [j; i] = Some (- hi, - lo).
Proof.
  intros [Hc _]%construct_Ok_inv Hb.
  assert (is_Some (dict_get (delays_bounds s) [j; i])) as [[lo' hi'] Hb'].
  { apply (constructed_bounds_keys _ _ _ _ _ _ _ Hc).
    assert (is_Some (dict_get (delays_bounds s) [i; j])) as Hs by done.
    apply (constructed_bounds_keys _ _ _ _ _ _ _ Hc) in Hs as (? & ? & ?).
    split_and!; done. }
  rewrite Hb'. cut (lo' = - hi ∧ hi' = - lo); [by intros [-> ->]|].
  apply (constructed_bounds _ _ _ _ _ _ _ Hc) in Hb, Hb'.
  apply pairwise_bounds_pair in Hb as (gi & gj & Hi & Hj & Hlo & Hhi).
  apply pairwise_bounds_pair in Hb' as (gj' & gi' & Hj' & Hi' & Hlo' & Hhi').
  simplify_eq. rewrite pair_delays_swap in Hlo', Hhi'.
  apply np_min_spec in Hlo as [Hlo1 Hlo2], Hlo' as [Hlo1' Hlo2'].
  apply np_max_spec in Hhi as [Hhi1 Hhi2], Hhi' as [Hhi1' Hhi2'].
  rewrite map_fmap in Hlo1', Hhi1', Hlo2', Hhi2'.
  apply list_elem_of_fmap in Hlo1' as (x & -> & Hx).
  apply list_elem_of_fmap in Hhi1' as (y & -> & Hy).
  pose proof (Hlo2' (- hi) ltac:(apply list_elem_of_fmap; eauto)).
  pose proof (Hhi2' (- lo) ltac:(apply list_elem_of_fmap; eauto)).
  pose proof (Hhi2 x Hx). pose proof (Hlo2 y Hy).
  split; lia.
Qed.

(** X9 at the pair (H, L) of a three-detector engine whose delays are not
    symmetric about zero. *)
Lemma delays_bounds_antisymmetric_witness :
  dict_get (delays_bounds BoundsExamples.engine.1) [1; 0]%nat = Some (-2, 1).
Proof.
  refine (delays_bounds_antisymmetric isqrtQ BoundsExamples.args BoundsExamples.ext
            all_attributes BoundsExamples.engine.1 BoundsExamples.engine.2
            0%nat 1%nat (-1) 2 _ _).
  - vm_compute. reflexivity.
  - vm_compute. reflexivity.
Defined.

Lemma column_lookup {A} (d : A) (rows : list (list A)) (j i : nat) (row : list A) :
  rows !! j = Some row → column d rows i !! j = Some (nth i row d).
Proof.
  intros Hj. unfold column. by rewrite map_fmap, list_lookup_fmap, Hj.
Qed.

(** The rows of the discretized relative delays are the pairwise delays
    from the first detector. *)
Lemma constructed_delay_rows sqrtQ a e s h0 j g0 gj :
  constructed sqrtQ a e s h0 →
  ext_geocenter_delays e !! 0%nat = Some g0 →
  ext_geocenter_delays e !! S j = Some gj →
  _discretize (f_sampling s) (delays s) !! j
  = Some (pair_delays (f_sampling s) g0 gj).
Proof.
  intros Hc H0 Hj.
  pose proof (c_g0 _ _ _ _ _ Hc) as Hg0. unfold row_get in Hg0.
  rewrite H0 in Hg0. injection Hg0 as Hg0.
  unfold _discretize. rewrite (c_delays _ _ _ _ _ Hc), <- Hg0.
  unfold rows_minus. rewrite !map_fmap, !list_lookup_fmap, lookup_drop.
  replace (1 + j)%nat with (S j) by lia. rewrite Hj. simpl.
  unfold pair_delays. by rewrite map_fmap.
Qed.

(** X10.  For a network whose external arrays are rectangular, the bounds
    stored for the pair (first detector, detector j+1) are component j of
    the Delay Range: the dense arrays and the bounds table agree on the
    extent of every delay dimension. *)
Theorem first_detector_bounds_are_delay_range sqrtQ a e log s h0 j lo hi :
  construct sqrtQ a e = (log, Ok (s, h0)) →
  externals_shaped a e →
  dict_get (delays_bounds s) [0; S j]%nat = Some (lo, hi) →
  _min_delay s !! j = Some lo ∧ _max_delay s !! j = Some hi.
Proof.
  intros [Hc _]%construct_Ok_inv Hsh Hb.
  apply (constructed_bounds _ _ _ _ _ _ _ Hc) in Hb.
  apply pairwise_bounds_pair in Hb as (g0 & gj & H0 & Hj & Hlo & Hhi).
  pose proof (constructed_delay_rows _ _ _ _ _ _ _ _ Hc H0 Hj) as Hrow.
  set (row := pair_delays (f_sampling s) g0 gj) in *.
  set (D := _discretize (f_sampling s) (delays s)) in *.
  pose proof (shaped_sample_keys _ _ _ _ _ Hc Hsh) as Hkeys. fold D in Hkeys.
  assert (j < length (delays s))%nat as Hjl.
  { apply lookup_lt_Some in Hrow. unfold D, _discretize in Hrow.
    by rewrite length_map in Hrow. }
  assert (length row = Z.to_nat (nsky s)) as Hlen.
  { pose proof (shaped_delays_rows _ _ _ _ _ Hc Hsh) as Hall.
    unfold D, _discretize in Hrow.
    rewrite map_fmap, list_lookup_fmap in Hrow.
    destruct (delays s !! j) as [r|] eqn:Hr; [|done].
    injection Hrow as Hrow. rewrite <- Hrow, length_map.
    rewrite Forall_forall in Hall. apply Hall.
    by eapply list_elem_of_lookup_2. }
  assert (∀ i, (i < length row)%nat →
               column 0 D i ∈ map fst (delays2inds_map s)) as Hin.
  { intros i Hi. rewrite (engine_index _ _ _ _ _ Hc), build_index_keys, Hkeys.
    rewrite map_fmap. apply list_elem_of_fmap. exists i. split; [done|].
    apply list_elem_of_In, in_seq. lia. }
  assert (∀ key, key ∈ map fst (delays2inds_map s) →
                 ∃ x, key !! j = Some x ∧ x ∈ row) as Hout.
  { intros key Hkey.
    rewrite (engine_index _ _ _ _ _ Hc), build_index_keys, Hkeys in Hkey.
    rewrite map_fmap in Hkey. apply list_elem_of_fmap in Hkey as (i & -> & Hi).
    apply list_elem_of_In, in_seq in Hi.
    exists (nth i row 0). split; [by apply column_lookup|].
    destruct (lookup_lt_is_Some_2 row i) as [x Hx]; [lia|].
    rewrite (nth_lookup_Some _ _ _ _ Hx). by eapply list_elem_of_lookup_2. }
  pose proof (engine_keys_length _ _ _ _ _ Hc) as Hkl.
  destruct (np_min_axis0_spec _ _ _ Hkl (c_min _ _ _ _ _ Hc)) as (Hl1 & Hle1 & Hmin).
  destruct (np_max_axis0_spec _ _ _ Hkl (c_max _ _ _ _ _ Hc)) as (Hl2 & Hle2 & Hmax).
  apply np_min_spec in Hlo as [Hlo1 Hlo2].
  apply np_max_spec in Hhi as [Hhi1 Hhi2].
  destruct (lookup_lt_is_Some_2 (_min_delay s) j) as [m Hm]; [lia|].
  destruct (lookup_lt_is_Some_2 (_max_delay s) j) as [M HM]; [lia|].
  rewrite Hm, HM.
  assert (∀ x, x ∈ row → m ≤ x ≤ M) as Hbox.
  { intros x [i Hi]%list_elem_of_lookup_1.
    pose proof (lookup_lt_Some _ _ _ Hi) as Hil.
    pose proof (column_lookup 0 D j i row Hrow) as Hc1.
    rewrite (nth_lookup_Some _ _ _ _ Hi) in Hc1.
    split.
    - by eapply (Forall2_lookup_lr _ _ _ j m x (Hle1 _ (Hin i Hil))).
    - by eapply (Forall2_lookup_lr _ _ _ j x M (Hle2 _ (Hin i Hil))). }
  destruct (Hmin j m Hm) as (k1 & Hk1 & Hk1j).
  destruct (Hout k1 Hk1) as (x1 & Hx1 & Hx1r).
  destruct (Hmax j M HM) as (k2 & Hk2 & Hk2j).
  destruct (Hout k2 Hk2) as (x2 & Hx2 & Hx2r).
  simplify_eq.
  pose proof (Hbox lo Hlo1). pose proof (Hbox hi Hhi1).
  pose proof (Hlo2 _ Hx1r). pose proof (Hhi2 _ Hx2r).
  split; f_equal; lia.
Qed.

(** X10 at the pair (H, V) of a three-detector engine: the second delay
    dimension ranges over -2 .. 0. *)
Lemma first_detector_bounds_are_delay_range_witness :
  _min_delay BoundsExamples.engine.1 !! 1%nat = Some (-2) ∧
  _max_delay BoundsExamples.engine.1 !! 1%nat = Some 0.
Proof.
  apply (first_detector_bounds_are_delay_range isqrtQ BoundsExamples.args
           BoundsExamples.ext all_attributes
           BoundsExamples.engine.1 BoundsExamples.engine.2 1%nat (-2) 0).
  - vm_compute. reflexivity.
  - split; [reflexivity|]. repeat constructor.
  - vm_compute. reflexivity.
Defined.

(** ** What [resample_timeseries] returns *)

Lemma isclose_Qeq (a b : Q) : (a == b)%Q → isclose a b = true.
Proof.
  intros Hab. unfold isclose. apply Qle_bool_iff.
  assert (Qabs (a - b) == 0)%Q as ->.
  { assert (a - b == 0)%Q as -> by lra. reflexivity. }
  pose proof (Qabs_nonneg b). nra.
Qed.

Lemma item_Ok_length {A} (xs : list A) (j : nat) (x : A) :
  item xs j = Ok x → (j < length xs)%nat.
Proof.
  unfold item. destruct (xs !! j) eqn:E; [|done]. intros _.
  by eapply lookup_lt_Some.
Qed.

(** X13.  Whatever the external window and resampling primitives do, a
    call of [resample_timeseries] that returns hands back a time grid on
    the engine's sampling period: the grid (and the grid passed in) has at
    least two entries, f_sampling is not zero, and the spacing
    [times[1] - times[0]] of the returned grid is within numpy's tolerance
    of [1 / f_sampling]. *)
Theorem resample_timeseries_returns_grid {timeseries_t window_t : Type}
    (ts_shape : timeseries_t → list nat)
    (get_window : window_t → nat → result (list Q))
    (times_window : timeseries_t → Z → list Q → timeseries_t)
    (resample : timeseries_t → Z → list Q → Z → result (timeseries_t * list Q))
    (fs : Z) (timeseries : timeseries_t) (times : list Q) (axis : Z)
    (window : option window_t) (out : timeseries_t) (out_times : list Q) :
  resample_timeseries ts_shape get_window times_window resample
    fs timeseries times axis window = Ok (out, out_times) →
  (2 ≤ length times)%nat ∧ fs ≠ 0 ∧
  ∃ t0 t1, item out_times 0 = Ok t0 ∧ item out_times 1 = Ok t1 ∧
           isclose (1 / inject_Z fs) (t1 - t0) = true.
Proof.
  unfold resample_timeseries.
  intros (ts1 & _ & H)%bind_Ok_inv.
  apply bind_Ok_inv in H as (t1 & Ht1 & H).
  apply bind_Ok_inv in H as (t0 & Ht0 & H).
  split; [by apply item_Ok_length in Ht1|].
  destruct (Qeq_bool _ 1) eqn:Hratio.
  - injection H as <- <-. apply Qeq_bool_iff in Hratio.
    assert (fs ≠ 0) as Hfs.
    { intros ->. change (inject_Z 0) with 0%Q in Hratio. lra. }
    split; [done|]. exists t0, t1. split_and!; [done | done |].
    apply isclose_Qeq.
    assert (¬ inject_Z fs == 0)%Q as Hnz.
    { intros Hz. rewrite Hz in Hratio. lra. }
    transitivity (inject_Z fs * (t1 - t0) * / inject_Z fs)%Q.
    + rewrite Hratio. unfold Qdiv. reflexivity.
    + field. exact Hnz.
  - apply bind_Ok_inv in H as (r & _ & H).
    case_decide as Hfs; [done|]. simpl in H.
    apply bind_Ok_inv in H as (t1' & Ht1' & H).
    apply bind_Ok_inv in H as (t0' & Ht0' & H).
    destruct (isclose _ _) eqn:Hclose; [|done].
    injection H as ->. split; [done|]. by exists t0', t1'.
Qed.

(** X13 at an engine sampling at 4 Hz and a two-point grid of spacing 1/2,
    which is resampled to four points of spacing 2/8. *)
Lemma resample_timeseries_returns_grid_witness :
  (2 ≤ length [0; 1 # 2]%Q)%nat ∧ 4 ≠ 0 ∧
  ∃ t0 t1, item [0 # 8; 2 # 8; 4 # 8; 6 # 8]%Q 0 = Ok t0 ∧
           item [0 # 8; 2 # 8; 4 # 8; 6 # 8]%Q 1 = Ok t1 ∧
           isclose (1 / inject_Z 4) (t1 - t0) = true.
Proof.
  apply (resample_timeseries_returns_grid
           ResampleExamples.ts_shape ResampleExamples.get_window
           ResampleExamples.times_window ResampleExamples.resample
           4 [1; 2]%Q [0; 1 # 2]%Q (-1) (Some tt) [1; 1; 2; 2]%Q).
  vm_compute. reflexivity.
Defined.

(** ** The cells of the conditional delay-prior histograms *)

Lemma mapR_Ok_inv {A B} (f : A → result B) (xs : list A) (ys : list B) :
  mapR f xs = Ok ys → Forall2 (λ x y, f x = Ok y) xs ys.
Proof.
  revert ys; induction xs as [|x xs IH]; intros ys; simpl.
  - intros [= <-]. constructor.
  - intros (y & Hy & H)%bind_Ok_inv.
    apply bind_Ok_inv in H as (ys' & Hys & [= <-]).
    constructor; [done | by apply IH].
Qed.

Lemma edges_below (x : Z) (zs : list Z) :
  Forall (λ z, z < x) zs →
  filter (λ e, Qle_bool e (inject_Z x) = true)
         (map (λ z, inject_Z z + (1 # 2))%Q zs)
  = map (λ z, inject_Z z + (1 # 2))%Q zs.
Proof.
  induction 1 as [|z zs Hz _ IH]; [done|]. simpl.
  rewrite filter_cons_True, IH; [done|].
  apply Qle_bool_iff.
  assert (z + 1 ≤ x) as Hle by lia. rewrite Zle_Qle in Hle.
  inject_Z_arith. lra.
Qed.

Lemma edges_above (x : Z) (zs : list Z) :
  Forall (λ z, x ≤ z) zs →
  filter (λ e, Qle_bool e (inject_Z x) = true)
         (map (λ z, inject_Z z + (1 # 2))%Q zs)
  = [].
Proof.
  induction 1 as [|z zs Hz _ IH]; [done|]. simpl.
  rewrite filter_cons_False, IH; [done|].
  rewrite Qle_bool_iff. rewrite Zle_Qle in Hz. lra.
Qed.

(** An integer between the extreme delays falls in the bin at its offset
    from the smallest delay. *)
Lemma bin_of_half_integer (lo hi x : Z) :
  lo ≤ x ≤ hi →
  bin_of (map (λ z, inject_Z z + (1 # 2))%Q (seqZ (lo - 1) ((hi + 1) - (lo - 1))))
         (inject_Z x)
  = Some (x - lo).
Proof.
  intros Hx. unfold bin_of.
  replace (hi + 1 - (lo - 1)) with ((x - lo + 1) + (hi - x + 1)) by lia.
  rewrite seqZ_app by lia. rewrite map_app, filter_app.
  rewrite edges_below, edges_above.
  - rewrite app_nil_r, !length_app, !length_map, !length_seqZ.
    rewrite decide_False by lia. rewrite decide_False by lia.
    f_equal. lia.
  - apply Forall_forall. intros z Hz%elem_of_seqZ. lia.
  - apply Forall_forall. intros z Hz%elem_of_seqZ. lia.
Qed.

Lemma bins_of_half_integer (los his d : list Z) :
  Forall2 Z.le los d → Forall2 Z.le d his →
  bins_of (zip_with (λ lo hi, map (λ z, inject_Z z + (1 # 2))%Q
                                  (seqZ (lo - 1) ((hi + 1) - (lo - 1))))
                    los his) d
  = Some (zip_with Z.sub d los).
Proof.
  intros H1; revert his; induction H1 as [|lo x los d Hlo _ IH]; intros his H2.
  - by inversion H2.
  - inversion H2 as [|? hi ? his' Hhi H2']; subst. simpl.
    rewrite bin_of_half_integer by lia. simpl. by rewrite (IH _ H2').
Qed.

Lemma histogramdd_fold (bins : list (list Q)) (f : list Z → list Z)
    (l : list (list Z * Q)) (h : ndarray Q) :
  Forall (λ xw, bins_of bins xw.1 = Some (f xw.1)) l →
  let h' :=
    foldl (λ hist xw,
             match bins_of bins xw.1 with
             | Some cell =>
                 NdArray (nd_shape hist) (nd_fill hist)
                   (<[cell := (default (nd_fill hist) (nd_cells hist !! cell) + xw.2)%Q]>
                      (nd_cells hist))
             | None => hist
             end) h l in
  nd_shape h' = nd_shape h ∧ nd_fill h' = nd_fill h ∧
  ∀ c, (default (nd_fill h) (nd_cells h' !! c)
        == default (nd_fill h) (nd_cells h !! c)
           + Qsum (map snd (filter (λ xw, f xw.1 = c) l)))%Q.
Proof.
  revert h; induction l as [|[x w] l IH]; intros h Hall; simpl.
  - split_and!; [done | done |]. intros c. lra.
  - apply Forall_cons in Hall as [Hx Hall]. simpl in Hx. rewrite Hx.
    destruct (IH (NdArray (nd_shape h) (nd_fill h)
                    (<[f x := (default (nd_fill h) (nd_cells h !! f x) + w)%Q]>
                       (nd_cells h))) Hall) as (Hs & Hf & Hcells).
    simpl in *. split_and!; [done | done |]. intros c.
    rewrite (Hcells c). rewrite filter_cons. simpl.
    destruct (decide (f x = c)) as [<-|Hne].
    + rewrite lookup_insert_eq. simpl. lra.
    + rewrite lookup_insert_ne by done. lra.
Qed.

Lemma zip_star_entries {A} (rows : list (list A)) (t : list A) :
  t ∈ zip_star rows → Forall2 (λ x r, x ∈ r) t rows.
Proof.
  revert t; induction rows as [|r rows IH]; intros t Ht.
  - by apply elem_of_nil in Ht.
  - destruct rows as [|r' rows'].
    + simpl in Ht. rewrite map_fmap in Ht.
      apply list_elem_of_fmap in Ht as (x & -> & Hx). by repeat constructor.
    + change (zip_star (r :: r' :: rows'))
        with (zip_with cons r (zip_star (r' :: rows'))) in Ht.
      apply elem_of_zip_with in Ht as (x & t' & -> & Hx & Ht').
      constructor; [done | by apply IH].
Qed.

Lemma Forall2_chain {A B C} (P : A → B → Prop) (Q : B → C → Prop)
    (R : A → C → Prop) (xs : list A) (ys : list B) (zs : list C) :
  (∀ x y z, P x y → Q y z → R x z) →
  Forall2 P xs ys → Forall2 Q ys zs → Forall2 R xs zs.
Proof.
  intros HR H1; revert zs; induction H1; intros zs H2; inversion H2; subst;
    constructor; eauto.
Qed.

Lemma zip_with_sub_inj (los d1 d2 : list Z) :
  length d1 = length los → length d2 = length los →
  zip_with Z.sub d1 los = zip_with Z.sub d2 los → d1 = d2.
Proof.
  revert d1 d2; induction los as [|lo los IH]; intros [|x d1] [|y d2];
    simpl; try done.
  intros [= H1] [= H2] [= Hxy Hrest]. f_equal; [lia | by apply IH].
Qed.

(** X14.  The conditional delay-prior table of a tuple of detectors is a
    histogram addressed by offset from the smallest delay: along every
    axis it has one cell per integer between the smallest and the largest
    pairwise delay, every sample's delay vector lies in that box, and the
    cell at offset [d - los] holds the total weight of the samples whose
    discretized pairwise delay vector is [d]. *)
Theorem delays_prior_cells sqrtQ a e log s h0 order :
  construct sqrtQ a e = (log, Ok (s, h0)) →
  (2 ≤ length order)%nat → NoDup order →
  Forall (λ x, (x < length (detector_names s))%nat) order →
  ∃ pairwise los his hist,
    pairwise_delays_of (f_sampling s) (ext_geocenter_delays e) order = Ok pairwise ∧
    mapR np_min pairwise = Ok los ∧ mapR np_max pairwise = Ok his ∧
    dict_get (delays_prior s) order = Some hist ∧
    nd_shape hist = zip_with (λ lo hi, hi - lo + 1) los his ∧
    Forall (within los his) (zip_star pairwise) ∧
    ∀ d, within los his d →
      ∃ v, nd_get hist (zip_with Z.sub d los) = Ok v ∧
           (v == weight_at (zip_star pairwise)
                   (antenna_weights sqrtQ (fplus_fcross_0 s)) d)%Q.
Proof.
  intros [Hc _]%construct_Ok_inv Hl Hnd Hall.
  destruct (delays_prior_table _ _ _ _ _ _ (c_tables _ _ _ _ _ Hc)) as [Hinv Hsome];
    [done|].
  destruct (Hsome order) as [hist Hhist].
  { left. by apply elem_of_detector_orders. }
  simpl in Hhist. pose proof (Hinv _ _ Hhist) as Hh.
  unfold delays_histogram in Hh.
  apply bind_Ok_inv in Hh as (pairwise & Hp & Hh).
  apply bind_Ok_inv in Hh as (bins & Hb & [= <-]).
  unfold half_integer_bins in Hb.
  apply bind_Ok_inv in Hb as (los & Hlos & Hb).
  apply bind_Ok_inv in Hb as (his & Hhis & [= <-]).
  pose proof (mapR_Ok_inv _ _ _ Hlos) as Hmin.
  pose proof (mapR_Ok_inv _ _ _ Hhis) as Hmax.
  set (bins := zip_with _ los his) in *.
  set (weights := antenna_weights sqrtQ (fplus_fcross_0 s)) in *.
  assert (Forall (within los his) (zip_star pairwise)) as Hbox.
  { apply Forall_forall. intros t Ht%zip_star_entries. split.
    - apply Forall2_flip.
      apply (Forall2_chain (λ x r, x ∈ r) (λ r lo, np_min r = Ok lo)
               (λ x lo, lo ≤ x) t pairwise los); [|done|done].
      intros x r lo Hx [_ Hlo]%np_min_spec. by apply Hlo.
    - apply (Forall2_chain (λ x r, x ∈ r) (λ r hi, np_max r = Ok hi)
               Z.le t pairwise his); [|done|done].
      intros x r hi Hx [_ Hhi]%np_max_spec. by apply Hhi. }
  assert (Forall2 Z.le los his) as Hlh.
  { apply (Forall2_chain (λ lo r, np_min r = Ok lo) (λ r hi, np_max r = Ok hi)
             Z.le los pairwise his); [|by apply Forall2_flip|done].
    intros lo r hi [Hin _]%np_min_spec [_ Hhi]%np_max_spec. by apply Hhi. }
  destruct (histogramdd_fold bins (λ x, zip_with Z.sub x los)
              (zip (zip_star pairwise) weights)
              (np_full (map (λ edges, Z.of_nat (length edges) - 1) bins) 0%Q))
    as (Hshape & Hfill & Hcells).
  { apply Forall_forall. intros [x w] Hxw%elem_of_zip_l. simpl.
    rewrite Forall_forall in Hbox. destruct (Hbox x Hxw) as [H1 H2].
    by apply bins_of_half_integer. }
  fold (histogramdd (zip_star pairwise) weights bins) in Hshape, Hfill, Hcells.
  assert (nd_shape (histogramdd (zip_star pairwise) weights bins)
          = zip_with (λ lo hi, hi - lo + 1) los his) as Hshape'.
  { rewrite Hshape. simpl. unfold bins. clear -Hlh.
    induction Hlh as [|lo hi los his Hle _ IH]; [done|]. simpl.
    rewrite IH, length_map, length_seqZ. f_equal. lia. }
  exists pairwise, los, his, (histogramdd (zip_star pairwise) weights bins).
  split_and!; try done.
  intros d [Hd1 Hd2]. unfold nd_get. rewrite Hshape'.
  assert (nd_cell (zip_with (λ lo hi, hi - lo + 1) los his) (zip_with Z.sub d los)
          = Ok (zip_with Z.sub d los)) as ->.
  { clear -Hd1 Hd2. revert his Hd2.
    induction Hd1 as [|lo x los d Hlo _ IH]; intros his Hd2;
      inversion Hd2 as [|? hi ? his' Hhi Hd2']; subst; simpl; [done|].
    unfold normalize_index. rewrite bool_decide_eq_true_2 by lia. simpl.
    by rewrite (IH _ Hd2'). }
  simpl. eexists. split; [done|]. rewrite Hfill. simpl in Hcells.
  rewrite (Hcells (zip_with Z.sub d los)). simpl.
  rewrite lookup_empty. simpl. unfold weight_at.
  rewrite (filter_ext_elem (λ xw, zip_with Z.sub xw.1 los = zip_with Z.sub d los)
             (λ xw, xw.1 = d)); [lra|].
  intros [x w] Hxw%elem_of_zip_l. simpl.
  split; [|by intros ->]. apply zip_with_sub_inj.
  - apply zip_star_tuple_length in Hxw. rewrite Hxw.
    by apply Forall2_length in Hmin.
  - by apply Forall2_length in Hd1.
Qed.

(** X14 at the pair (H, L) of a three-detector engine whose delays are not
    symmetric about zero. *)
Lemma delays_prior_cells_witness :
  ∃ pairwise los his hist,
    pairwise_delays_of (f_sampling BoundsExamples.engine.1)
      (ext_geocenter_delays BoundsExamples.ext) [0; 1]%nat = Ok pairwise ∧
    mapR np_min pairwise = Ok los ∧ mapR np_max pairwise = Ok his ∧
    dict_get (delays_prior BoundsExamples.engine.1) [0; 1]%nat = Some hist ∧
    nd_shape hist = zip_with (λ lo hi, hi - lo + 1) los his ∧
    Forall (within los his) (zip_star pairwise) ∧
    ∀ d, within los his d →
      ∃ v, nd_get hist (zip_with Z.sub d los) = Ok v ∧
           (v == weight_at (zip_star pairwise)
                   (antenna_weights isqrtQ (fplus_fcross_0 BoundsExamples.engine.1)) d)%Q.
Proof.
  apply (delays_prior_cells isqrtQ BoundsExamples.args BoundsExamples.ext
           all_attributes BoundsExamples.engine.1 BoundsExamples.engine.2).
  - vm_compute. reflexivity.
  - simpl. lia.
  - apply (bool_decide_eq_true_1 (NoDup [0; 1]%nat)). reflexivity.
  - repeat constructor.
Defined.

(** * The outcome of [resample_timeseries] *)







